(** * Room navigation core: A*-style path search and tile occupancy

    A shallow embedding of [PathFinder] (PathFinder.cpp) and of the
    [TileInstance] interface (TileInstance.h).  Search nodes are heap
    objects reached through raw pointers in the source; here they live in
    an arena ([nodes]) and a pointer is an index into it, so that the
    in-place update of an open node and the parent back-links alias the
    way they do in the C++ code. *)

From Stdlib Require Import ZArith Ascii Lia.
From stdpp Require Import base tactics option list numbers relations.

Local Open Scope Z_scope.

(** ** Machine integers *)

(** [int16] and [uint32] values are kept as [Z]; conversions wrap. *)
Definition wrap16 (z : Z) : Z := (z + 32768) mod 65536 - 32768.
Definition wrap32 (z : Z) : Z := z mod 4294967296.

(** ** Positions and the grid *)

(** [Position] is declared in a header that is not part of the sources at
    hand; its two fields are taken to be [int16], like every coordinate
    that PathFinder.cpp and TileInstance.h pass around. *)
Record Position := mkPosition { X : Z; Y : Z }.

#[global] Instance Position_eq_dec : EqDecision Position.
Proof. solve_decision. Defined.

(** [GridArray] (declared in the absent PathFinder.h) is read as
    [m_Grid[Y][X]]: a sequence of rows, each a sequence of [char]. *)
Definition GridArray := list (list ascii).

(** [m_Grid[p.Y][p.X]].  [None] stands for an access outside the array,
    which the C++ code does not define. *)
Definition grid_at (g : GridArray) (p : Position) : option ascii :=
  if (0 <=? Y p) && (0 <=? X p)
  then row ← g !! Z.to_nat (Y p); row !! Z.to_nat (X p)
  else None.

Definition in_bounds (g : GridArray) (p : Position) : Prop :=
  is_Some (grid_at g p).

(** Number of cells of the grid. *)
Definition cells (g : GridArray) : nat :=
  foldr (fun row n => (length row + n)%nat) 0%nat g.

(** ** Search nodes *)

Definition ptr := nat.

(** Modelled from the spec: the [Node] class (Node.h is not among the
    sources).  A search node has a cell coordinate, a G cost, an H cost,
    a total cost G+H and a non-owning back-reference to its parent; the
    seed node has G = 0 and no parent. *)
Record Node := mkNode {
  m_PositionX : Z;
  m_PositionY : Z;
  m_GCost : Z;
  m_HCost : Z;
  m_ParentNode : option ptr
}.

Definition Node_new (x y : Z) (parent : option ptr) : Node :=
  mkNode x y 0 0 parent.

Definition GetPositionX (n : Node) : Z := m_PositionX n.
Definition GetPositionY (n : Node) : Z := m_PositionY n.
Definition GetGCost (n : Node) : Z := m_GCost n.
Definition GetHCost (n : Node) : Z := m_HCost n.
Definition GetTotalCost (n : Node) : Z := m_GCost n + m_HCost n.
Definition GetParentNode (n : Node) : option ptr := m_ParentNode n.

Definition SetGCost (g : Z) (n : Node) : Node :=
  mkNode (m_PositionX n) (m_PositionY n) g (m_HCost n) (m_ParentNode n).
Definition SetHCost (h : Z) (n : Node) : Node :=
  mkNode (m_PositionX n) (m_PositionY n) (m_GCost n) h (m_ParentNode n).
Definition SetParentNode (p : option ptr) (n : Node) : Node :=
  mkNode (m_PositionX n) (m_PositionY n) (m_GCost n) (m_HCost n) p.

Definition node_pos (n : Node) : Position :=
  mkPosition (GetPositionX n) (GetPositionY n).

#[global] Instance Node_inhabited : Inhabited Node :=
  populate (Node_new 0 0 None).

(** ** The path finder *)

(** Outcome of a piece of code that reads the grid: either it ran, or it
    indexed the grid outside its bounds at the given position. *)
Inductive result (A : Type) : Type :=
| Ok (a : A)
| OutOfRange (p : Position).
Arguments Ok {A} a.
Arguments OutOfRange {A} p.

(** How the [while (!m_OpenList.empty())] loop was left. *)
Inductive loop_exit := GoalReached | OpenExhausted.

(** The mutable members of a [PathFinder], with the arena of the nodes
    allocated by [new Node]. *)
Record PathFinder := mkPathFinder {
  nodes : list Node;
  m_OpenList : list ptr;
  m_ClosedList : list ptr;
  m_Current : option ptr
}.

(** State after the constructor: both vectors empty (only reserved). *)
Definition PathFinder_new : PathFinder := mkPathFinder [] [] [] None.

(** The eight directions, in the order the constructor stores them. *)
Definition m_Directions : list Position :=
  [ mkPosition 0 1; mkPosition 1 0; mkPosition 0 (-1); mkPosition (-1) 0;
    mkPosition (-1) (-1); mkPosition 1 1; mkPosition (-1) 1;
    mkPosition 1 (-1) ].

(** Dereference of a node pointer. Every pointer the search stores comes
    from an allocation (lemma [inv_valid] below). *)
Definition deref (h : list Node) (p : ptr) : Node := h !!! p.

Definition pos_of (h : list Node) (p : ptr) : Position := node_pos (deref h p).

(** [new Node(...)] followed by [push_back] on the open list. *)
Definition push_open_new (n : Node) (pf : PathFinder) : PathFinder :=
  mkPathFinder (nodes pf ++ [n]) (m_OpenList pf ++ [length (nodes pf)])
               (m_ClosedList pf) (m_Current pf).

Definition set_current (p : ptr) (pf : PathFinder) : PathFinder :=
  mkPathFinder (nodes pf) (m_OpenList pf) (m_ClosedList pf) (Some p).

(** [m_ClosedList.push_back(m_Current); m_OpenList.erase(l_CurrentItr)]. *)
Definition close_current (i : nat) (p : ptr) (pf : PathFinder) : PathFinder :=
  mkPathFinder (nodes pf) (delete i (m_OpenList pf))
               (m_ClosedList pf ++ [p]) (Some p).

(** [l_Node->SetGCost(g); l_Node->SetParentNode(m_Current)]. *)
Definition update_node (q : ptr) (g : Z) (cur : ptr) (pf : PathFinder)
  : PathFinder :=
  mkPathFinder
    (<[q := SetParentNode (Some cur) (SetGCost g (deref (nodes pf) q))]>
       (nodes pf))
    (m_OpenList pf) (m_ClosedList pf) (m_Current pf).

(** [DoesNodeExist]: the first node of the vector at that position. *)
Fixpoint DoesNodeExist (h : list Node) (p_Nodes : list ptr)
    (p_FuturePosition : Position) : option ptr :=
  match p_Nodes with
  | [] => None
  | l_Itr :: rest =>
      if (GetPositionX (deref h l_Itr) =? X p_FuturePosition)
         && (GetPositionY (deref h l_Itr) =? Y p_FuturePosition)
      then Some l_Itr
      else DoesNodeExist h rest p_FuturePosition
  end.

(** The selection loop of lines 60-72: [best] starts at [begin()] and is
    replaced by every later element whose total cost is [<=] its own. *)
Fixpoint select_from (h : list Node) (l : list ptr) (i : nat)
    (best : nat * ptr) : nat * ptr :=
  match l with
  | [] => best
  | p :: rest =>
      select_from h rest (S i)
        (if GetTotalCost (deref h p) <=? GetTotalCost (deref h (snd best))
         then (i, p) else best)
  end.

Definition select_lowest (pf : PathFinder) : option (nat * ptr) :=
  match m_OpenList pf with
  | [] => None
  | p :: _ => Some (select_from (nodes pf) (m_OpenList pf) 0 (0%nat, p))
  end.

(** [(l_I < 4 ? 10 : 14)]: the first four directions are the straight
    ones. *)
Definition step_cost (l_I : nat) : Z := if (l_I <? 4)%nat then 10 else 14.

Section Search.

Variable m_Grid : GridArray.
Variables p_StartX p_StartY p_EndX p_EndY : Z.

(** [CheckValidTile]: the only test is the grid marker. *)
Definition CheckValidTile (p_Position : Position) : option bool :=
  c ← grid_at m_Grid p_Position;
  Some (if Ascii.eqb c "X" then false else true).

(** [CalculateHeuristic]: Manhattan distance times ten, computed in
    [int] and cast to [unsigned int]. *)
Definition CalculateHeuristic (p_Current : Node) : Z :=
  wrap32 (10 * (Z.abs (GetPositionX p_Current - p_EndX)
                + Z.abs (GetPositionY p_Current - p_EndY))).

(** The test of line 75. *)
Definition at_end (n : Node) : bool :=
  (GetPositionX n =? p_EndX) && (GetPositionY n =? p_EndY).

(** Body of the direction loop (lines 86-118) for direction number
    [l_I], with [cur] the value of [m_Current]. *)
Definition expand_dir (l_I : nat) (d : Position) (cur : ptr)
    (pf : PathFinder) : result PathFinder :=
  let c := deref (nodes pf) cur in
  let l_FuturePosition :=
    mkPosition (wrap16 (GetPositionX c + X d))
               (wrap16 (GetPositionY c + Y d)) in
  match CheckValidTile l_FuturePosition with
  | None => OutOfRange l_FuturePosition
  | Some false => Ok pf
  | Some true =>
      match DoesNodeExist (nodes pf) (m_ClosedList pf) l_FuturePosition with
      | Some _ => Ok pf
      | None =>
          let l_GCost := wrap32 (GetGCost c + step_cost l_I) in
          match DoesNodeExist (nodes pf) (m_OpenList pf) l_FuturePosition with
          | Some l_Node =>
              if l_GCost <? GetGCost c
              then Ok (update_node l_Node l_GCost cur pf)
              else Ok pf
          | None =>
              Ok (push_open_new
                    (SetHCost (CalculateHeuristic c)
                       (SetGCost l_GCost
                          (Node_new (X l_FuturePosition)
                                    (Y l_FuturePosition) (Some cur))))
                    pf)
          end
      end
  end.

(** The direction loop from direction number [l_I] on. *)
Fixpoint expand_from (l_I : nat) (ds : list Position) (cur : ptr)
    (pf : PathFinder) : result PathFinder :=
  match ds with
  | [] => Ok pf
  | d :: rest =>
      match expand_dir l_I d cur pf with
      | OutOfRange p => OutOfRange p
      | Ok pf' => expand_from (S l_I) rest cur pf'
      end
  end.

(** The search loop (lines 57-120). [fuel] bounds the number of times
    the loop condition is evaluated; [None] means it was not enough. *)
Fixpoint search_loop (fuel : nat) (pf : PathFinder)
    : option (result (loop_exit * PathFinder)) :=
  match fuel with
  | O => None
  | S fuel' =>
      match select_lowest pf with
      | None => Some (Ok (OpenExhausted, pf))
      | Some (i, p) =>
          if at_end (deref (nodes pf) p)
          then Some (Ok (GoalReached, set_current p pf))
          else
            match expand_from 0 m_Directions p (close_current i p pf) with
            | OutOfRange q => Some (OutOfRange q)
            | Ok pf' => search_loop fuel' pf'
            end
      end
  end.

(** The closing loop (lines 122-125): [m_Current] runs up the parent
    links until it is null. The list is the sequence of nodes it points
    to on the way; the source keeps none of them. *)
Fixpoint walk_parents (fuel : nat) (h : list Node) (cur : option ptr)
    : option (list ptr) :=
  match cur with
  | None => Some []
  | Some p =>
      match fuel with
      | O => None
      | S fuel' =>
          tr ← walk_parents fuel' h (GetParentNode (deref h p));
          Some (p :: tr)
      end
  end.

(** [CleanUp]: every node is deleted; the vectors are not cleared. *)
Definition CleanUp (pf : PathFinder) : PathFinder :=
  mkPathFinder [] (m_OpenList pf) (m_ClosedList pf) (m_Current pf).

(** State on entry of the search loop. *)
Definition seeded (pf : PathFinder) : PathFinder :=
  push_open_new (Node_new p_StartX p_StartY None) pf.

(** What one call leaves behind. The function is [void]: [visited] is
    the sequence of cells the closing loop passed over (first to last),
    recorded here for the statements below; [how] tells how the search
    loop ended and [final] is the state of the members on return. *)
Record run := mkRun {
  how : loop_exit;
  visited : list Position;
  final : PathFinder
}.

(** [CalculatePath] (lines 50-132): seed the open list, run the search
    loop, run the closing loop, [CleanUp]. The timing and logging lines
    have no effect on the members. *)
Definition CalculatePath (fuel : nat) (pf : PathFinder)
    : option (result run) :=
  match search_loop fuel (seeded pf) with
  | None => None
  | Some (OutOfRange q) => Some (OutOfRange q)
  | Some (Ok (e, pf1)) =>
      tr ← walk_parents (length (nodes pf1)) (nodes pf1) (m_Current pf1);
      Some (Ok (mkRun e (pos_of (nodes pf1) <$> tr)
                  (CleanUp (mkPathFinder (nodes pf1) (m_OpenList pf1)
                              (m_ClosedList pf1) None))))
  end.

End Search.

(** ** The search as a transition system *)

(** Control points of [CalculatePath]'s search: the loop condition, the
    direction loop about to run direction [l_I], the two ways out of the
    loop, and an out-of-range grid access (where the run stops). *)
Inductive pc :=
| LoopHead
| Dirs (l_I : nat)
| Exited (e : loop_exit)
| Faulted (p : Position).

Definition config : Type := pc * PathFinder.

Section Steps.

Variable m_Grid : GridArray.
Variables p_StartX p_StartY p_EndX p_EndY : Z.

(** One transition. At the loop head: the loop condition, the selection
    and the test against the end cell (lines 57-81). At [Dirs l_I]: one
    turn of the direction loop (lines 84-119), or the way back to the
    loop head once the eight directions are done. *)
Definition micro_step (c : config) : option config :=
  let pf := snd c in
  match fst c with
  | LoopHead =>
      match select_lowest pf with
      | None => Some (Exited OpenExhausted, pf)
      | Some (i, p) =>
          if at_end p_EndX p_EndY (deref (nodes pf) p)
          then Some (Exited GoalReached, set_current p pf)
          else Some (Dirs 0, close_current i p pf)
      end
  | Dirs l_I =>
      match m_Directions !! l_I with
      | None => Some (LoopHead, pf)
      | Some d =>
          match m_Current pf with
          | None => None
          | Some cur =>
              match expand_dir m_Grid p_EndX p_EndY l_I d cur pf with
              | Ok pf' => Some (Dirs (S l_I), pf')
              | OutOfRange q => Some (Faulted q, pf)
              end
          end
      end
  | Exited _ => None
  | Faulted _ => None
  end.

Definition step (c c' : config) : Prop := micro_step c = Some c'.

Definition initial : config :=
  (LoopHead, seeded p_StartX p_StartY PathFinder_new).

(** The configurations one call on a fresh path finder goes through. *)
Definition reachable (c : config) : Prop := rtc step initial c.

(** [n] transitions, when there are that many. *)
Fixpoint micro_steps (n : nat) (c : config) : option config :=
  match n with
  | O => Some c
  | S n' => c' ← micro_step c; micro_steps n' c'
  end.

End Steps.

(** ** Grids whose lookups stay in range *)

Definition neighbour (p d : Position) : Position :=
  mkPosition (wrap16 (X p + X d)) (wrap16 (Y p + Y d)).

(** All eight neighbours of [p] are cells of the grid. *)
Definition safe_pos (g : GridArray) (p : Position) : bool :=
  forallb (fun d => bool_decide (is_Some (grid_at g (neighbour p d))))
          m_Directions.

Definition row_cells (y : nat) (row : list ascii) : list Position :=
  (fun x => mkPosition (Z.of_nat x) (Z.of_nat y)) <$> seq 0 (length row).

Fixpoint cells_from (y : nat) (g : GridArray) : list Position :=
  match g with
  | [] => []
  | row :: g' => row_cells y row ++ cells_from (S y) g'
  end.

Definition all_cells (g : GridArray) : list Position := cells_from 0 g.

(** Every cell that is not marked ['X'] has its eight neighbours inside
    the grid, as in a room whose outermost cells are all ['X']. *)
Definition enclosed (g : GridArray) : bool :=
  forallb (fun p => match grid_at g p with
                    | Some c => Ascii.eqb c "X" || safe_pos g p
                    | None => true
                    end)
          (all_cells g).

(** ** Invariants of the search *)

Definition int16 (z : Z) : Prop := -32768 <= z <= 32767.
Definition uint32 (z : Z) : Prop := 0 <= z < 4294967296.

Section Invariant.

Variable m_Grid : GridArray.
Variables p_StartX p_StartY p_EndX p_EndY : Z.

Definition start_pos : Position := mkPosition p_StartX p_StartY.

(** The nodes the search keeps: those of the open and the closed list. *)
Definition kept (pf : PathFinder) : list ptr :=
  m_OpenList pf ++ m_ClosedList pf.

(** What holds of the two lists between any two steps of the search.
    [inv_closed_parent] says that the closed list is ordered along the
    parent links: a closed node's parent was closed before it. *)
Record inv (pf : PathFinder) : Prop := mkInv {
  inv_valid : forall p, p ∈ kept pf -> (p < length (nodes pf))%nat;
  inv_nodup : NoDup (pos_of (nodes pf) <$> kept pf);
  inv_cells : forall p, p ∈ kept pf ->
    pos_of (nodes pf) p = start_pos \/ in_bounds m_Grid (pos_of (nodes pf) p);
  inv_gcost : forall p, p ∈ kept pf -> uint32 (GetGCost (deref (nodes pf) p));
  inv_root : forall p, p ∈ kept pf ->
    GetParentNode (deref (nodes pf) p) = None ->
    pos_of (nodes pf) p = start_pos;
  inv_closed_parent : forall i c q,
    m_ClosedList pf !! i = Some c ->
    GetParentNode (deref (nodes pf) c) = Some q ->
    exists j, (j < i)%nat /\ m_ClosedList pf !! j = Some q;
  inv_open_parent : forall o q,
    o ∈ m_OpenList pf ->
    GetParentNode (deref (nodes pf) o) = Some q ->
    q ∈ m_ClosedList pf;
  inv_link : forall p q, p ∈ kept pf ->
    GetParentNode (deref (nodes pf) p) = Some q ->
    exists d, d ∈ m_Directions /\
      pos_of (nodes pf) p = neighbour (pos_of (nodes pf) q) d
}.

(** [m_Current] is the node closed last. *)
Definition current_closed (pf : PathFinder) : Prop :=
  exists cur, m_Current pf = Some cur /\ last (m_ClosedList pf) = Some cur.

Definition inv_pc (c : config) : Prop :=
  match fst c with
  | LoopHead => m_OpenList (snd c) <> [] \/ current_closed (snd c)
  | Dirs _ => current_closed (snd c)
  | Faulted _ => current_closed (snd c)
  | Exited GoalReached =>
      exists cur, m_Current (snd c) = Some cur /\ cur ∈ m_OpenList (snd c)
        /\ at_end p_EndX p_EndY (deref (nodes (snd c)) cur) = true
  | Exited OpenExhausted =>
      m_OpenList (snd c) = [] /\ current_closed (snd c)
  end.

Definition config_inv (c : config) : Prop := inv (snd c) /\ inv_pc c.

(** Every kept node has its eight neighbours inside the grid. *)
Definition all_safe (pf : PathFinder) : Prop :=
  forall p, p ∈ kept pf -> safe_pos m_Grid (pos_of (nodes pf) p) = true.

(** Every kept node has [int16] coordinates. *)
Definition all_int16 (pf : PathFinder) : Prop :=
  forall p, p ∈ kept pf ->
    int16 (X (pos_of (nodes pf) p)) /\ int16 (Y (pos_of (nodes pf) p)).

End Invariant.

Definition not_faulted (c : config) : Prop :=
  match fst c with Faulted _ => False | _ => True end.

(** A sequence of cells in which every cell is one direction away from
    the cell that follows it (the order in which parent links are walked:
    child first, parent next). *)
Fixpoint steps_back (l : list Position) : Prop :=
  match l with
  | a :: r =>
      match r with
      | b :: _ => (exists d, d ∈ m_Directions /\ a = neighbour b d)
                  /\ steps_back r
      | [] => True
      end
  | [] => True
  end.

(** What the walk from node [p] yields: the node first, the seed node
    last, every node one direction away from its parent. *)
Definition walk_ok (start : Position) (pf : PathFinder) (p : ptr)
    (tr : list ptr) : Prop :=
  hd_error tr = Some p /\
  last (pos_of (nodes pf) <$> tr) = Some start /\
  steps_back (pos_of (nodes pf) <$> tr).

(** ** Tile occupancy *)

Module Tile.

(** Handles for the objects a tile points to: [Habbo] is only forward
    declared in the header, and [Item] comes from ItemManager.h, which
    is not among the sources. A pointer is [None] when it is null. *)
Definition Habbo := nat.

Definition Item := nat.

(** The data members of [TileInstance] as the header declares them
    (lines 76-82). [m_Habbo] is a [boost::optional] of a pointer: it is
    disengaged, or engaged with a pointer that may be null. [m_Mutex] is
    left out: the calls are taken one at a time. *)
Record TileInstance := mkTile {
  m_Item : option Item;
  m_TileState : Z;
  m_TileHeight : Z;
  m_Habbo : option (option Habbo);
  m_TileX : Z;
  m_TileY : Z
}.

(** Modelled from the spec: TileInstance.cpp, with the body of
    [SetTileOccupied], is not among the sources. Per the spec the
    operation assigns or clears the occupying-entity reference, and
    nothing else. With the header's parameters, [p_Occupied] tells
    whether the tile is occupied and [p_Habbo] is the user added to it:
    an occupied tile holds [p_Habbo], which is null when it is an object
    that uses the tile, and a tile that is not occupied holds no
    reference. Assigning the entity [a] is [SetTileOccupied true (Some a)],
    clearing is [SetTileOccupied false None]. *)
Definition SetTileOccupied (p_Occupied : bool) (p_Habbo : option Habbo)
    (t : TileInstance) : TileInstance :=
  mkTile (m_Item t) (m_TileState t) (m_TileHeight t)
         (if p_Occupied then Some p_Habbo else None)
         (m_TileX t) (m_TileY t).

(** Modelled from the spec: the body of [TileContainsSolidObject] is not
    among the sources. Per the spec it is true iff a static, non-entity
    object occupies the cell; of the members declared it is [m_Item]
    that holds such an object. *)
Definition TileContainsSolidObject (t : TileInstance) : bool :=
  bool_decide (is_Some (m_Item t)).

(** Modelled from the spec: the body of [CanWalkOnTile] is not among the
    sources. Per the spec [CanWalkOn] is true iff the cell is not flagged
    solid and, per policy, not exclusively reserved. The spec leaves open
    whether an occupied cell is reserved; [entity_blocks] is that policy
    flag. *)
Definition CanWalkOnTile (entity_blocks : bool) (t : TileInstance) : bool :=
  negb (TileContainsSolidObject t)
  && negb (entity_blocks && bool_decide (is_Some (m_Habbo t))).

(** The validity check as the specification words it: the grid marker
    is walkable and the tile occupancy map reports the cell not blocked. *)
Definition valid_as_specified (entity_blocks : bool) (g : GridArray)
    (tiles : Position -> TileInstance) (p : Position) : option bool :=
  c ← grid_at g p;
  Some ((if Ascii.eqb c "X" then false else true)
        && CanWalkOnTile entity_blocks (tiles p)).

End Tile.

(** ** Test rooms *)

Definition room_open2 : GridArray :=
  [ ["0"; "0"]; ["0"; "0"] ]%char.

Definition room_4x4 : GridArray :=
  [ ["X"; "X"; "X"; "X"];
    ["X"; "0"; "0"; "X"];
    ["X"; "0"; "0"; "X"];
    ["X"; "X"; "X"; "X"] ]%char.

Definition room_cell : GridArray :=
  [ ["X"; "X"; "X"];
    ["X"; "0"; "X"];
    ["X"; "X"; "X"] ]%char.

Definition room_bend : GridArray :=
  [ ["X"; "X"; "X"; "X"; "X"];
    ["X"; "X"; "0"; "X"; "X"];
    ["X"; "0"; "0"; "X"; "X"];
    ["X"; "X"; "0"; "0"; "X"];
    ["X"; "X"; "X"; "X"; "X"] ]%char.


(** Configurations of sample runs: [after g sx sy ex ey n] is where the
    search from [(sx, sy)] to [(ex, ey)] stands after [n] transitions. *)
Definition after (g : GridArray) (sx sy ex ey : Z) (n : nat) : config :=
  default (initial sx sy) (micro_steps g ex ey n (initial sx sy)).

(** In [room_4x4] from (1,1) to (2,2): the second iteration, about to run
    direction 3. *)
Definition room_4x4_mid : config := after room_4x4 1 1 2 2 14.

(** In [room_4x4] from (1,1) to (2,2): the loop head after the first
    iteration. *)
Definition room_4x4_first : config := after room_4x4 1 1 2 2 10.

(** In [room_4x4] from (1,1) to (2,2): the first iteration, about to run
    direction 0. *)
Definition room_4x4_dir0 : config := after room_4x4 1 1 2 2 1.

(** In [room_bend] from (3,3) to (2,1): the fourth iteration, expanding
    the node on (2,2), about to run direction 2 towards (2,1). *)
Definition room_bend_dir2 : config := after room_bend 3 3 2 1 33.

(** The tie-break the specification words: the node selected is the
    first of the cheapest ones, that is, every node met before it costs
    strictly more. *)
Definition first_among_ties (pf : PathFinder) : Prop :=
  forall i p, select_lowest pf = Some (i, p) ->
  forall j q, m_OpenList pf !! j = Some q -> (j < i)%nat ->
    GetTotalCost (deref (nodes pf) p) < GetTotalCost (deref (nodes pf) q).

(** The H cost the specification words for a node: ten times the
    Manhattan distance from the node's own cell to the end cell. *)
Definition heuristic_as_specified (ex ey : Z) (n : Node) : Z :=
  10 * (Z.abs (GetPositionX n - ex) + Z.abs (GetPositionY n - ey)).

(** The update rule the specification words for a neighbour found in the
    open list: a lower G cost replaces the node's G cost and the node is
    reparented. *)
Definition update_as_specified (l_Node : ptr) (l_GCost : Z) (cur : ptr)
    (pf : PathFinder) : PathFinder :=
  if l_GCost <? GetGCost (deref (nodes pf) l_Node)
  then update_node l_Node l_GCost cur pf
  else pf.

(** The result the specification words: the parent walk reversed when the
    end was reached, nothing when the open list ran empty. *)
Definition path_as_specified (e : loop_exit) (walk : list Position)
    : list Position :=
  match e with
  | GoalReached => rev walk
  | OpenExhausted => []
  end.

(** What the members give access to on return: the cells along the
    parent links from [m_Current], over the nodes that are still
    allocated. *)
Definition path_kept (pf : PathFinder) : list Position :=
  match walk_parents (length (nodes pf)) (nodes pf) (m_Current pf) with
  | Some tr => pos_of (nodes pf) <$> tr
  | None => []
  end.

(** ** Connection over walkable cells *)

(** [connected g a b]: [b] is reached from [a] by moves in the eight
    directions, each onto a cell of the grid that passes
    [CheckValidTile]. The cell [a] itself is not tested, as the search
    does not test its start cell. *)
Inductive connected (g : GridArray) (a : Position) : Position -> Prop :=
| connected_here : connected g a a
| connected_next (b d : Position) :
    connected g a b -> d ∈ m_Directions ->
    CheckValidTile g (neighbour b d) = Some true ->
    connected g a (neighbour b d).

(** Cost of the step between two cells that are one direction apart: 10
    when they share a coordinate, 14 when they do not. *)
Definition link_cost (a b : Position) : Z :=
  if (X a =? X b) || (Y a =? Y b) then 10 else 14.

(** Cost of a sequence of cells, step by step. *)
Fixpoint path_cost (l : list Position) : Z :=
  match l with
  | a :: r =>
      match r with
      | b :: _ => link_cost a b + path_cost r
      | [] => 0
      end
  | [] => 0
  end.

Section Frontier.

Variable m_Grid : GridArray.
Variables p_StartX p_StartY p_EndX p_EndY : Z.

(** The directions numbered below [k] have been tried from node [c]:
    each valid neighbour cell carries a kept node. *)
Definition expanded_upto (k : nat) (pf : PathFinder) (c : ptr) : Prop :=
  forall j d, (j < k)%nat -> m_Directions !! j = Some d ->
    CheckValidTile m_Grid (neighbour (pos_of (nodes pf) c) d) = Some true ->
    neighbour (pos_of (nodes pf) c) d ∈ pos_of (nodes pf) <$> kept pf.

Definition expanded (pf : PathFinder) (c : ptr) : Prop :=
  expanded_upto (length m_Directions) pf c.

(** What the search keeps true of its nodes, besides [inv]: every kept
    node is connected to the start cell, the start cell carries a kept
    node, no closed node lies on the end cell, and the G cost of a node
    is that of its parent plus the cost of the step between them. *)
Record inv_search (pf : PathFinder) : Prop := mkInvSearch {
  is_connected : forall p, p ∈ kept pf ->
    connected m_Grid (start_pos p_StartX p_StartY) (pos_of (nodes pf) p);
  is_seed : start_pos p_StartX p_StartY ∈ pos_of (nodes pf) <$> kept pf;
  is_not_end : forall c, c ∈ m_ClosedList pf ->
    pos_of (nodes pf) c <> mkPosition p_EndX p_EndY;
  is_glink : forall p, p ∈ kept pf ->
    match GetParentNode (deref (nodes pf) p) with
    | None => GetGCost (deref (nodes pf) p) = 0
    | Some q =>
        exists k d, m_Directions !! k = Some d /\
          pos_of (nodes pf) p = neighbour (pos_of (nodes pf) q) d /\
          GetGCost (deref (nodes pf) p)
          = wrap32 (GetGCost (deref (nodes pf) q) + step_cost k)
    end
}.

(** How far the closed nodes have been expanded, by control point: all
    of them fully, except the one closed last while the direction loop is
    at work on it. *)
Definition frontier_inv (c : config) : Prop :=
  match fst c with
  | Dirs k =>
      forall i x, m_ClosedList (snd c) !! i = Some x ->
        if decide (S i = length (m_ClosedList (snd c)))
        then expanded_upto k (snd c) x
        else expanded (snd c) x
  | Faulted _ => True
  | _ => forall x, x ∈ m_ClosedList (snd c) -> expanded (snd c) x
  end.

(** G costs stay below fourteen times the number of closed nodes. *)
Definition gcost_bounded (pf : PathFinder) : Prop :=
  (forall i c, m_ClosedList pf !! i = Some c ->
     GetGCost (deref (nodes pf) c) <= 14 * Z.of_nat i) /\
  (forall o, o ∈ m_OpenList pf ->
     GetGCost (deref (nodes pf) o) <= 14 * Z.of_nat (length (m_ClosedList pf))).

End Frontier.

(** In [room_bend] from (3,3) to (2,1): the configuration in which the
    loop is left. *)
Definition room_bend_exit : config := after room_bend 3 3 2 1 41.

(** ** Shared helpers: byte order, base-64 and wire encodings *)

Module Shared.

(** A [std::string] is the sequence of its [char]s. [char] is signed, as
    on the platforms the server is built for: promoted to [int] a [char]
    lies in -128..127, and a conversion to [char] wraps modulo 256. *)
Definition char_of_Z (z : Z) : ascii := ascii_of_N (Z.to_N (z mod 256)).

Definition Z_of_char (c : ascii) : Z :=
  let n := Z.of_N (N_of_ascii c) in if n <? 128 then n else n - 256.

Definition int32 (z : Z) : Prop := -2147483648 <= z <= 2147483647.

(** An [int] result; [None] when it does not fit, where signed
    arithmetic is undefined. *)
Definition checked_int (z : Z) : option Z :=
  if (-2147483648 <=? z) && (z <=? 2147483647) then Some z else None.

(** [s[i]] on a [std::string]: a character of the string, the
    terminating null at [i = size()], undefined beyond. *)
Definition string_at (s : list ascii) (i : Z) : option Z :=
  if i <? 0 then None
  else match s !! Z.to_nat i with
       | Some c => Some (Z_of_char c)
       | None => if i =? Z.of_nat (length s) then Some 0 else None
       end.

(** [ConvertEndian]: the operands are promoted to [int]; the result is
    converted back to [uint16]. *)
Definition ConvertEndian (value : Z) : Z :=
  Z.lor (Z.shiftl (Z.land value 255) 8) (Z.shiftr (Z.land value 65280) 8)
  mod 65536.

(** [EncodeBase64]: two characters, for the offsets 6 and 0. *)
Definition EncodeBase64 (value : Z) : list ascii :=
  (fun offset => char_of_Z ((64 + Z.land (Z.shiftr value offset) 63) mod 256))
    <$> [6; 0].

(** [(int)(pow(64, y))]: the powers of two up to 2^30 are doubles that
    convert to [int] unchanged; from 64^6 on the conversion is
    undefined. *)
Definition pow64 (y : nat) : option Z :=
  if (y <=? 5)%nat then Some (64 ^ Z.of_nat y) else None.

(** The loop of [DecodeBase64], over the characters from the last to the
    first, [y] counting them. *)
Fixpoint DecodeBase64_from (rbuffer : list ascii) (y : nat) (intTot : Z)
    : option Z :=
  match rbuffer with
  | [] => Some intTot
  | c :: rest =>
      let intTmp := Z_of_char (char_of_Z (Z_of_char c - 64)) in
      intTmp' ← (if (0 <? y)%nat
                 then p ← pow64 y; checked_int (intTmp * p)
                 else Some intTmp);
      intTot' ← checked_int (intTot + intTmp');
      DecodeBase64_from rest (S y) intTot'
  end.

Definition DecodeBase64 (buffer : list ascii) : option Z :=
  DecodeBase64_from (reverse buffer) 0 0.

(** The loop of [EncodeWired] (lines 85-89) with [slots] elements of
    [wf] still free: [None] when it writes past the end of [wf]. *)
Fixpoint wired_digits (slots : nat) (value : Z) : option (list Z) :=
  if value =? 0 then Some []
  else match slots with
       | O => None
       | S slots' =>
           rest ← wired_digits slots' (Z.shiftr value 6);
           Some (64 + Z.land value 63 :: rest)
       end.

(** The part of [EncodeWired] that fills [wf] (lines 79-91), for an
    [int64] value: the characters written, in the order of the array,
    and [bytes], their number. [None] stands for undefined behaviour:
    [abs] of the least [int64], or a write past [wf[5]]. [abs] is taken
    at the width of [value]; on a value that fits [int] every overload
    of [abs] gives the same result. *)
Definition wired_chars (value : Z) : option (list ascii * Z) :=
  if value =? -9223372036854775808 then None
  else
    let negativeMask := if 0 <=? value then 0 else 4 in
    let value := Z.abs value in
    let wf0 := Z_of_char (char_of_Z (64 + Z.land value 3)) in
    digits ← wired_digits 5 (Z.shiftr value 2);
    let bytes := 1 + Z.of_nat (length digits) in
    Some (char_of_Z (Z.lor (Z.lor wf0 (Z.shiftl bytes 3)) negativeMask)
          :: (char_of_Z <$> digits), bytes).

Definition null : ascii := ascii_of_nat 0.

(** [std::string tmp(wf)] (line 93) reads the array as a C string: the
    characters before the first null. [None] when the array holds no
    null, so that the read runs past its end. *)
Fixpoint c_string (buf : list ascii) : option (list ascii) :=
  match buf with
  | [] => None
  | c :: rest =>
      if Ascii.eqb c null then Some [] else cons c <$> c_string rest
  end.

(** [tmp.resize(n)]: the first [n] characters, filled up with nulls. *)
Definition resize (n : nat) (s : list ascii) : list ascii :=
  take n s ++ replicate (n - length s) null.

(** [EncodeWired]. The array [wf] is not initialised and never
    terminated: [wf_init i] is what [wf[i]] happens to hold on entry,
    and the elements that are not written keep it. The string is built
    from the six elements up to the first null and resized to [bytes]. *)
Definition EncodeWired (wf_init : nat -> ascii) (value : Z)
    : option (list ascii) :=
  '(written, bytes) ← wired_chars value;
  tmp ← c_string (written
                  ++ (wf_init <$> seq (length written) (6 - length written)));
  Some (resize (Z.to_nat bytes) tmp).

(** [x << s] on [int], for [x >= 0]: undefined for [s >= 32] or when the
    result needs more than 32 bits; otherwise the 32-bit pattern read as
    an [int]. *)
Definition shl_int (x s : Z) : option Z :=
  if (s <? 32) && (x * 2 ^ s <? 4294967296)
  then Some ((x * 2 ^ s + 2147483648) mod 4294967296 - 2147483648)
  else None.

(** The loop of [DecodeWired] (lines 110-115) with [n] turns to go. *)
Fixpoint DecodeWired_from (n : nat) (b : Z) (pos : Z) (shiftAmount : Z)
    (v : Z) (buffer : list ascii) : option Z :=
  match n with
  | O => Some v
  | S n' =>
      c ← string_at buffer pos;
      part ← shl_int (Z.land c 63) shiftAmount;
      DecodeWired_from n' (b + 1) (pos + 1) (2 + 6 * b) (Z.lor v part) buffer
  end.

(** [DecodeWired]. No operation in the [try] block throws, so the
    handler is never entered. *)
Definition DecodeWired (buffer : list ascii) : option Z :=
  c0 ← string_at buffer 0;
  let negative := Z.land c0 4 =? 4 in
  let totalBytes := Z.land (Z.shiftr c0 3) 7 in
  v ← DecodeWired_from (Z.to_nat (totalBytes - 1)) 1 1 2 (Z.land c0 3) buffer;
  if negative then checked_int (v * -1) else Some v.

(** [t] starts [s]. *)
Fixpoint starts_with (t s : list ascii) : bool :=
  match t with
  | [] => true
  | a :: t' =>
      match s with
      | [] => false
      | b :: s' => Ascii.eqb a b && starts_with t' s'
      end
  end.

(** [s.find(t)] from position [i] of the whole string: the least
    position at which [t] occurs. *)
Fixpoint find_from (t s : list ascii) (i : nat) : option nat :=
  if starts_with t s then Some i
  else match s with
       | [] => None
       | _ :: s' => find_from t s' (S i)
       end.

Definition npos : Z := 18446744073709551615.

(** [std::string::find]: [npos] when there is no occurrence. *)
Definition find (s t : list ascii) : Z :=
  match find_from t s 0 with
  | Some i => Z.of_nat i
  | None => npos
  end.

(** [size_t] arithmetic. *)
Definition size_t (z : Z) : Z := z mod 18446744073709551616.

Definition CR : ascii := ascii_of_nat 13.

(** The loop of [SplitString] (lines 28-34): the characters up to the
    first carriage return. *)
Fixpoint until_CR (s : list ascii) : list ascii :=
  match s with
  | [] => []
  | c :: s' => if Ascii.eqb c CR then [] else c :: until_CR s'
  end.

(** [SplitString]. [None] when [stringData] is indexed beyond its
    terminating null. *)
Definition SplitString (stringData tokenizer : list ascii)
    : option (list ascii) :=
  let startPosition := find stringData tokenizer in
  let len := Z.of_nat (length tokenizer) in
  c ← string_at stringData (size_t (startPosition + len));
  if c =? Z_of_char "="
  then Some (until_CR
               (drop (Z.to_nat (size_t (startPosition + size_t (len + 1))))
                     stringData))
  else Some ["0"%char].

End Shared.

(** * Properties *)

(** ** The node arena *)

Lemma deref_app_l (h k : list Node) (p : ptr) :
  (p < length h)%nat -> deref (h ++ k) p = deref h p.
Proof. intros Hp. unfold deref. by rewrite lookup_total_app_l. Qed.

Lemma deref_app_new (h : list Node) (n : Node) :
  deref (h ++ [n]) (length h) = n.
Proof.
  unfold deref. rewrite lookup_total_app_r by lia.
  by rewrite Nat.sub_diag.
Qed.

Lemma deref_insert_ne (h : list Node) (q p : ptr) (n : Node) :
  q <> p -> deref (<[q := n]> h) p = deref h p.
Proof. intros Hne. unfold deref. by rewrite list_lookup_total_insert_ne. Qed.

Lemma deref_insert_eq (h : list Node) (q : ptr) (n : Node) :
  (q < length h)%nat -> deref (<[q := n]> h) q = n.
Proof. intros Hq. unfold deref. by rewrite list_lookup_total_insert_eq. Qed.

Lemma pos_of_app_l (h k : list Node) (p : ptr) :
  (p < length h)%nat -> pos_of (h ++ k) p = pos_of h p.
Proof. intros Hp. unfold pos_of. by rewrite deref_app_l. Qed.

(** Updating the costs and the parent of a node moves no node. *)
Lemma pos_of_update (h : list Node) (q p cur : ptr) (g : Z) :
  (q < length h)%nat ->
  pos_of (<[q := SetParentNode (Some cur) (SetGCost g (deref h q))]> h) p
  = pos_of h p.
Proof.
  intros Hq. unfold pos_of. destruct (decide (q = p)) as [->|Hne].
  - by rewrite deref_insert_eq.
  - by rewrite deref_insert_ne.
Qed.

Lemma pos_of_fmap_ext (h h' : list Node) (l : list ptr) :
  (forall p, p ∈ l -> pos_of h' p = pos_of h p) ->
  pos_of h' <$> l = pos_of h <$> l.
Proof.
  intros Hext. apply list_fmap_ext. intros i p Hip.
  apply Hext. by eapply list_elem_of_lookup_2.
Qed.

(** ** [DoesNodeExist] *)

Lemma same_position (h : list Node) (p : ptr) (fp : Position) :
  (GetPositionX (deref h p) =? X fp) && (GetPositionY (deref h p) =? Y fp)
  = true <-> pos_of h p = fp.
Proof.
  rewrite andb_true_iff, !Z.eqb_eq. unfold pos_of, node_pos.
  destruct fp as [fx fy]; simpl. split.
  - by intros [-> ->].
  - by intros [= -> ->].
Qed.

Lemma DoesNodeExist_Some (h : list Node) (l : list ptr) (fp : Position)
    (q : ptr) :
  DoesNodeExist h l fp = Some q -> q ∈ l /\ pos_of h q = fp.
Proof.
  induction l as [|p l IH]; simpl; [done|].
  destruct (_ && _) eqn:E.
  - intros [= <-]. split; [left|]. by apply same_position.
  - intros Hq. destruct (IH Hq) as [Hin Hpos]. split; [by right|done].
Qed.

Lemma DoesNodeExist_None (h : list Node) (l : list ptr) (fp : Position) :
  DoesNodeExist h l fp = None <-> fp ∉ pos_of h <$> l.
Proof.
  induction l as [|p l IH]; simpl.
  - split; [intros _; apply not_elem_of_nil | done].
  - destruct (_ && _) eqn:E.
    + apply same_position in E as <-. split; [done|].
      intros Hnot. exfalso. apply Hnot. left.
    + rewrite IH, not_elem_of_cons. split; [|tauto].
      intros Hnot. split; [|done]. intros Heq.
      symmetry in Heq. apply same_position in Heq. congruence.
Qed.

(** ** Selection of the next node *)

Lemma select_from_spec (h : list Node) (l : list ptr) (i : nat)
    (b : nat * ptr) (j : nat) (p : ptr) :
  select_from h l i b = (j, p) ->
  ((j, p) = b /\
   forall q, q ∈ l -> GetTotalCost (deref h (snd b)) < GetTotalCost (deref h q))
  \/
  (exists k, j = (i + k)%nat /\ l !! k = Some p /\
     GetTotalCost (deref h p) <= GetTotalCost (deref h (snd b)) /\
     (forall k' q, l !! k' = Some q ->
        GetTotalCost (deref h p) <= GetTotalCost (deref h q)) /\
     (forall k' q, l !! k' = Some q -> (k < k')%nat ->
        GetTotalCost (deref h p) < GetTotalCost (deref h q))).
Proof.
  revert i b. induction l as [|p0 l IH]; intros i b; simpl.
  - intros ->. left. split; [done|]. intros q Hq. by apply elem_of_nil in Hq.
  - intros Hsel. apply IH in Hsel.
    destruct (Z.leb_spec (GetTotalCost (deref h p0))
                (GetTotalCost (deref h (snd b)))) as [Hle|Hgt].
    + destruct Hsel as [[Heq Hall]|(k & -> & Hk & Hpb & Hmin & Hlast)].
      * injection Heq as -> ->. simpl in Hall. right. exists 0%nat.
        split; [lia|]. split; [done|]. split; [done|]. split.
        -- intros [|k'] q Hq; simpl in Hq.
           ++ injection Hq as <-. lia.
           ++ apply list_elem_of_lookup_2, Hall in Hq. lia.
        -- intros [|k'] q Hq Hlt; [lia|]. simpl in Hq.
           by apply list_elem_of_lookup_2, Hall in Hq.
      * simpl in Hpb. right. exists (S k). split; [lia|]. split; [done|].
        split; [lia|]. split.
        -- intros [|k'] q Hq; simpl in Hq.
           ++ injection Hq as <-. lia.
           ++ by eapply Hmin.
        -- intros [|k'] q Hq Hlt; [lia|]. simpl in Hq.
           eapply Hlast; [done|lia].
    + destruct Hsel as [[Heq Hall]|(k & -> & Hk & Hpb & Hmin & Hlast)].
      * left. split; [done|]. intros q [->|Hq]%elem_of_cons; [lia|by apply Hall].
      * right. exists (S k). split; [lia|]. split; [done|].
        split; [lia|]. split.
        -- intros [|k'] q Hq; simpl in Hq.
           ++ injection Hq as <-. lia.
           ++ by eapply Hmin.
        -- intros [|k'] q Hq Hlt; [lia|]. simpl in Hq.
           eapply Hlast; [done|lia].
Qed.

Lemma select_lowest_spec (pf : PathFinder) (i : nat) (p : ptr) :
  select_lowest pf = Some (i, p) ->
  m_OpenList pf !! i = Some p /\
  (forall j q, m_OpenList pf !! j = Some q ->
     GetTotalCost (deref (nodes pf) p) <= GetTotalCost (deref (nodes pf) q)) /\
  (forall j q, m_OpenList pf !! j = Some q -> (i < j)%nat ->
     GetTotalCost (deref (nodes pf) p) < GetTotalCost (deref (nodes pf) q)).
Proof.
  unfold select_lowest. destruct (m_OpenList pf) as [|p0 l] eqn:El; [done|].
  intros [= Hsel].
  apply (select_from_spec _ (p0 :: l) 0 (0%nat, p0)) in Hsel.
  destruct Hsel as [[_ Hall]|(k & -> & Hk & _ & Hmin & Hlast)].
  - specialize (Hall p0 (list_elem_of_here _ _)). simpl in Hall. lia.
  - done.
Qed.

Lemma select_lowest_None (pf : PathFinder) :
  select_lowest pf = None <-> m_OpenList pf = [].
Proof. unfold select_lowest. by destruct (m_OpenList pf). Qed.

Lemma select_lowest_is_Some (pf : PathFinder) :
  m_OpenList pf <> [] -> is_Some (select_lowest pf).
Proof. unfold select_lowest. by destruct (m_OpenList pf). Qed.

(** ** Preservation of the invariant *)

Lemma wrap32_uint32 (z : Z) : uint32 (wrap32 z).
Proof. unfold uint32, wrap32. apply Z.mod_pos_bound. lia. Qed.

Lemma wrap16_int16 (z : Z) : int16 (wrap16 z).
Proof.
  unfold int16, wrap16.
  pose proof (Z.mod_pos_bound (z + 32768) 65536). lia.
Qed.

Lemma wrap16_id (z : Z) : int16 z -> wrap16 z = z.
Proof. unfold int16, wrap16. intros Hz. rewrite Z.mod_small; lia. Qed.

Lemma wrap32_id (z : Z) : uint32 z -> wrap32 z = z.
Proof. unfold uint32, wrap32. intros Hz. rewrite Z.mod_small; lia. Qed.

Lemma CheckValidTile_true_in_bounds (g : GridArray) (p : Position) (b : bool) :
  CheckValidTile g p = Some b -> in_bounds g p.
Proof.
  unfold CheckValidTile, in_bounds. destruct (grid_at g p); [eauto|done].
Qed.

Lemma nodup_fmap_disjoint {A B : Type} (f : A -> B) (l k : list A) (x : A) :
  NoDup (f <$> (l ++ k)) -> x ∈ l -> x ∉ k.
Proof.
  rewrite fmap_app, NoDup_app. intros (_ & Hdis & _) Hl Hk.
  apply (Hdis (f x)); by apply list_elem_of_fmap_2.
Qed.

(** ** The cells of a grid *)

Lemma length_cells_from (g : GridArray) (y : nat) :
  length (cells_from y g) = cells g.
Proof.
  revert y. induction g as [|row g IH]; intros y; simpl; [done|].
  rewrite length_app, IH. unfold row_cells.
  by rewrite length_fmap, length_seq.
Qed.

Lemma length_all_cells (g : GridArray) : length (all_cells g) = cells g.
Proof. apply length_cells_from. Qed.

Lemma cells_from_lookup (g : GridArray) (y i j : nat) (row : list ascii)
    (c : ascii) :
  g !! i = Some row -> row !! j = Some c ->
  mkPosition (Z.of_nat j) (Z.of_nat (y + i)) ∈ cells_from y g.
Proof.
  revert y i. induction g as [|r g IH]; intros y i Hi Hj; [done|].
  simpl. apply elem_of_app. destruct i as [|i]; simpl in Hi.
  - left. injection Hi as ->. rewrite Nat.add_0_r. unfold row_cells.
    apply (list_elem_of_fmap_2
             (fun x => mkPosition (Z.of_nat x) (Z.of_nat y))).
    apply elem_of_seq. apply lookup_lt_Some in Hj. lia.
  - right. replace (y + S i)%nat with (S y + i)%nat by lia. by apply IH.
Qed.

Lemma grid_at_Some (g : GridArray) (p : Position) (c : ascii) :
  grid_at g p = Some c ->
  0 <= X p /\ 0 <= Y p /\
  exists row, g !! Z.to_nat (Y p) = Some row /\ row !! Z.to_nat (X p) = Some c.
Proof.
  unfold grid_at. destruct (_ && _) eqn:E; [|done].
  apply andb_true_iff in E as [Hy Hx]. apply Z.leb_le in Hy, Hx.
  destruct (g !! Z.to_nat (Y p)) as [row|] eqn:Hrow; [|done]. simpl.
  intros Hc. eauto.
Qed.

Lemma in_bounds_all_cells (g : GridArray) (p : Position) :
  in_bounds g p -> p ∈ all_cells g.
Proof.
  intros [c Hc]. apply grid_at_Some in Hc as (Hx & Hy & row & Hrow & Hcol).
  pose proof (cells_from_lookup g 0 _ _ row c Hrow Hcol) as Hin.
  rewrite Nat.add_0_l, !Z2Nat.id in Hin by done. by destruct p.
Qed.

(** In an enclosed grid a cell that passes [CheckValidTile] has all its
    neighbours in range. *)
Lemma enclosed_valid_safe (g : GridArray) (p : Position) :
  enclosed g = true -> CheckValidTile g p = Some true ->
  safe_pos g p = true.
Proof.
  intros Henc Hv. unfold enclosed in Henc. rewrite forallb_forall in Henc.
  assert (Hin : p ∈ all_cells g).
  { apply in_bounds_all_cells. by eapply CheckValidTile_true_in_bounds. }
  apply list_elem_of_In, Henc in Hin.
  unfold CheckValidTile in Hv. destruct (grid_at g p) as [c|]; [|done].
  simpl in Hv. by destruct (Ascii.eqb c "X").
Qed.

Section Preservation.

Variable m_Grid : GridArray.
Variables p_StartX p_StartY p_EndX p_EndY : Z.

Abbreviation inv := (inv m_Grid p_StartX p_StartY).
Abbreviation start_pos := (start_pos p_StartX p_StartY).

Lemma inv_seeded : inv (seeded p_StartX p_StartY PathFinder_new).
Proof.
  split; unfold kept; simpl.
  - intros p Hp. apply list_elem_of_singleton in Hp as ->. lia.
  - apply NoDup_singleton.
  - intros p Hp. apply list_elem_of_singleton in Hp as ->. by left.
  - intros p Hp. apply list_elem_of_singleton in Hp as ->.
    unfold uint32; simpl; lia.
  - intros p Hp _. by apply list_elem_of_singleton in Hp as ->.
  - intros i c q Hc. done.
  - intros o q Ho. by apply list_elem_of_singleton in Ho as ->.
  - intros p q Hp. by apply list_elem_of_singleton in Hp as ->.
Qed.

Lemma kept_close_current (pf : PathFinder) (i : nat) (p : ptr) :
  m_OpenList pf !! i = Some p ->
  kept (close_current i p pf) ≡ₚ kept pf.
Proof.
  intros Hi. unfold kept; simpl.
  rewrite (delete_Permutation (m_OpenList pf) i p Hi) at 2.
  rewrite (Permutation_app_comm (m_ClosedList pf) [p]). simpl.
  by rewrite Permutation_middle.
Qed.

Lemma inv_close_current (pf : PathFinder) (i : nat) (p : ptr) :
  inv pf -> m_OpenList pf !! i = Some p -> inv (close_current i p pf).
Proof.
  intros [Hv Hnd Hc Hg Hr Hcp Hop Hl] Hi.
  pose proof (kept_close_current pf i p Hi) as Hperm.
  assert (Hin : forall x, x ∈ kept (close_current i p pf) -> x ∈ kept pf).
  { intros x Hx. by rewrite <- Hperm. }
  split; simpl; eauto.
  - change (nodes pf) with (nodes (close_current i p pf)).
    simpl. by rewrite Hperm.
  - intros i0 c q Hc0 Hpar.
    apply lookup_app_Some in Hc0 as [Hc0|[Hlen Hc0]].
    + destruct (Hcp i0 c q Hc0 Hpar) as (j & Hj & Hq).
      exists j. split; [done|]. apply lookup_app_l_Some. done.
    + apply list_lookup_singleton_Some in Hc0 as [Hz <-].
      assert (Hpo : p ∈ m_OpenList pf) by by eapply list_elem_of_lookup_2.
      specialize (Hop p q Hpo Hpar).
      apply list_elem_of_lookup_1 in Hop as [j Hj].
      exists j. split.
      * apply lookup_lt_Some in Hj. lia.
      * by apply lookup_app_l_Some.
  - intros o q Ho Hpar. apply elem_of_app. left.
    apply (Hop o q); [|done].
    by eapply list_elem_of_delete_inv.
Qed.

(** The three things one turn of the direction loop can do to the state:
    nothing, an update of an open node in place, or a new open node. *)
Lemma expand_dir_Ok (k : nat) (d : Position) (cur : ptr)
    (pf pf' : PathFinder) :
  expand_dir m_Grid p_EndX p_EndY k d cur pf = Ok pf' ->
  let c := deref (nodes pf) cur in
  let fp := neighbour (node_pos c) d in
  let g := wrap32 (GetGCost c + step_cost k) in
  pf' = pf
  \/ (exists q,
        DoesNodeExist (nodes pf) (m_OpenList pf) fp = Some q /\
        DoesNodeExist (nodes pf) (m_ClosedList pf) fp = None /\
        g < GetGCost c /\
        pf' = update_node q g cur pf)
  \/ (CheckValidTile m_Grid fp = Some true /\
      DoesNodeExist (nodes pf) (m_ClosedList pf) fp = None /\
      DoesNodeExist (nodes pf) (m_OpenList pf) fp = None /\
      pf' = push_open_new
              (SetHCost (CalculateHeuristic p_EndX p_EndY c)
                 (SetGCost g (Node_new (X fp) (Y fp) (Some cur)))) pf).
Proof.
  unfold expand_dir. cbv zeta.
  change (mkPosition (wrap16 (GetPositionX (deref (nodes pf) cur) + X d))
            (wrap16 (GetPositionY (deref (nodes pf) cur) + Y d)))
    with (neighbour (node_pos (deref (nodes pf) cur)) d).
  set (fp := neighbour _ d).
  destruct (CheckValidTile m_Grid fp) as [[|]|] eqn:Hv; [|by intros [= <-]; left|done].
  destruct (DoesNodeExist (nodes pf) (m_ClosedList pf) fp) eqn:Hc;
    [by intros [= <-]; left|].
  destruct (DoesNodeExist (nodes pf) (m_OpenList pf) fp) as [q|] eqn:Ho.
  - destruct (_ <? _) eqn:Hlt; intros [= <-]; [|by left].
    apply Z.ltb_lt in Hlt. right; left. exists q. done.
  - intros [= <-]. right; right. done.
Qed.

Lemma inv_update_node (pf : PathFinder) (q cur : ptr) (d : Position) (g : Z) :
  inv pf -> q ∈ m_OpenList pf -> cur ∈ m_ClosedList pf ->
  d ∈ m_Directions ->
  pos_of (nodes pf) q = neighbour (pos_of (nodes pf) cur) d ->
  inv (update_node q (wrap32 g) cur pf).
Proof.
  intros [Hv Hnd Hc Hg Hr Hcp Hop Hl] Hq Hcur Hd Hpos.
  assert (Hqk : q ∈ kept pf) by (apply elem_of_app; by left).
  assert (Hqv : (q < length (nodes pf))%nat) by by apply Hv.
  assert (Hqc : q ∉ m_ClosedList pf) by by eapply nodup_fmap_disjoint.
  set (n' := SetParentNode (Some cur) (SetGCost (wrap32 g) (deref (nodes pf) q))).
  assert (Hpos' : forall p, pos_of (<[q := n']> (nodes pf)) p = pos_of (nodes pf) p).
  { intros p. by apply pos_of_update. }
  split; unfold kept, update_node in *; simpl; fold n'.
  - intros p Hp. rewrite length_insert. by apply Hv.
  - erewrite pos_of_fmap_ext; [done|]. intros p _. apply Hpos'.
  - intros p Hp. rewrite Hpos'. by apply Hc.
  - intros p Hp. destruct (decide (q = p)) as [<-|Hne].
    + rewrite deref_insert_eq by done. apply wrap32_uint32.
    + rewrite deref_insert_ne by done. by apply Hg.
  - intros p Hp. rewrite Hpos'. destruct (decide (q = p)) as [<-|Hne].
    + by rewrite deref_insert_eq.
    + rewrite deref_insert_ne by done. by apply Hr.
  - intros i c q0 Hi. rewrite deref_insert_ne.
    + by apply Hcp.
    + intros ->. apply Hqc. by eapply list_elem_of_lookup_2.
  - intros o q0 Ho. destruct (decide (q = o)) as [<-|Hne].
    + rewrite deref_insert_eq by done. simpl. by intros [= <-].
    + rewrite deref_insert_ne by done. by apply Hop.
  - intros p q0 Hp. rewrite !Hpos'. destruct (decide (q = p)) as [<-|Hne].
    + rewrite deref_insert_eq by done. simpl. intros [= <-]. eauto.
    + rewrite deref_insert_ne by done. by apply Hl.
Qed.

Lemma inv_push_open_new (pf : PathFinder) (cur : ptr) (d : Position)
    (g h : Z) :
  let fp := neighbour (pos_of (nodes pf) cur) d in
  inv pf -> cur ∈ m_ClosedList pf -> d ∈ m_Directions ->
  in_bounds m_Grid fp ->
  fp ∉ pos_of (nodes pf) <$> kept pf ->
  inv (push_open_new
         (SetHCost h (SetGCost (wrap32 g) (Node_new (X fp) (Y fp) (Some cur))))
         pf).
Proof.
  intros fp [Hv Hnd Hc Hg Hr Hcp Hop Hl] Hcur Hd Hin Hfresh.
  set (n := SetHCost h _).
  assert (Hn : node_pos n = fp) by by destruct fp.
  assert (Hold : forall p, p ∈ kept pf ->
            deref (nodes pf ++ [n]) p = deref (nodes pf) p).
  { intros p Hp. apply deref_app_l. by apply Hv. }
  assert (Hcurk : cur ∈ kept pf) by (apply elem_of_app; by right).
  assert (Hkept : forall p, p ∈ kept (push_open_new n pf) ->
            p = length (nodes pf) \/ p ∈ kept pf).
  { intros p. unfold kept; simpl. rewrite !elem_of_app, list_elem_of_singleton.
    tauto. }
  assert (Hposold : forall p, p ∈ kept pf ->
            pos_of (nodes pf ++ [n]) p = pos_of (nodes pf) p).
  { intros p Hp. unfold pos_of. by rewrite Hold. }
  assert (Hposnew : pos_of (nodes pf ++ [n]) (length (nodes pf)) = fp).
  { unfold pos_of. by rewrite deref_app_new. }
  split; simpl.
  - intros p [->|Hp]%Hkept; rewrite length_app; simpl; [lia|].
    specialize (Hv p Hp). lia.
  - unfold kept; simpl. rewrite <- app_assoc. simpl.
    rewrite fmap_app, fmap_cons, <- Permutation_middle, <- fmap_app.
    rewrite Hposnew. apply NoDup_cons. split.
    + erewrite pos_of_fmap_ext; [apply Hfresh|]. intros p Hp. by apply Hposold.
    + erewrite pos_of_fmap_ext; [apply Hnd|]. intros p Hp. by apply Hposold.
  - intros p [->|Hp]%Hkept.
    + rewrite Hposnew. by right.
    + rewrite Hposold by done. by apply Hc.
  - intros p [->|Hp]%Hkept.
    + rewrite deref_app_new. apply wrap32_uint32.
    + rewrite Hold by done. by apply Hg.
  - intros p [->|Hp]%Hkept.
    + by rewrite deref_app_new.
    + rewrite Hold, Hposold by done. by apply Hr.
  - intros i c q Hi. rewrite Hold.
    + by apply Hcp.
    + apply elem_of_app. right. by eapply list_elem_of_lookup_2.
  - intros o q [Ho|Ho]%elem_of_app.
    + rewrite Hold by (apply elem_of_app; by left). by apply Hop.
    + apply list_elem_of_singleton in Ho as ->. rewrite deref_app_new.
      simpl. by intros [= <-].
  - intros p q [->|Hp]%Hkept.
    + rewrite deref_app_new, Hposnew. simpl. intros [= <-].
      exists d. split; [done|]. by rewrite Hposold.
    + rewrite Hold by done. intros Hpar.
      destruct (Hl p q Hp Hpar) as (d' & Hd' & Heq).
      exists d'. split; [done|]. rewrite Hposold by done.
      rewrite Heq. f_equal. symmetry. apply Hposold.
      apply elem_of_app in Hp as [Hp|Hp].
      * apply elem_of_app. right. by eapply Hop.
      * apply list_elem_of_lookup_1 in Hp as [i Hi].
        destruct (Hcp i p q Hi Hpar) as (j & _ & Hj).
        apply elem_of_app. right. by eapply list_elem_of_lookup_2.
Qed.

Lemma expand_dir_frame (k : nat) (d : Position) (cur : ptr)
    (pf pf' : PathFinder) :
  expand_dir m_Grid p_EndX p_EndY k d cur pf = Ok pf' ->
  m_ClosedList pf' = m_ClosedList pf /\ m_Current pf' = m_Current pf /\
  (length (m_OpenList pf) <= length (m_OpenList pf'))%nat /\
  (length (nodes pf) <= length (nodes pf'))%nat.
Proof.
  intros Hex. apply expand_dir_Ok in Hex.
  destruct Hex as [->|[(q & _ & _ & _ & ->)|(_ & _ & _ & ->)]]; simpl.
  - done.
  - rewrite length_insert. done.
  - rewrite !length_app. simpl. repeat split; lia.
Qed.

Lemma inv_expand_dir (k : nat) (d : Position) (cur : ptr)
    (pf pf' : PathFinder) :
  inv pf -> cur ∈ m_ClosedList pf -> d ∈ m_Directions ->
  expand_dir m_Grid p_EndX p_EndY k d cur pf = Ok pf' ->
  inv pf'.
Proof.
  intros Hinv Hcur Hd Hex. apply expand_dir_Ok in Hex.
  destruct Hex as [->|[(q & Ho & _ & _ & ->)|(Hv & Hc & Ho & ->)]].
  - done.
  - apply DoesNodeExist_Some in Ho as [Hq Hpos].
    by eapply inv_update_node.
  - apply (inv_push_open_new pf cur d); try done.
    + by eapply CheckValidTile_true_in_bounds.
    + unfold kept. rewrite fmap_app, elem_of_app.
      apply DoesNodeExist_None in Hc, Ho. tauto.
Qed.

Lemma all_safe_push (pf : PathFinder) (n : Node) :
  inv pf -> all_safe m_Grid pf -> safe_pos m_Grid (node_pos n) = true ->
  all_safe m_Grid (push_open_new n pf).
Proof.
  intros Hinv Hsafe Hn p. unfold kept; simpl.
  rewrite <- app_assoc, elem_of_app. simpl. rewrite elem_of_cons.
  intros [Hp|[->|Hp]].
  - rewrite pos_of_app_l.
    + apply Hsafe. apply elem_of_app. by left.
    + apply (inv_valid _ _ _ _ Hinv). apply elem_of_app. by left.
  - unfold pos_of. by rewrite deref_app_new.
  - rewrite pos_of_app_l.
    + apply Hsafe. apply elem_of_app. by right.
    + apply (inv_valid _ _ _ _ Hinv). apply elem_of_app. by right.
Qed.

Lemma all_safe_expand_dir (k : nat) (d : Position) (cur : ptr)
    (pf pf' : PathFinder) :
  enclosed m_Grid = true ->
  inv pf -> all_safe m_Grid pf ->
  expand_dir m_Grid p_EndX p_EndY k d cur pf = Ok pf' ->
  all_safe m_Grid pf'.
Proof.
  intros Henc Hinv Hsafe Hex. apply expand_dir_Ok in Hex.
  destruct Hex as [->|[(q & Ho & _ & _ & ->)|(Hv & Hc & Ho & ->)]].
  - done.
  - intros p Hp. unfold update_node; simpl.
    rewrite pos_of_update; [by apply Hsafe|].
    apply DoesNodeExist_Some in Ho as [Hq _].
    apply (inv_valid _ _ _ _ Hinv). apply elem_of_app. by left.
  - apply all_safe_push; try done.
    set (fp := neighbour _ d) in *.
    assert (Hn : node_pos (SetHCost
               (CalculateHeuristic p_EndX p_EndY (deref (nodes pf) cur))
               (SetGCost (wrap32 (GetGCost (deref (nodes pf) cur) + step_cost k))
                  (Node_new (X fp) (Y fp) (Some cur)))) = fp) by by destruct fp.
    rewrite Hn. by apply enclosed_valid_safe.
Qed.

(** With every kept node safe, a turn of the direction loop reads the
    grid in range. *)
Lemma expand_dir_no_fault (k : nat) (d : Position) (cur : ptr)
    (pf : PathFinder) :
  all_safe m_Grid pf -> cur ∈ m_ClosedList pf -> d ∈ m_Directions ->
  exists pf', expand_dir m_Grid p_EndX p_EndY k d cur pf = Ok pf'.
Proof.
  intros Hsafe Hcur Hd.
  assert (Hs : safe_pos m_Grid (pos_of (nodes pf) cur) = true).
  { apply Hsafe. apply elem_of_app. by right. }
  unfold safe_pos in Hs. rewrite forallb_forall in Hs.
  apply list_elem_of_In, Hs, bool_decide_eq_true in Hd as [c Hc].
  unfold expand_dir. cbv zeta.
  change (mkPosition (wrap16 (GetPositionX (deref (nodes pf) cur) + X d))
            (wrap16 (GetPositionY (deref (nodes pf) cur) + Y d)))
    with (neighbour (pos_of (nodes pf) cur) d).
  unfold CheckValidTile. rewrite Hc. simpl.
  destruct (Ascii.eqb c "X"); [eauto|].
  destruct (DoesNodeExist _ (m_ClosedList pf) _); [eauto|].
  destruct (DoesNodeExist _ (m_OpenList pf) _); [|eauto].
  destruct (_ <? _); eauto.
Qed.

(** ** The invariant along the transition system *)

Abbreviation step := (step m_Grid p_EndX p_EndY).
Abbreviation config_inv := (config_inv m_Grid p_StartX p_StartY p_EndX p_EndY).
Abbreviation reachable :=
  (reachable m_Grid p_StartX p_StartY p_EndX p_EndY).

Lemma inv_set_current (pf : PathFinder) (p : ptr) :
  inv pf -> inv (set_current p pf).
Proof. intros []. by split. Qed.

Lemma config_inv_initial : config_inv (initial p_StartX p_StartY).
Proof.
  split; [apply inv_seeded|]. left. simpl. done.
Qed.

Lemma config_inv_step (c c' : config) :
  config_inv c -> step c c' -> config_inv c'.
Proof.
  destruct c as [l pf]. intros [Hinv Hpc]. unfold step, micro_step; simpl.
  simpl in Hinv. destruct l as [|k|e|q]; [| |done|done];
    unfold inv_pc, current_closed in Hpc; simpl in Hpc.
  - destruct (select_lowest pf) as [[i p]|] eqn:Hsel.
    + apply select_lowest_spec in Hsel as (Hi & _).
      destruct (at_end _ _ _) eqn:Hend; intros [= <-].
      * split; [by apply inv_set_current|]. exists p.
        split; [done|]. split; [|done]. by eapply list_elem_of_lookup_2.
      * split; [by apply inv_close_current|]. exists p.
        split; [done|]. simpl. apply last_snoc.
    + intros [= <-]. apply select_lowest_None in Hsel.
      split; [done|]. split; [done|]. by destruct Hpc.
  - destruct (m_Directions !! k) as [d|] eqn:Hd.
    + destruct Hpc as (cur & Hcur & Hlast). rewrite Hcur.
      pose proof (last_Some_elem_of _ _ Hlast) as Hin.
      destruct (expand_dir _ _ _ _ _ _ _) as [pf'|q] eqn:Hex; intros [= <-].
      * split.
        -- eapply inv_expand_dir; [done|done| |done].
           by eapply list_elem_of_lookup_2.
        -- apply expand_dir_frame in Hex as (Hc & Hm & _).
           exists cur. simpl. by rewrite Hc, Hm.
      * split; [done|]. by exists cur.
    + intros [= <-]. split; [done|]. by right.
Qed.

Lemma reachable_inv (c : config) : reachable c -> config_inv c.
Proof.
  revert c. apply rtc_ind_r.
  - apply config_inv_initial.
  - intros c c' _ Hstep IH. by eapply config_inv_step.
Qed.

(** ** Big steps and small steps agree *)

Lemma step_exhausted (pf : PathFinder) :
  select_lowest pf = None -> step (LoopHead, pf) (Exited OpenExhausted, pf).
Proof. intros Hsel. unfold step, micro_step; simpl. by rewrite Hsel. Qed.

Lemma step_goal (pf : PathFinder) (i : nat) (p : ptr) :
  select_lowest pf = Some (i, p) ->
  at_end p_EndX p_EndY (deref (nodes pf) p) = true ->
  step (LoopHead, pf) (Exited GoalReached, set_current p pf).
Proof.
  intros Hsel Hend. unfold step, micro_step; simpl. by rewrite Hsel, Hend.
Qed.

Lemma step_close (pf : PathFinder) (i : nat) (p : ptr) :
  select_lowest pf = Some (i, p) ->
  at_end p_EndX p_EndY (deref (nodes pf) p) = false ->
  step (LoopHead, pf) (Dirs 0, close_current i p pf).
Proof.
  intros Hsel Hend. unfold step, micro_step; simpl. by rewrite Hsel, Hend.
Qed.

Lemma step_dir (pf pf' : PathFinder) (k : nat) (d : Position) (cur : ptr) :
  m_Directions !! k = Some d -> m_Current pf = Some cur ->
  expand_dir m_Grid p_EndX p_EndY k d cur pf = Ok pf' ->
  step (Dirs k, pf) (Dirs (S k), pf').
Proof.
  intros Hk Hcur Hex. unfold step, micro_step; simpl.
  rewrite Hk, Hcur. simpl. by rewrite Hex.
Qed.

Lemma step_dir_fault (pf : PathFinder) (k : nat) (d q : Position) (cur : ptr) :
  m_Directions !! k = Some d -> m_Current pf = Some cur ->
  expand_dir m_Grid p_EndX p_EndY k d cur pf = OutOfRange q ->
  step (Dirs k, pf) (Faulted q, pf).
Proof.
  intros Hk Hcur Hex. unfold step, micro_step; simpl.
  rewrite Hk, Hcur. simpl. by rewrite Hex.
Qed.

Lemma step_dirs_done (pf : PathFinder) (k : nat) :
  m_Directions !! k = None -> step (Dirs k, pf) (LoopHead, pf).
Proof. intros Hk. unfold step, micro_step; simpl. by rewrite Hk. Qed.

Lemma micro_steps_rtc (n : nat) (c c' : config) :
  micro_steps m_Grid p_EndX p_EndY n c = Some c' -> rtc step c c'.
Proof.
  revert c. induction n as [|n IH]; intros c; simpl.
  - by intros [= <-].
  - destruct (micro_step _ _ _ c) as [c1|] eqn:Hs; [|done]. simpl.
    intros Hn. eapply rtc_l; [exact Hs|by apply IH].
Qed.

Lemma expand_from_steps (ds : list Position) (k : nat) (cur : ptr)
    (pf pf' : PathFinder) :
  drop k m_Directions = ds -> m_Current pf = Some cur ->
  expand_from m_Grid p_EndX p_EndY k ds cur pf = Ok pf' ->
  rtc step (Dirs k, pf) (LoopHead, pf').
Proof.
  revert k pf. induction ds as [|d ds IH]; intros k pf Hdrop Hcur; simpl.
  - intros [= <-]. apply rtc_once, step_dirs_done.
    apply lookup_ge_None. apply (f_equal length) in Hdrop.
    rewrite length_drop in Hdrop. simpl in *. lia.
  - destruct (expand_dir _ _ _ _ _ _ _) as [pf1|q] eqn:Hex; [|done].
    intros Hrest.
    assert (Hk : m_Directions !! k = Some d).
    { rewrite <- (Nat.add_0_r k), <- lookup_drop, Hdrop. done. }
    eapply rtc_l.
    + by eapply step_dir.
    + apply (IH (S k)); [| |done].
      * replace (S k) with (k + 1)%nat by lia.
        rewrite <- (drop_drop _ 1 k), Hdrop. done.
      * apply expand_dir_frame in Hex as (_ & -> & _). done.
Qed.

Lemma expand_from_fault (ds : list Position) (k : nat) (cur : ptr)
    (pf : PathFinder) (q : Position) :
  drop k m_Directions = ds -> m_Current pf = Some cur ->
  expand_from m_Grid p_EndX p_EndY k ds cur pf = OutOfRange q ->
  exists pf', rtc step (Dirs k, pf) (Faulted q, pf').
Proof.
  revert k pf. induction ds as [|d ds IH]; intros k pf Hdrop Hcur; simpl;
    [done|].
  assert (Hk : m_Directions !! k = Some d).
  { rewrite <- (Nat.add_0_r k), <- lookup_drop, Hdrop. done. }
  destruct (expand_dir _ _ _ _ _ _ _) as [pf1|q1] eqn:Hex.
  - intros Hrest. destruct (IH (S k) pf1) as [pf' Hsteps]; [| |done|].
    + replace (S k) with (k + 1)%nat by lia.
        rewrite <- (drop_drop _ 1 k), Hdrop. done.
    + apply expand_dir_frame in Hex as (_ & -> & _). done.
    + exists pf'. eapply rtc_l; [|exact Hsteps]. by eapply step_dir.
  - intros [= <-]. exists pf. apply rtc_once. by eapply step_dir_fault.
Qed.

Lemma search_loop_steps (fuel : nat) (pf pf' : PathFinder) (e : loop_exit) :
  search_loop m_Grid p_EndX p_EndY fuel pf = Some (Ok (e, pf')) ->
  rtc step (LoopHead, pf) (Exited e, pf').
Proof.
  revert pf. induction fuel as [|fuel IH]; intros pf; cbn [search_loop];
    [done|].
  destruct (select_lowest pf) as [[i p]|] eqn:Hsel.
  - destruct (at_end _ _ _) eqn:Hend.
    + intros [= <- <-]. apply rtc_once. by eapply step_goal.
    + destruct (expand_from _ _ _ _ _ _ _) as [pf1|q] eqn:Hex; [|done].
      intros Hloop. eapply rtc_l.
      * by eapply step_close.
      * etrans; [|by apply IH].
        by eapply (expand_from_steps m_Directions 0).
  - intros [= <- <-]. by apply rtc_once, step_exhausted.
Qed.

Lemma search_loop_fault (fuel : nat) (pf : PathFinder) (q : Position) :
  search_loop m_Grid p_EndX p_EndY fuel pf = Some (OutOfRange q) ->
  exists pf', rtc step (LoopHead, pf) (Faulted q, pf').
Proof.
  revert pf. induction fuel as [|fuel IH]; intros pf; cbn [search_loop];
    [done|].
  destruct (select_lowest pf) as [[i p]|] eqn:Hsel; [|done].
  destruct (at_end _ _ _) eqn:Hend; [done|].
  assert (Hfirst : step (LoopHead, pf) (Dirs 0, close_current i p pf))
    by by eapply step_close.
  destruct (expand_from _ _ _ _ _ _ _) as [pf1|q1] eqn:Hex.
  - intros Hloop. destruct (IH _ Hloop) as [pf' Hsteps].
    exists pf'. eapply rtc_l; [exact Hfirst|]. etrans; [|exact Hsteps].
    by eapply (expand_from_steps m_Directions 0).
  - intros [= <-].
    destruct (expand_from_fault m_Directions 0 p (close_current i p pf) q1)
      as [pf' Hsteps]; try done.
    exists pf'. by eapply rtc_l.
Qed.

Lemma config_inv_rtc (c c' : config) :
  config_inv c -> rtc step c c' -> config_inv c'.
Proof.
  intros Hc Hsteps. induction Hsteps as [|c c1 c2 Hstep _ IH]; [done|].
  apply IH. by eapply config_inv_step.
Qed.

Lemma expand_from_frame (ds : list Position) (k : nat) (cur : ptr)
    (pf pf' : PathFinder) :
  expand_from m_Grid p_EndX p_EndY k ds cur pf = Ok pf' ->
  m_ClosedList pf' = m_ClosedList pf /\ m_Current pf' = m_Current pf.
Proof.
  revert k pf. induction ds as [|d ds IH]; intros k pf; simpl.
  - by intros [= <-].
  - destruct (expand_dir _ _ _ _ _ _ _) as [pf1|q] eqn:Hex; [|done].
    intros Hrest. apply IH in Hrest as [-> ->].
    apply expand_dir_frame in Hex as (-> & -> & _). done.
Qed.

(** ** Termination of the search loop *)

(** Kept nodes sit on pairwise different cells of the grid, so there are
    at most as many as the grid has cells. *)
Lemma kept_bound (pf : PathFinder) :
  inv pf -> in_bounds m_Grid start_pos ->
  (length (kept pf) <= cells m_Grid)%nat.
Proof.
  intros Hinv Hstart.
  rewrite <- (length_fmap (pos_of (nodes pf))), <- length_all_cells.
  apply submseteq_length, NoDup_submseteq; [by destruct Hinv|].
  intros x (p & -> & Hp)%list_elem_of_fmap_1.
  apply in_bounds_all_cells.
  destruct (inv_cells _ _ _ _ Hinv p Hp) as [->|Hin]; done.
Qed.

Lemma search_loop_enough (fuel : nat) (pf : PathFinder) :
  config_inv (LoopHead, pf) -> in_bounds m_Grid start_pos ->
  (cells m_Grid < fuel + length (m_ClosedList pf))%nat ->
  is_Some (search_loop m_Grid p_EndX p_EndY fuel pf).
Proof.
  revert pf. induction fuel as [|fuel IH]; intros pf Hc Hstart Hfuel.
  - exfalso. pose proof (kept_bound pf (proj1 Hc) Hstart) as Hb.
    unfold kept in Hb. rewrite length_app in Hb. lia.
  - cbn [search_loop].
    destruct (select_lowest pf) as [[i p]|] eqn:Hsel; [|eauto].
    destruct (at_end _ _ _) eqn:Hend; [eauto|].
    pose proof (step_close pf i p Hsel Hend) as Hstep.
    destruct (expand_from _ _ _ _ _ _ _) as [pf1|q] eqn:Hex; [|eauto].
    apply IH; [|done|].
    + eapply config_inv_rtc; [by eapply config_inv_step|].
      by eapply (expand_from_steps m_Directions 0).
    + apply expand_from_frame in Hex as [-> _]. simpl.
      rewrite length_app. simpl. lia.
Qed.

(** The number of completed iterations is the length of the closed list;
    it never exceeds the number of cells. *)
Lemma search_loop_closed_bound (fuel : nat) (pf pf' : PathFinder)
    (e : loop_exit) :
  config_inv (LoopHead, pf) -> in_bounds m_Grid start_pos ->
  search_loop m_Grid p_EndX p_EndY fuel pf = Some (Ok (e, pf')) ->
  (length (m_ClosedList pf') <= cells m_Grid)%nat.
Proof.
  intros Hc Hstart Hloop. apply search_loop_steps in Hloop.
  pose proof (config_inv_rtc _ _ Hc Hloop) as [Hinv _].
  pose proof (kept_bound pf' Hinv Hstart) as Hb.
  unfold kept in Hb. rewrite length_app in Hb. lia.
Qed.

Lemma expand_dir_OutOfRange (k : nat) (d q : Position) (cur : ptr)
    (pf : PathFinder) :
  expand_dir m_Grid p_EndX p_EndY k d cur pf = OutOfRange q ->
  q = neighbour (pos_of (nodes pf) cur) d /\ grid_at m_Grid q = None.
Proof.
  unfold expand_dir. cbv zeta.
  change (mkPosition (wrap16 (GetPositionX (deref (nodes pf) cur) + X d))
            (wrap16 (GetPositionY (deref (nodes pf) cur) + Y d)))
    with (neighbour (pos_of (nodes pf) cur) d).
  set (fp := neighbour _ d). unfold CheckValidTile.
  destruct (grid_at m_Grid fp) as [c|] eqn:Hg; simpl.
  - destruct (Ascii.eqb c "X"); [done|].
    destruct (DoesNodeExist _ (m_ClosedList pf) _); [done|].
    destruct (DoesNodeExist _ (m_OpenList pf) _); [|done].
    by destruct (_ <? _).
  - by intros [= <-].
Qed.

(** A transition into [Faulted q] is a grid access at [q], outside the
    grid, for a neighbour of the node being expanded. *)
Lemma step_faulted (c : config) (q : Position) (pf' : PathFinder) :
  step c (Faulted q, pf') ->
  grid_at m_Grid q = None /\
  exists cur d, m_Current (snd c) = Some cur /\ d ∈ m_Directions /\
    q = neighbour (pos_of (nodes (snd c)) cur) d.
Proof.
  destruct c as [l pf]. unfold step, micro_step; simpl.
  destruct l as [|k|e|q0]; [| |done|done].
  - destruct (select_lowest pf) as [[i p]|]; [|done].
    by destruct (at_end _ _ _).
  - destruct (m_Directions !! k) as [d|] eqn:Hk; [|done].
    destruct (m_Current pf) as [cur|]; [|done].
    destruct (expand_dir _ _ _ _ _ _ _) as [pf1|q1] eqn:Hex; [done|].
    intros [= -> ->]. apply expand_dir_OutOfRange in Hex as [-> Hg].
    split; [done|]. exists cur, d. split; [done|]. split; [|done].
    by eapply list_elem_of_lookup_2.
Qed.

Lemma search_loop_fault_outside (fuel : nat) (pf : PathFinder)
    (q : Position) :
  search_loop m_Grid p_EndX p_EndY fuel pf = Some (OutOfRange q) ->
  grid_at m_Grid q = None.
Proof.
  intros Hloop. apply search_loop_fault in Hloop as [pf' Hsteps].
  apply rtc_inv_r in Hsteps as [[=]|(c & _ & Hstep)].
  by apply step_faulted in Hstep as [Hg _].
Qed.

(** ** Enclosed grids: no access out of range *)

Lemma all_safe_seeded :
  safe_pos m_Grid start_pos = true ->
  all_safe m_Grid (seeded p_StartX p_StartY PathFinder_new).
Proof.
  intros Hs p Hp. unfold kept in Hp; simpl in Hp.
  by apply list_elem_of_singleton in Hp as ->.
Qed.

Lemma all_safe_close_current (pf : PathFinder) (i : nat) (p : ptr) :
  m_OpenList pf !! i = Some p ->
  all_safe m_Grid pf -> all_safe m_Grid (close_current i p pf).
Proof.
  intros Hi Hsafe x Hx. rewrite (kept_close_current pf i p Hi) in Hx.
  by apply Hsafe.
Qed.

Lemma all_safe_step (c c' : config) :
  enclosed m_Grid = true ->
  config_inv c -> all_safe m_Grid (snd c) -> step c c' ->
  all_safe m_Grid (snd c') /\ not_faulted c'.
Proof.
  intros Henc. destruct c as [l pf]. intros [Hinv Hpc] Hsafe.
  unfold step, micro_step; simpl. simpl in Hinv, Hsafe.
  destruct l as [|k|e|q]; [| |done|done];
    unfold inv_pc, current_closed in Hpc; simpl in Hpc.
  - destruct (select_lowest pf) as [[i p]|] eqn:Hsel.
    + apply select_lowest_spec in Hsel as (Hi & _).
      destruct (at_end _ _ _); intros [= <-]; simpl; split; try done.
      by apply all_safe_close_current.
    + by intros [= <-].
  - destruct (m_Directions !! k) as [d|] eqn:Hd; [|by intros [= <-]].
    destruct Hpc as (cur & Hcur & Hlast). rewrite Hcur.
    pose proof (last_Some_elem_of _ _ Hlast) as Hin.
    destruct (expand_dir_no_fault k d cur pf Hsafe Hin) as [pf' Hex].
    { by eapply list_elem_of_lookup_2. }
    rewrite Hex. intros [= <-]. split; [|done].
    by eapply all_safe_expand_dir.
Qed.

Lemma reachable_safe (c : config) :
  enclosed m_Grid = true -> safe_pos m_Grid start_pos = true ->
  reachable c -> all_safe m_Grid (snd c) /\ not_faulted c.
Proof.
  intros Henc Hstart. revert c. apply rtc_ind_r.
  - split; [by apply all_safe_seeded|done].
  - intros c c' Hreach Hstep [IH _].
    eapply all_safe_step; [done| |done|done].
    by apply reachable_inv.
Qed.

Lemma search_loop_no_fault (fuel : nat) (q : Position) :
  enclosed m_Grid = true -> safe_pos m_Grid start_pos = true ->
  search_loop m_Grid p_EndX p_EndY fuel (seeded p_StartX p_StartY PathFinder_new)
  <> Some (OutOfRange q).
Proof.
  intros Henc Hstart Hloop.
  apply search_loop_fault in Hloop as [pf' Hsteps].
  by destruct (reachable_safe (Faulted q, pf') Henc Hstart Hsteps) as [_ []].
Qed.

(** ** The closing walk up the parent links *)

Lemma walk_parents_mono (f f' : nat) (h : list Node) (cur : option ptr)
    (tr : list ptr) :
  walk_parents f h cur = Some tr -> (f <= f')%nat ->
  walk_parents f' h cur = Some tr.
Proof.
  revert f' cur tr. induction f as [|f IH]; intros f' cur tr.
  - destruct cur; [done|]. simpl. intros [= <-] _. by destruct f'.
  - destruct cur as [p|]; [|intros [= <-] _; by destruct f'].
    simpl. destruct (walk_parents f h _) as [tr'|] eqn:Hw; [|done].
    simpl. intros [= <-] Hle. destruct f' as [|f']; [lia|]. simpl.
    rewrite (IH f' _ tr' Hw) by lia. done.
Qed.

Lemma kept_le_nodes (pf : PathFinder) :
  inv pf -> (length (kept pf) <= length (nodes pf))%nat.
Proof.
  intros Hinv.
  rewrite <- (length_seq (length (nodes pf)) 0%nat).
  apply submseteq_length, NoDup_submseteq.
  - eapply NoDup_fmap_1. by destruct Hinv.
  - intros p Hp. apply elem_of_seq.
    pose proof (inv_valid _ _ _ _ Hinv p Hp). lia.
Qed.

Lemma walk_closed (pf : PathFinder) (i : nat) (c : ptr) :
  inv pf -> m_ClosedList pf !! i = Some c ->
  exists tr, walk_parents (S i) (nodes pf) (Some c) = Some tr /\
             walk_ok start_pos pf c tr.
Proof.
  intros Hinv. revert c.
  induction i as [i IH] using lt_wf_ind. intros c Hi.
  assert (Hck : c ∈ kept pf).
  { apply elem_of_app. right. by eapply list_elem_of_lookup_2. }
  simpl. destruct (GetParentNode (deref (nodes pf) c)) as [q|] eqn:Hpar.
  - destruct (inv_closed_parent _ _ _ _ Hinv i c q Hi Hpar) as (j & Hj & Hq).
    destruct (IH j Hj q Hq) as (tr & Hw & Hhd & Hlast & Hsteps).
    rewrite (walk_parents_mono (S j) i _ _ tr Hw) by lia. simpl.
    exists (c :: tr). split; [done|]. split; [done|].
    destruct tr as [|q' tr]; [done|]. injection Hhd as ->.
    split; [done|]. split; [|done].
    by apply (inv_link _ _ _ _ Hinv).
  - destruct i; simpl; (exists [c]; split; [done|]; split; [done|]);
      (split; [|done]); simpl; f_equal; by apply (inv_root _ _ _ _ Hinv).
Qed.

Lemma walk_open (pf : PathFinder) (o : ptr) :
  inv pf -> o ∈ m_OpenList pf ->
  exists tr, walk_parents (length (nodes pf)) (nodes pf) (Some o) = Some tr /\
             walk_ok start_pos pf o tr.
Proof.
  intros Hinv Ho.
  assert (Hok : o ∈ kept pf) by (apply elem_of_app; by left).
  pose proof (kept_le_nodes pf Hinv) as Hlen.
  unfold kept in Hlen. rewrite length_app in Hlen.
  assert (Hopen : (0 < length (m_OpenList pf))%nat).
  { destruct (m_OpenList pf); [by apply elem_of_nil in Ho|simpl; lia]. }
  destruct (length (nodes pf)) as [|n] eqn:Hn; [lia|]. simpl.
  destruct (GetParentNode (deref (nodes pf) o)) as [q|] eqn:Hpar.
  - pose proof (inv_open_parent _ _ _ _ Hinv o q Ho Hpar) as Hq.
    apply list_elem_of_lookup_1 in Hq as [j Hj].
    destruct (walk_closed pf j q Hinv Hj) as (tr & Hw & Hhd & Hlast & Hsteps).
    apply lookup_lt_Some in Hj.
    rewrite (walk_parents_mono (S j) n _ _ tr Hw) by lia. simpl.
    exists (o :: tr). split; [done|]. split; [done|].
    destruct tr as [|q' tr]; [done|]. injection Hhd as ->.
    split; [done|]. split; [|done].
    by apply (inv_link _ _ _ _ Hinv).
  - destruct n; simpl; (exists [o]; split; [done|]; split; [done|]);
      (split; [|done]); simpl; f_equal; by apply (inv_root _ _ _ _ Hinv).
Qed.

Lemma walk_closed_full (pf : PathFinder) (c : ptr) :
  inv pf -> c ∈ m_ClosedList pf ->
  exists tr, walk_parents (length (nodes pf)) (nodes pf) (Some c) = Some tr /\
             walk_ok start_pos pf c tr.
Proof.
  intros Hinv Hc. apply list_elem_of_lookup_1 in Hc as [i Hi].
  destruct (walk_closed pf i c Hinv Hi) as (tr & Hw & Hok).
  exists tr. split; [|done].
  apply (walk_parents_mono (S i)); [done|].
  pose proof (kept_le_nodes pf Hinv) as Hlen.
  unfold kept in Hlen. rewrite length_app in Hlen.
  apply lookup_lt_Some in Hi. lia.
Qed.

(** ** Coordinates stay [int16] *)

Lemma all_int16_expand_dir (k : nat) (d : Position) (cur : ptr)
    (pf pf' : PathFinder) :
  inv pf -> all_int16 pf ->
  expand_dir m_Grid p_EndX p_EndY k d cur pf = Ok pf' ->
  all_int16 pf'.
Proof.
  intros Hinv Hall Hex. apply expand_dir_Ok in Hex.
  destruct Hex as [->|[(q & Ho & _ & _ & ->)|(Hv & Hc & Ho & ->)]].
  - done.
  - intros p Hp. unfold update_node. cbn [nodes].
    rewrite pos_of_update; [by apply Hall|].
    apply DoesNodeExist_Some in Ho as [Hq _].
    apply (inv_valid _ _ _ _ Hinv). apply elem_of_app. by left.
  - intros p. unfold kept, push_open_new.
    cbn [nodes m_OpenList m_ClosedList].
    rewrite <- app_assoc, elem_of_app. cbn [app]. rewrite elem_of_cons.
    intros [Hp|[->|Hp]].
    + rewrite pos_of_app_l.
      * apply Hall. apply elem_of_app. by left.
      * apply (inv_valid _ _ _ _ Hinv). apply elem_of_app. by left.
    + unfold pos_of. rewrite deref_app_new. simpl.
      split; apply wrap16_int16.
    + rewrite pos_of_app_l.
      * apply Hall. apply elem_of_app. by right.
      * apply (inv_valid _ _ _ _ Hinv). apply elem_of_app. by right.
Qed.

Lemma all_int16_step (c c' : config) :
  config_inv c -> all_int16 (snd c) -> step c c' -> all_int16 (snd c').
Proof.
  destruct c as [l pf]. intros [Hinv Hpc] Hall.
  unfold step, micro_step; simpl. simpl in Hinv, Hall.
  destruct l as [|k|e|q]; [| |done|done].
  - destruct (select_lowest pf) as [[i p]|] eqn:Hsel.
    + apply select_lowest_spec in Hsel as (Hi & _).
      destruct (at_end _ _ _); intros [= <-]; simpl; [done|].
      intros x Hx. rewrite (kept_close_current pf i p Hi) in Hx.
      by apply Hall.
    + by intros [= <-].
  - destruct (m_Directions !! k) as [d|]; [|by intros [= <-]].
    destruct (m_Current pf) as [cur|]; [|done].
    destruct (expand_dir _ _ _ _ _ _ _) as [pf1|q] eqn:Hex; intros [= <-].
    + by eapply all_int16_expand_dir.
    + done.
Qed.

Lemma reachable_int16 (c : config) :
  int16 p_StartX -> int16 p_StartY -> reachable c -> all_int16 (snd c).
Proof.
  intros Hx Hy. revert c. apply rtc_ind_r.
  - intros p Hp. unfold kept in Hp; simpl in Hp.
    by apply list_elem_of_singleton in Hp as ->.
  - intros c c' Hreach Hstep IH.
    eapply all_int16_step; [|done|done]. by apply reachable_inv.
Qed.

Lemma CalculateHeuristic_manhattan (n : Node) :
  int16 (GetPositionX n) -> int16 (GetPositionY n) ->
  int16 p_EndX -> int16 p_EndY ->
  CalculateHeuristic p_EndX p_EndY n
  = 10 * (Z.abs (GetPositionX n - p_EndX) + Z.abs (GetPositionY n - p_EndY)).
Proof.
  unfold int16, CalculateHeuristic. intros Hx Hy Hex Hey.
  apply wrap32_id. unfold uint32. lia.
Qed.

End Preservation.

(** * The claims *)

(** ** Termination *)

(** X15. For every grid and every start cell inside it, within
    [cells g + 1] evaluations of the loop condition the search loop has
    reached the end cell or emptied the open list, after at most
    [cells g] completed iterations (one closed node each), or it has
    made a grid access outside the grid. On an enclosed grid with a
    walkable start cell there is no such access, and the loop ends in
    one of the first two ways. *)
Theorem search_loop_terminates (g : GridArray) (sx sy ex ey : Z) :
  in_bounds g (mkPosition sx sy) ->
  exists res,
    search_loop g ex ey (S (cells g)) (seeded sx sy PathFinder_new) = Some res
    /\ match res with
       | Ok (e, pf) =>
           (length (m_ClosedList pf) <= cells g)%nat /\
           match e with
           | GoalReached =>
               exists cur, m_Current pf = Some cur /\
                 pos_of (nodes pf) cur = mkPosition ex ey
           | OpenExhausted => m_OpenList pf = []
           end
       | OutOfRange q => grid_at g q = None
       end
    /\ (enclosed g = true ->
        CheckValidTile g (mkPosition sx sy) = Some true ->
        exists e pf, res = Ok (e, pf)).
Proof.
  intros Hstart.
  pose proof (config_inv_initial g sx sy ex ey) as Hinit.
  destruct (search_loop_enough g sx sy ex ey (S (cells g))
              (seeded sx sy PathFinder_new)) as [res Hres]; [done|done| |].
  { simpl. lia. }
  exists res. split; [done|]. split.
  - destruct res as [[e pf]|q].
    + split; [by eapply search_loop_closed_bound|].
      apply search_loop_steps in Hres.
      pose proof (config_inv_rtc g sx sy ex ey _ _ Hinit Hres) as [_ Hpc].
      unfold inv_pc in Hpc; simpl in Hpc. destruct e.
      * destruct Hpc as (cur & Hcur & _ & Hend). exists cur.
        split; [done|].
        by apply (same_position _ _ (mkPosition ex ey)) in Hend.
      * by destruct Hpc.
    + by eapply search_loop_fault_outside.
  - intros Henc Hvalid. destruct res as [[e pf]|q]; [eauto|].
    exfalso. eapply (search_loop_no_fault g sx sy ex ey); [done| |done].
    by apply enclosed_valid_safe.
Qed.

Lemma search_loop_terminates_witness :
  in_bounds room_4x4 (mkPosition 1 1) /\
  enclosed room_4x4 = true /\
  CheckValidTile room_4x4 (mkPosition 1 1) = Some true /\
  exists e pf,
    search_loop room_4x4 2 2 (S (cells room_4x4)) (seeded 1 1 PathFinder_new)
    = Some (Ok (e, pf)).
Proof.
  assert (H : in_bounds room_4x4 (mkPosition 1 1)) by (by eexists).
  split; [exact H|]. split; [reflexivity|]. split; [reflexivity|].
  destruct (search_loop_terminates room_4x4 1 1 2 2 H)
    as (res & Hres & _ & Hok).
  destruct (Hok eq_refl eq_refl) as (e & pf & ->). by exists e, pf.
Defined.

(** ** Distinct cells *)

(** C10. In every configuration one call goes through - at the loop
    condition, before and after each turn of the direction loop, and on
    either way out - the open and the closed list together hold no two
    nodes on the same cell, and hence no node twice. *)
Theorem open_closed_distinct_cells (g : GridArray) (sx sy ex ey : Z)
    (c : config) :
  reachable g sx sy ex ey c ->
  NoDup (pos_of (nodes (snd c))
           <$> (m_OpenList (snd c) ++ m_ClosedList (snd c)))
  /\ NoDup (m_OpenList (snd c) ++ m_ClosedList (snd c)).
Proof.
  intros Hreach. apply reachable_inv in Hreach as [Hinv _].
  pose proof (inv_nodup _ _ _ _ Hinv) as Hnd.
  split; [exact Hnd|]. by eapply NoDup_fmap_1.
Qed.

Lemma open_closed_distinct_cells_witness :
  reachable room_4x4 1 1 2 2 room_4x4_mid /\
  NoDup (pos_of (nodes (snd room_4x4_mid))
           <$> (m_OpenList (snd room_4x4_mid)
                ++ m_ClosedList (snd room_4x4_mid)))
  /\ NoDup (m_OpenList (snd room_4x4_mid) ++ m_ClosedList (snd room_4x4_mid)).
Proof.
  assert (H : reachable room_4x4 1 1 2 2 room_4x4_mid).
  { apply (micro_steps_rtc room_4x4 2 2 14). reflexivity. }
  split; [exact H|]. exact (open_closed_distinct_cells _ _ _ _ _ _ H).
Defined.

(** ** Start equal to end *)

(** C6, as amended. With the end cell equal to the start cell [s], the
    first evaluation of the loop selects the seed node and leaves the
    loop: nothing is closed, no neighbour is computed, no node is
    allocated and the grid is not read; the closing walk then passes
    over the single cell [s], and on return [m_Current] is null and the
    node is deleted. *)
Theorem same_cell_single_step (g : GridArray) (sx sy : Z) (fuel : nat) :
  search_loop g sx sy (S fuel) (seeded sx sy PathFinder_new)
  = Some (Ok (GoalReached,
              mkPathFinder [Node_new sx sy None] [0%nat] [] (Some 0%nat)))
  /\ CalculatePath g sx sy sx sy (S fuel) PathFinder_new
     = Some (Ok (mkRun GoalReached [mkPosition sx sy]
                   (mkPathFinder [] [0%nat] [] None))).
Proof.
  assert (Hloop : search_loop g sx sy (S fuel) (seeded sx sy PathFinder_new)
    = Some (Ok (GoalReached,
                mkPathFinder [Node_new sx sy None] [0%nat] [] (Some 0%nat)))).
  { cbn [search_loop]. unfold select_lowest, seeded, push_open_new; simpl.
    unfold at_end, deref; simpl. by rewrite !Z.eqb_refl. }
  split; [exact Hloop|]. unfold CalculatePath. by rewrite Hloop.
Qed.

(** C6, the claim as worded fails: in [room_4x4] with start and end on
    (1,1) the closing loop passes over the cell (1,1), and nothing of it
    is kept. The function is [void]; on return [m_Current] is null and
    the only node is deleted, so the members lead to no cell. *)
Lemma same_cell_keeps_no_path :
  in_bounds room_4x4 (mkPosition 1 1) /\
  exists r,
    CalculatePath room_4x4 1 1 1 1 17 PathFinder_new = Some (Ok r) /\
    visited r = [mkPosition 1 1] /\
    m_Current (final r) = None /\
    nodes (final r) = [] /\
    path_kept (final r) = [] /\
    path_kept (final r) <> [mkPosition 1 1].
Proof.
  split; [by eexists|]. eexists. split; [reflexivity|]. by repeat split.
Qed.

(** ** Grid accesses *)

(** C7, at the failing input: in the 2x2 room without walls, from (0,0)
    to (1,1) - both inside the grid - the first iteration computes the
    neighbour (0,-1) and [CheckValidTile] indexes the grid with it; no
    bounds test comes before the lookup. *)
Theorem open_room_reads_outside (fuel : nat) :
  in_bounds room_open2 (mkPosition 0 0) /\
  in_bounds room_open2 (mkPosition 1 1) /\
  CalculatePath room_open2 0 0 1 1 (S fuel) PathFinder_new
  = Some (OutOfRange (mkPosition 0 (-1))) /\
  grid_at room_open2 (mkPosition 0 (-1)) = None /\
  exists pf, reachable room_open2 0 0 1 1 (Faulted (mkPosition 0 (-1)), pf).
Proof.
  split; [by eexists|]. split; [by eexists|]. split; [reflexivity|].
  split; [reflexivity|]. eexists.
  apply (micro_steps_rtc room_open2 1 1 4). reflexivity.
Qed.


(** ** Which node is selected *)

(** C4, as the code has it. The node taken from a non-empty open list
    has the lowest total cost, and every node that comes after it in the
    list costs strictly more: among the nodes that tie for the lowest
    total cost it is the last one in iteration order. *)
Theorem select_lowest_last_minimum (pf : PathFinder) :
  m_OpenList pf <> [] ->
  exists i p,
    select_lowest pf = Some (i, p) /\
    m_OpenList pf !! i = Some p /\
    (forall j q, m_OpenList pf !! j = Some q ->
       GetTotalCost (deref (nodes pf) p) <= GetTotalCost (deref (nodes pf) q))
    /\
    (forall j q, m_OpenList pf !! j = Some q -> (i < j)%nat ->
       GetTotalCost (deref (nodes pf) p) < GetTotalCost (deref (nodes pf) q)).
Proof.
  intros Hne. destruct (select_lowest_is_Some pf Hne) as [[i p] Hsel].
  exists i, p. split; [done|]. by apply select_lowest_spec.
Qed.

Lemma select_lowest_last_minimum_witness :
  m_OpenList (snd room_4x4_first) <> [] /\
  exists i p,
    select_lowest (snd room_4x4_first) = Some (i, p) /\
    m_OpenList (snd room_4x4_first) !! i = Some p /\
    (forall j q, m_OpenList (snd room_4x4_first) !! j = Some q ->
       GetTotalCost (deref (nodes (snd room_4x4_first)) p)
       <= GetTotalCost (deref (nodes (snd room_4x4_first)) q))
    /\
    (forall j q, m_OpenList (snd room_4x4_first) !! j = Some q -> (i < j)%nat ->
       GetTotalCost (deref (nodes (snd room_4x4_first)) p)
       < GetTotalCost (deref (nodes (snd room_4x4_first)) q)).
Proof.
  assert (H : m_OpenList (snd room_4x4_first) <> []) by (by vm_compute).
  split; [exact H|]. exact (select_lowest_last_minimum _ H).
Defined.

(** C4, the claim as worded fails: after the first iteration in
    [room_4x4] from (1,1) to (2,2) the open list holds the nodes on
    (1,2), (2,1) and (2,2) with total costs 30, 30 and 34. The two
    cheapest tie; the loop takes the later one, at index 1, not the one
    met first. *)
Lemma select_lowest_takes_later_tie :
  reachable room_4x4 1 1 2 2 room_4x4_first /\
  m_OpenList (snd room_4x4_first) = [1%nat; 2%nat; 3%nat] /\
  GetTotalCost (deref (nodes (snd room_4x4_first)) 1%nat) = 30 /\
  GetTotalCost (deref (nodes (snd room_4x4_first)) 2%nat) = 30 /\
  GetTotalCost (deref (nodes (snd room_4x4_first)) 3%nat) = 34 /\
  select_lowest (snd room_4x4_first) = Some (1%nat, 2%nat) /\
  ~ first_among_ties (snd room_4x4_first).
Proof.
  split.
  { apply (micro_steps_rtc room_4x4 2 2 10). reflexivity. }
  repeat split; try reflexivity.
  intros Hfirst.
  specialize (Hfirst 1%nat 2%nat eq_refl 0%nat 1%nat eq_refl).
  specialize (Hfirst (Nat.lt_0_succ 0)). vm_compute in Hfirst. discriminate.
Qed.

(** ** What a call leaves behind *)

(** C1, as the code has it. For a start cell inside the grid the call
    comes to an end. When no grid access fell outside the grid, the loop
    was left with [m_Current] on the node selected last - the node on the
    end cell, still in the open list, when the end was reached; the node
    closed last when the open list ran empty. In both cases the closing
    loop then runs up the parent links from that node: the cells it
    passes start with that node's cell, end with the start cell, and each
    is one direction away from the next. The sequence is in that order
    (it is not reversed), it is not empty in either case, and the function
    keeps none of it: on return [m_Current] is null and every node has
    been deleted. *)
Theorem CalculatePath_walks_back (g : GridArray) (sx sy ex ey : Z) :
  in_bounds g (mkPosition sx sy) ->
  exists res,
    search_loop g ex ey (S (cells g)) (seeded sx sy PathFinder_new) = Some res
    /\ match res with
       | OutOfRange q =>
           grid_at g q = None /\
           CalculatePath g sx sy ex ey (S (cells g)) PathFinder_new
           = Some (OutOfRange q)
       | Ok (e, pf) =>
           exists cur tr,
             m_Current pf = Some cur /\
             match e with
             | GoalReached =>
                 cur ∈ m_OpenList pf /\
                 pos_of (nodes pf) cur = mkPosition ex ey
             | OpenExhausted =>
                 m_OpenList pf = [] /\ last (m_ClosedList pf) = Some cur
             end /\
             walk_parents (length (nodes pf)) (nodes pf) (Some cur)
             = Some (cur :: tr) /\
             last (pos_of (nodes pf) <$> (cur :: tr))
             = Some (mkPosition sx sy) /\
             steps_back (pos_of (nodes pf) <$> (cur :: tr)) /\
             CalculatePath g sx sy ex ey (S (cells g)) PathFinder_new
             = Some (Ok (mkRun e (pos_of (nodes pf) <$> (cur :: tr))
                           (mkPathFinder [] (m_OpenList pf)
                              (m_ClosedList pf) None)))
       end.
Proof.
  intros Hstart.
  pose proof (config_inv_initial g sx sy ex ey) as Hinit.
  destruct (search_loop_enough g sx sy ex ey (S (cells g))
              (seeded sx sy PathFinder_new)) as [res Hres]; [done|done| |].
  { simpl. lia. }
  exists res. split; [done|]. destruct res as [[e pf]|q].
  - pose proof (search_loop_steps _ _ _ _ _ _ _ Hres) as Hsteps.
    pose proof (config_inv_rtc g sx sy ex ey _ _ Hinit Hsteps) as [Hinv Hpc].
    unfold inv_pc in Hpc; simpl in Hpc, Hinv.
    assert (Hwalk : exists cur tr,
      m_Current pf = Some cur /\
      match e with
      | GoalReached =>
          cur ∈ m_OpenList pf /\ pos_of (nodes pf) cur = mkPosition ex ey
      | OpenExhausted =>
          m_OpenList pf = [] /\ last (m_ClosedList pf) = Some cur
      end /\
      walk_parents (length (nodes pf)) (nodes pf) (Some cur) = Some (cur :: tr)
      /\ walk_ok (start_pos sx sy) pf cur (cur :: tr)).
    { destruct e.
      - destruct Hpc as (cur & Hcur & Hopen & Hend).
        apply (same_position _ _ (mkPosition ex ey)) in Hend.
        destruct (walk_open g sx sy pf cur Hinv Hopen) as (tr & Hw & Hok).
        pose proof Hok as (Hhd & _). destruct tr as [|c tr]; [done|].
        injection Hhd as ->. by exists cur, tr.
      - destruct Hpc as (Hopen & cur & Hcur & Hlast).
        pose proof (last_Some_elem_of _ _ Hlast) as Hin.
        destruct (walk_closed_full g sx sy pf cur Hinv Hin) as (tr & Hw & Hok).
        pose proof Hok as (Hhd & _). destruct tr as [|c tr]; [done|].
        injection Hhd as ->. by exists cur, tr. }
    destruct Hwalk as (cur & tr & Hcur & He & Hw & _ & Hlast & Hback).
    exists cur, tr. repeat (split; [done|]).
    unfold CalculatePath. rewrite Hres, Hcur, Hw. done.
  - split; [by eapply search_loop_fault_outside|].
    unfold CalculatePath. by rewrite Hres.
Qed.

Lemma CalculatePath_walks_back_witness :
  in_bounds room_bend (mkPosition 3 3) /\
  exists res,
    search_loop room_bend 2 1 (S (cells room_bend)) (seeded 3 3 PathFinder_new)
    = Some res
    /\ match res with
       | OutOfRange q =>
           grid_at room_bend q = None /\
           CalculatePath room_bend 3 3 2 1 (S (cells room_bend)) PathFinder_new
           = Some (OutOfRange q)
       | Ok (e, pf) =>
           exists cur tr,
             m_Current pf = Some cur /\
             match e with
             | GoalReached =>
                 cur ∈ m_OpenList pf /\
                 pos_of (nodes pf) cur = mkPosition 2 1
             | OpenExhausted =>
                 m_OpenList pf = [] /\ last (m_ClosedList pf) = Some cur
             end /\
             walk_parents (length (nodes pf)) (nodes pf) (Some cur)
             = Some (cur :: tr) /\
             last (pos_of (nodes pf) <$> (cur :: tr))
             = Some (mkPosition 3 3) /\
             steps_back (pos_of (nodes pf) <$> (cur :: tr)) /\
             CalculatePath room_bend 3 3 2 1 (S (cells room_bend))
               PathFinder_new
             = Some (Ok (mkRun e (pos_of (nodes pf) <$> (cur :: tr))
                           (mkPathFinder [] (m_OpenList pf)
                              (m_ClosedList pf) None)))
       end.
Proof.
  assert (H : in_bounds room_bend (mkPosition 3 3)) by (by eexists).
  split; [exact H|]. exact (CalculatePath_walks_back room_bend 3 3 2 1 H).
Defined.

(** C1, the claim as worded fails on both counts. In [room_4x4] the end
    (2,2) is reached from (1,1) and the closing loop passes (2,2) and
    then (1,1): end first, never reversed. In [room_cell] the end (0,0)
    is walled off from (1,1), the open list runs empty, and the closing
    loop still passes (1,1): nothing marks the failure. *)
Lemma CalculatePath_not_as_specified :
  (exists r,
     CalculatePath room_4x4 1 1 2 2 17 PathFinder_new = Some (Ok r) /\
     how r = GoalReached /\
     visited r = [mkPosition 2 2; mkPosition 1 1] /\
     visited r <> path_as_specified (how r) (visited r)) /\
  (exists r,
     CalculatePath room_cell 1 1 0 0 10 PathFinder_new = Some (Ok r) /\
     how r = OpenExhausted /\
     visited r = [mkPosition 1 1] /\
     visited r <> path_as_specified (how r) (visited r)).
Proof.
  split; eexists; (split; [reflexivity|]); simpl; repeat split; discriminate.
Qed.

(** ** The validity check *)

(** C2, as the code has it. For a cell inside the grid the check accepts
    exactly when the grid marker is not ['X']; it takes no tile and reads
    no occupancy state. *)
Theorem CheckValidTile_marker_only (g : GridArray) (p : Position) :
  in_bounds g p ->
  (CheckValidTile g p = Some true <->
   exists c, grid_at g p = Some c /\ c <> "X"%char) /\
  (CheckValidTile g p = Some false <-> grid_at g p = Some "X"%char).
Proof.
  intros [c Hc]. unfold CheckValidTile. rewrite Hc. simpl.
  destruct (Ascii.eqb_spec c "X") as [->|Hne].
  - split; split; [done| |done|done].
    by intros (c' & [= <-] & Hc').
  - split; split; [|done|done|].
    + intros _. by exists c.
    + by intros [= ->].
Qed.

Lemma CheckValidTile_marker_only_witness :
  in_bounds room_4x4 (mkPosition 1 1) /\
  CheckValidTile room_4x4 (mkPosition 1 1) = Some true.
Proof.
  assert (H : in_bounds room_4x4 (mkPosition 1 1)) by (by eexists).
  split; [exact H|].
  apply (proj1 (CheckValidTile_marker_only room_4x4 (mkPosition 1 1) H)).
  by exists "0"%char.
Defined.

(** C2, the claim as worded fails: the cell (1,1) of [room_4x4] has a
    walkable marker; with a solid object on its tile the check as worded
    rejects it, whatever the occupancy policy, and the code accepts it. *)
Lemma CheckValidTile_ignores_tiles :
  let tiles := fun _ : Position => Tile.mkTile (Some 1%nat) 0 0 None 0 0 in
  in_bounds room_4x4 (mkPosition 1 1) /\
  Tile.TileContainsSolidObject (tiles (mkPosition 1 1)) = true /\
  CheckValidTile room_4x4 (mkPosition 1 1) = Some true /\
  forall policy,
    Tile.valid_as_specified policy room_4x4 tiles (mkPosition 1 1)
    = Some false.
Proof.
  simpl. split; [by eexists|]. by repeat split.
Qed.

(** ** Costs of a new node *)

Lemma step_cost_direction (k : nat) (d : Position) :
  m_Directions !! k = Some d ->
  step_cost k = if Z.abs (X d) + Z.abs (Y d) =? 1 then 10 else 14.
Proof.
  do 8 (destruct k as [|k]; [by intros [= <-]|]). done.
Qed.

(** C5, as the code has it. A node created in the direction loop lies on
    the neighbour cell, has the node being expanded as its parent, a G
    cost of that node's G cost plus 10 (straight step) or 14 (diagonal
    step) in [uint32] arithmetic, and an H cost of ten times the
    Manhattan distance from the cell of the node being expanded - not
    from the new node's own cell - to the end cell. *)
Theorem new_node_costs (g : GridArray) (sx sy ex ey : Z) (k : nat)
    (pf pf' : PathFinder) (n : Node) :
  int16 sx -> int16 sy -> int16 ex -> int16 ey ->
  reachable g sx sy ex ey (Dirs k, pf) ->
  step g ex ey (Dirs k, pf) (Dirs (S k), pf') ->
  nodes pf' = nodes pf ++ [n] ->
  exists cur d,
    m_Current pf = Some cur /\ m_Directions !! k = Some d /\
    m_OpenList pf' = m_OpenList pf ++ [length (nodes pf)] /\
    let c := deref (nodes pf) cur in
    node_pos n = neighbour (node_pos c) d /\
    GetParentNode n = Some cur /\
    GetHCost n
    = 10 * (Z.abs (GetPositionX c - ex) + Z.abs (GetPositionY c - ey)) /\
    GetGCost n = wrap32 (GetGCost c + step_cost k) /\
    step_cost k = (if Z.abs (X d) + Z.abs (Y d) =? 1 then 10 else 14) /\
    (GetGCost c + step_cost k < 4294967296 ->
     GetGCost n = GetGCost c + step_cost k).
Proof.
  intros Hsx Hsy Hex Hey Hreach Hstep Hnew.
  pose proof (reachable_inv _ _ _ _ _ _ Hreach) as [Hinv Hpc].
  pose proof (reachable_int16 _ _ _ _ _ _ Hsx Hsy Hreach) as Hint.
  unfold inv_pc, current_closed in Hpc. simpl in Hinv, Hpc, Hint.
  destruct Hpc as (cur & Hcur & Hlast).
  assert (Hck : cur ∈ kept pf).
  { apply elem_of_app. right. by eapply last_Some_elem_of. }
  unfold step, micro_step in Hstep. simpl in Hstep.
  destruct (m_Directions !! k) as [d|] eqn:Hk; [|done].
  rewrite Hcur in Hstep.
  destruct (expand_dir g ex ey k d cur pf) as [pf1|q] eqn:Hexp; [|done].
  injection Hstep as ->.
  exists cur, d. split; [done|]. split; [done|].
  apply expand_dir_Ok in Hexp.
  destruct Hexp as [->|[(q & _ & _ & _ & ->)|(_ & _ & _ & ->)]].
  - apply (f_equal length) in Hnew. rewrite length_app in Hnew.
    simpl in Hnew. lia.
  - apply (f_equal length) in Hnew. simpl in Hnew.
    rewrite length_insert, length_app in Hnew. simpl in Hnew. lia.
  - simpl in Hnew. apply app_inv_head in Hnew. injection Hnew as <-.
    split; [done|]. cbv zeta. split; [done|]. split; [done|].
    destruct (Hint cur Hck) as [Hx Hy].
    split; [by apply CalculateHeuristic_manhattan|].
    split; [done|]. split; [by apply step_cost_direction|].
    intros Hlt. simpl. apply wrap32_id.
    pose proof (inv_gcost _ _ _ _ Hinv cur Hck) as Hg.
    unfold uint32 in *. unfold step_cost in *.
    destruct (k <? 4)%nat; lia.
Qed.

Lemma new_node_costs_witness :
  let pf := snd room_4x4_dir0 in
  let pf' := snd (after room_4x4 1 1 2 2 2) in
  let n := mkNode 1 2 10 20 (Some 0%nat) in
  int16 1 /\ int16 2 /\
  reachable room_4x4 1 1 2 2 (Dirs 0, pf) /\
  step room_4x4 2 2 (Dirs 0, pf) (Dirs 1, pf') /\
  nodes pf' = nodes pf ++ [n] /\
  exists cur d,
    m_Current pf = Some cur /\ m_Directions !! 0%nat = Some d /\
    m_OpenList pf' = m_OpenList pf ++ [length (nodes pf)] /\
    let c := deref (nodes pf) cur in
    node_pos n = neighbour (node_pos c) d /\
    GetParentNode n = Some cur /\
    GetHCost n
    = 10 * (Z.abs (GetPositionX c - 2) + Z.abs (GetPositionY c - 2)) /\
    GetGCost n = wrap32 (GetGCost c + step_cost 0) /\
    step_cost 0 = (if Z.abs (X d) + Z.abs (Y d) =? 1 then 10 else 14) /\
    (GetGCost c + step_cost 0 < 4294967296 ->
     GetGCost n = GetGCost c + step_cost 0).
Proof.
  intros pf pf' n.
  assert (H1 : int16 1) by (unfold int16; lia).
  assert (H2 : int16 2) by (unfold int16; lia).
  assert (Hr : reachable room_4x4 1 1 2 2 (Dirs 0, pf)).
  { apply (micro_steps_rtc room_4x4 2 2 1). reflexivity. }
  assert (Hs : step room_4x4 2 2 (Dirs 0, pf) (Dirs 1, pf')) by reflexivity.
  assert (Hn : nodes pf' = nodes pf ++ [n]) by reflexivity.
  split; [exact H1|]. split; [exact H2|]. split; [exact Hr|].
  split; [exact Hs|]. split; [exact Hn|].
  exact (new_node_costs room_4x4 1 1 2 2 0 pf pf' n H1 H1 H2 H2 Hr Hs Hn).
Defined.

(** C5, the claim as worded fails: the first node created in [room_4x4]
    from (1,1) to (2,2) lies on (1,2), at Manhattan distance 1 from the
    end, and gets the H cost 20 of its parent's cell (1,1). *)
Lemma new_node_heuristic_from_parent :
  let pf := snd room_4x4_dir0 in
  let pf' := snd (after room_4x4 1 1 2 2 2) in
  reachable room_4x4 1 1 2 2 (Dirs 0, pf) /\
  step room_4x4 2 2 (Dirs 0, pf) (Dirs 1, pf') /\
  exists n,
    nodes pf' = nodes pf ++ [n] /\
    node_pos n = mkPosition 1 2 /\
    GetHCost n = 20 /\
    heuristic_as_specified 2 2 n = 10 /\
    GetHCost n <> heuristic_as_specified 2 2 n.
Proof.
  intros pf pf'. split.
  { apply (micro_steps_rtc room_4x4 2 2 1). reflexivity. }
  split; [reflexivity|]. eexists. split; [reflexivity|].
  repeat split. discriminate.
Qed.

(** ** A neighbour already in the open list *)

(** The update branch compares the new G cost with the G cost of the node
    being expanded, which the new cost exceeds by 10 or 14: short of a
    [uint32] overflow the branch is dead, and a turn of the direction
    loop either changes nothing or appends a new node. *)
Lemma update_only_on_overflow (g : GridArray) (ex ey : Z) (k : nat)
    (d : Position) (cur : ptr) (pf pf' : PathFinder) :
  uint32 (GetGCost (deref (nodes pf) cur)) ->
  GetGCost (deref (nodes pf) cur) + step_cost k < 4294967296 ->
  expand_dir g ex ey k d cur pf = Ok pf' ->
  pf' = pf \/ exists n, pf' = push_open_new n pf.
Proof.
  intros Hg Hlt Hex. apply expand_dir_Ok in Hex.
  destruct Hex as [->|[(q & _ & _ & Hup & ->)|(_ & _ & _ & ->)]];
    [by left| |right; eauto].
  exfalso. rewrite wrap32_id in Hup.
  - unfold step_cost in Hup. destruct (k <? 4)%nat; lia.
  - unfold uint32 in *. unfold step_cost in *. destruct (k <? 4)%nat; lia.
Qed.

(** C3, at the failing input. In [room_bend] from (3,3) to (2,1) the
    node on (2,1) enters the open list with G cost 38, by way of (2,3)
    and (1,2). When the node on (2,2), of G cost 14, is expanded, the
    straight step to (2,1) gives the new G cost 24, lower than 38. The
    source compares 24 with 14 instead, so the turn changes nothing: the
    open node keeps G cost 38 and its parent on (1,2), where the rule as
    worded sets G cost 24 and the parent on (2,2). *)
Theorem cheaper_route_not_taken :
  let pf := snd room_bend_dir2 in
  let down := mkPosition 0 (-1) in
  reachable room_bend 3 3 2 1 (Dirs 2, pf) /\
  m_Current pf = Some 2%nat /\
  pos_of (nodes pf) 2%nat = mkPosition 2 2 /\
  m_Directions !! 2%nat = Some down /\
  neighbour (pos_of (nodes pf) 2%nat) down = mkPosition 2 1 /\
  DoesNodeExist (nodes pf) (m_OpenList pf) (mkPosition 2 1) = Some 4%nat /\
  GetGCost (deref (nodes pf) 4%nat) = 38 /\
  GetParentNode (deref (nodes pf) 4%nat) = Some 3%nat /\
  wrap32 (GetGCost (deref (nodes pf) 2%nat) + step_cost 2) = 24 /\
  expand_dir room_bend 2 1 2 down 2%nat pf = Ok pf /\
  GetGCost (deref (nodes (update_as_specified 4%nat 24 2%nat pf)) 4%nat) = 24 /\
  GetParentNode (deref (nodes (update_as_specified 4%nat 24 2%nat pf)) 4%nat)
  = Some 2%nat /\
  search_loop room_bend 2 1 26 (seeded 3 3 PathFinder_new)
  = Some (Ok (GoalReached, set_current 4%nat pf)).
Proof.
  intros pf down. split.
  { apply (micro_steps_rtc room_bend 2 1 33). reflexivity. }
  repeat split; reflexivity.
Qed.

(** ** Occupying and clearing a tile *)

Lemma SetTileOccupied_solid (b : bool) (h : option Tile.Habbo)
    (t : Tile.TileInstance) :
  Tile.TileContainsSolidObject (Tile.SetTileOccupied b h t)
  = Tile.TileContainsSolidObject t.
Proof. done. Qed.

(** C9, as amended. Occupy a tile with an entity, let anything happen
    to the tile that leaves its solid flag as it was, then clear the
    occupant: the answer of [CanWalkOnTile] is the one given before the
    first call, provided the tile was not occupied then. Under the
    policy in which an occupied tile is not reserved this holds for
    every tile. *)
Theorem occupy_clear_roundtrip (entity_blocks : bool)
    (t t' : Tile.TileInstance) (a : Tile.Habbo) :
  Tile.TileContainsSolidObject t'
  = Tile.TileContainsSolidObject (Tile.SetTileOccupied true (Some a) t) ->
  (entity_blocks = true -> Tile.m_Habbo t = None) ->
  Tile.CanWalkOnTile entity_blocks (Tile.SetTileOccupied false None t')
  = Tile.CanWalkOnTile entity_blocks t.
Proof.
  intros Hsolid Hfree. rewrite SetTileOccupied_solid in Hsolid.
  unfold Tile.CanWalkOnTile. rewrite SetTileOccupied_solid, Hsolid.
  destruct entity_blocks; simpl.
  - by rewrite (Hfree eq_refl).
  - done.
Qed.

Lemma occupy_clear_roundtrip_witness :
  let t := Tile.mkTile None 0 0 None 3 4 in
  let t' := Tile.SetTileOccupied true (Some 7%nat) t in
  Tile.TileContainsSolidObject t'
  = Tile.TileContainsSolidObject (Tile.SetTileOccupied true (Some 7%nat) t) /\
  (true = true -> Tile.m_Habbo t = None) /\
  Tile.CanWalkOnTile true t' = false /\
  Tile.CanWalkOnTile true (Tile.SetTileOccupied false None t')
  = Tile.CanWalkOnTile true t.
Proof.
  intros t t'.
  assert (H1 : Tile.TileContainsSolidObject t'
               = Tile.TileContainsSolidObject
                   (Tile.SetTileOccupied true (Some 7%nat) t))
    by reflexivity.
  assert (H2 : true = true -> Tile.m_Habbo t = None) by reflexivity.
  split; [exact H1|]. split; [exact H2|]. split; [reflexivity|].
  exact (occupy_clear_roundtrip true t t' 7%nat H1 H2).
Defined.

(** C9, the claim as worded fails: a tile without solid object on which
    the entity 1 stands cannot be walked on; after entity 7 has occupied
    it and has been cleared it can, although its solid flag never
    changed. *)
Lemma occupied_before_not_restored :
  let t := Tile.mkTile None 0 0 (Some (Some 1%nat)) 3 4 in
  let t' := Tile.SetTileOccupied true (Some 7%nat) t in
  Tile.TileContainsSolidObject t' = Tile.TileContainsSolidObject t /\
  Tile.CanWalkOnTile true t = false /\
  Tile.CanWalkOnTile true (Tile.SetTileOccupied false None t') = true /\
  Tile.CanWalkOnTile true (Tile.SetTileOccupied false None t')
  <> Tile.CanWalkOnTile true t.
Proof. done. Qed.

(** * Further properties of the search *)

Lemma connected_valid (g : GridArray) (a b : Position) :
  connected g a b -> b = a \/ CheckValidTile g b = Some true.
Proof. intros [|c d _ _ Hv]; [by left|by right]. Qed.

Lemma kept_closed (pf : PathFinder) (c : ptr) :
  c ∈ m_ClosedList pf -> c ∈ kept pf.
Proof. intros Hc. apply elem_of_app. by right. Qed.

Lemma kept_open (pf : PathFinder) (o : ptr) :
  o ∈ m_OpenList pf -> o ∈ kept pf.
Proof. intros Ho. apply elem_of_app. by left. Qed.

(** The parent of a kept node is a closed node. *)
Lemma parent_closed (g : GridArray) (sx sy : Z) (pf : PathFinder) (p q : ptr) :
  inv g sx sy pf -> p ∈ kept pf ->
  GetParentNode (deref (nodes pf) p) = Some q -> q ∈ m_ClosedList pf.
Proof.
  intros Hinv Hp Hpar. apply elem_of_app in Hp as [Hp|Hp].
  - by eapply (inv_open_parent _ _ _ _ Hinv).
  - apply list_elem_of_lookup_1 in Hp as [i Hi].
    destruct (inv_closed_parent _ _ _ _ Hinv i p q Hi Hpar) as (j & _ & Hj).
    by eapply list_elem_of_lookup_2.
Qed.

Section SearchFacts.

Variable m_Grid : GridArray.
Variables p_StartX p_StartY p_EndX p_EndY : Z.

Abbreviation inv' := (inv m_Grid p_StartX p_StartY).
Abbreviation inv_search' :=
  (inv_search m_Grid p_StartX p_StartY p_EndX p_EndY).
Abbreviation start' := (start_pos p_StartX p_StartY).
Abbreviation end' := (mkPosition p_EndX p_EndY).

Lemma inv_search_seeded :
  inv_search' (seeded p_StartX p_StartY PathFinder_new).
Proof.
  split; unfold kept; simpl.
  - intros p Hp. apply list_elem_of_singleton in Hp as ->. constructor.
  - left.
  - intros c Hc. by apply elem_of_nil in Hc.
  - intros p Hp. by apply list_elem_of_singleton in Hp as ->.
Qed.

Lemma inv_search_close_current (pf : PathFinder) (i : nat) (p : ptr) :
  inv_search' pf -> m_OpenList pf !! i = Some p ->
  pos_of (nodes pf) p <> end' ->
  inv_search' (close_current i p pf).
Proof.
  intros [Hcon Hseed Hne Hgl] Hi Hp.
  pose proof (kept_close_current pf i p Hi) as Hperm.
  split; simpl.
  - intros x Hx. rewrite Hperm in Hx. by apply Hcon.
  - change (nodes pf) with (nodes (close_current i p pf)) at 1.
    simpl. by rewrite Hperm.
  - intros c [Hc|Hc]%elem_of_app; [by apply Hne|].
    by apply list_elem_of_singleton in Hc as ->.
  - intros x Hx. rewrite Hperm in Hx. by apply Hgl.
Qed.

Lemma inv_search_update_node (pf : PathFinder) (q cur : ptr) (k : nat)
    (d : Position) :
  inv' pf -> inv_search' pf ->
  q ∈ m_OpenList pf -> cur ∈ m_ClosedList pf ->
  m_Directions !! k = Some d ->
  pos_of (nodes pf) q = neighbour (pos_of (nodes pf) cur) d ->
  inv_search'
    (update_node q (wrap32 (GetGCost (deref (nodes pf) cur) + step_cost k))
       cur pf).
Proof.
  intros Hinv [Hcon Hseed Hne Hgl] Hq Hcur Hk Hpos.
  assert (Hqv : (q < length (nodes pf))%nat).
  { apply (inv_valid _ _ _ _ Hinv). by apply kept_open. }
  assert (Hqc : q ∉ m_ClosedList pf).
  { eapply nodup_fmap_disjoint; [|done]. exact (inv_nodup _ _ _ _ Hinv). }
  set (g := wrap32 (GetGCost (deref (nodes pf) cur) + step_cost k)).
  set (n' := SetParentNode (Some cur) (SetGCost g (deref (nodes pf) q))).
  assert (Hpos' : forall p,
            pos_of (<[q := n']> (nodes pf)) p = pos_of (nodes pf) p).
  { intros p. by apply pos_of_update. }
  assert (Hcl : forall c, c ∈ m_ClosedList pf ->
            deref (<[q := n']> (nodes pf)) c = deref (nodes pf) c).
  { intros c Hc. apply deref_insert_ne. by intros ->. }
  split; unfold update_node, kept in *; cbn [nodes m_OpenList m_ClosedList];
    fold n'.
  - intros p Hp. rewrite Hpos'. by apply Hcon.
  - erewrite pos_of_fmap_ext; [done|]. intros p _. apply Hpos'.
  - intros c Hc. rewrite Hpos'. by apply Hne.
  - intros p Hp. destruct (decide (q = p)) as [<-|Hqp].
    + rewrite deref_insert_eq by done. simpl.
      exists k, d. split; [done|]. rewrite !Hpos'. split; [done|].
      by rewrite Hcl.
    + rewrite deref_insert_ne by done. specialize (Hgl p Hp).
      destruct (GetParentNode (deref (nodes pf) p)) as [q0|] eqn:Hpar; [|done].
      destruct Hgl as (k0 & d0 & Hk0 & Hp0 & Hg0).
      exists k0, d0. rewrite !Hpos'. split; [done|]. split; [done|].
      rewrite Hcl; [done|]. by eapply parent_closed.
Qed.

Lemma inv_search_push (pf : PathFinder) (cur : ptr) (k : nat)
    (d : Position) (h : Z) :
  let fp := neighbour (pos_of (nodes pf) cur) d in
  inv' pf -> inv_search' pf -> cur ∈ m_ClosedList pf ->
  m_Directions !! k = Some d ->
  CheckValidTile m_Grid fp = Some true ->
  inv_search'
    (push_open_new
       (SetHCost h
          (SetGCost (wrap32 (GetGCost (deref (nodes pf) cur) + step_cost k))
             (Node_new (X fp) (Y fp) (Some cur)))) pf).
Proof.
  intros fp Hinv [Hcon Hseed Hne Hgl] Hcur Hk Hv.
  set (n := SetHCost h _).
  assert (Hold : forall p, p ∈ kept pf ->
            deref (nodes pf ++ [n]) p = deref (nodes pf) p).
  { intros p Hp. apply deref_app_l. by apply (inv_valid _ _ _ _ Hinv). }
  assert (Hposold : forall p, p ∈ kept pf ->
            pos_of (nodes pf ++ [n]) p = pos_of (nodes pf) p).
  { intros p Hp. unfold pos_of. by rewrite Hold. }
  assert (Hposnew : pos_of (nodes pf ++ [n]) (length (nodes pf)) = fp).
  { unfold pos_of. rewrite deref_app_new. by destruct fp. }
  assert (Hkept : forall p, p ∈ kept (push_open_new n pf) ->
            p = length (nodes pf) \/ p ∈ kept pf).
  { intros p. unfold kept; simpl. rewrite !elem_of_app, list_elem_of_singleton.
    tauto. }
  assert (Hcurk : cur ∈ kept pf) by by apply kept_closed.
  split; cbn [nodes m_OpenList m_ClosedList push_open_new].
  - intros p [->|Hp]%Hkept.
    + rewrite Hposnew. apply connected_next; [by apply Hcon| |done].
      by eapply list_elem_of_lookup_2.
    + rewrite Hposold by done. by apply Hcon.
  - apply list_elem_of_fmap in Hseed as (p & Hp & Hin).
    apply list_elem_of_fmap. exists p. split.
    + by rewrite Hposold.
    + unfold kept in *; simpl. rewrite !elem_of_app in *. tauto.
  - intros c Hc. rewrite Hposold by by apply kept_closed. by apply Hne.
  - intros p [->|Hp]%Hkept.
    + rewrite deref_app_new. simpl. exists k, d. split; [done|].
      rewrite Hposnew, Hposold, Hold by done. done.
    + rewrite Hold by done. specialize (Hgl p Hp).
      destruct (GetParentNode (deref (nodes pf) p)) as [q0|] eqn:Hpar; [|done].
      destruct Hgl as (k0 & d0 & Hk0 & Hp0 & Hg0).
      assert (Hq0 : q0 ∈ kept pf).
      { apply kept_closed. by eapply parent_closed. }
      exists k0, d0. rewrite !Hposold, Hold by done. done.
Qed.

Lemma inv_search_expand_dir (k : nat) (d : Position) (cur : ptr)
    (pf pf' : PathFinder) :
  inv' pf -> inv_search' pf -> cur ∈ m_ClosedList pf ->
  m_Directions !! k = Some d ->
  expand_dir m_Grid p_EndX p_EndY k d cur pf = Ok pf' ->
  inv_search' pf'.
Proof.
  intros Hinv Hs Hcur Hk Hex. apply expand_dir_Ok in Hex.
  destruct Hex as [->|[(q & Ho & _ & _ & ->)|(Hv & Hc & Ho & ->)]].
  - done.
  - apply DoesNodeExist_Some in Ho as [Hq Hpos].
    by eapply inv_search_update_node.
  - by apply (inv_search_push pf cur k d).
Qed.

(** A turn of the direction loop keeps every kept node, on its cell. *)
Lemma expand_dir_positions (k : nat) (d : Position) (cur : ptr)
    (pf pf' : PathFinder) :
  inv' pf -> expand_dir m_Grid p_EndX p_EndY k d cur pf = Ok pf' ->
  forall p, p ∈ kept pf ->
    p ∈ kept pf' /\ pos_of (nodes pf') p = pos_of (nodes pf) p.
Proof.
  intros Hinv Hex p Hp. apply expand_dir_Ok in Hex.
  destruct Hex as [->|[(q & Ho & _ & _ & ->)|(Hv & Hc & Ho & ->)]].
  - done.
  - split; [done|]. unfold update_node; cbn [nodes]. apply pos_of_update.
    apply DoesNodeExist_Some in Ho as [Hq _].
    apply (inv_valid _ _ _ _ Hinv). by apply kept_open.
  - split.
    + unfold kept in *; simpl. rewrite !elem_of_app in *. tauto.
    + simpl. apply pos_of_app_l. by apply (inv_valid _ _ _ _ Hinv).
Qed.

(** After the turn for direction [d], the neighbour cell in that
    direction carries a kept node whenever it is valid. *)
Lemma expand_dir_covers (k : nat) (d : Position) (cur : ptr)
    (pf pf' : PathFinder) :
  expand_dir m_Grid p_EndX p_EndY k d cur pf = Ok pf' ->
  CheckValidTile m_Grid (neighbour (pos_of (nodes pf) cur) d) = Some true ->
  neighbour (pos_of (nodes pf) cur) d ∈ pos_of (nodes pf') <$> kept pf'.
Proof.
  unfold expand_dir. cbv zeta.
  change (mkPosition (wrap16 (GetPositionX (deref (nodes pf) cur) + X d))
            (wrap16 (GetPositionY (deref (nodes pf) cur) + Y d)))
    with (neighbour (pos_of (nodes pf) cur) d).
  set (fp := neighbour _ d). intros Hex Hv. rewrite Hv in Hex.
  destruct (DoesNodeExist (nodes pf) (m_ClosedList pf) fp) as [c|] eqn:Hc.
  { injection Hex as <-. apply DoesNodeExist_Some in Hc as [Hin <-].
    apply list_elem_of_fmap_2. by apply kept_closed. }
  destruct (DoesNodeExist (nodes pf) (m_OpenList pf) fp) as [q|] eqn:Ho.
  - apply DoesNodeExist_Some in Ho as [Hin Hq].
    destruct (_ <? _); injection Hex as <-.
    + unfold update_node; cbn [nodes m_OpenList m_ClosedList kept].
      apply list_elem_of_fmap. exists q. split; [|by apply kept_open].
      rewrite <- Hq. unfold pos_of.
      destruct (decide (q < length (nodes pf))%nat) as [Hlt|Hge].
      * by rewrite deref_insert_eq.
      * unfold deref. by rewrite list_insert_ge by lia.
    + rewrite <- Hq. apply list_elem_of_fmap_2. by apply kept_open.
  - injection Hex as <-. apply list_elem_of_fmap.
    exists (length (nodes pf)). split.
    + unfold pos_of. simpl. rewrite deref_app_new. by subst fp.
    + unfold kept; simpl. rewrite !elem_of_app, list_elem_of_singleton. tauto.
Qed.

Lemma expanded_upto_mono (k : nat) (pf pf' : PathFinder) (x : ptr) :
  (forall p, p ∈ kept pf ->
     p ∈ kept pf' /\ pos_of (nodes pf') p = pos_of (nodes pf) p) ->
  x ∈ kept pf ->
  expanded_upto m_Grid k pf x -> expanded_upto m_Grid k pf' x.
Proof.
  intros Hmono Hx Hexp j d Hj Hd.
  destruct (Hmono x Hx) as [_ ->]. intros Hv.
  specialize (Hexp j d Hj Hd Hv).
  apply list_elem_of_fmap in Hexp as (p & -> & Hp).
  destruct (Hmono p Hp) as [Hp' <-]. by apply list_elem_of_fmap_2.
Qed.

Lemma expanded_upto_le (k k' : nat) (pf : PathFinder) (x : ptr) :
  (k' <= k)%nat ->
  expanded_upto m_Grid k pf x -> expanded_upto m_Grid k' pf x.
Proof. intros Hle Hexp j d Hj. apply Hexp. lia. Qed.

Lemma expanded_upto_all (k : nat) (pf : PathFinder) (x : ptr) :
  m_Directions !! k = None ->
  expanded_upto m_Grid k pf x -> expanded m_Grid pf x.
Proof.
  intros Hk Hexp j d Hj. apply Hexp.
  apply lookup_ge_None in Hk. lia.
Qed.

Abbreviation step' := (step m_Grid p_EndX p_EndY).
Abbreviation config_inv' :=
  (config_inv m_Grid p_StartX p_StartY p_EndX p_EndY).
Abbreviation reachable' :=
  (reachable m_Grid p_StartX p_StartY p_EndX p_EndY).

Lemma frontier_inv_step (c c' : config) :
  config_inv' c -> frontier_inv m_Grid c -> step' c c' ->
  frontier_inv m_Grid c'.
Proof.
  destruct c as [l pf]. intros [Hinv Hpc] Hfr.
  unfold step, micro_step; simpl. simpl in Hinv.
  destruct l as [|k|e|q]; [| |done|done];
    unfold inv_pc, current_closed in Hpc; unfold frontier_inv in Hfr;
    simpl in Hpc, Hfr.
  - destruct (select_lowest pf) as [[i p]|] eqn:Hsel.
    + apply select_lowest_spec in Hsel as (Hi & _).
      destruct (at_end _ _ _); intros [= <-]; unfold frontier_inv; simpl;
        [done|].
      intros i0 x Hx. rewrite length_app. simpl.
      assert (Hmono : forall p0, p0 ∈ kept pf ->
                p0 ∈ kept (close_current i p pf) /\
                pos_of (nodes (close_current i p pf)) p0
                = pos_of (nodes pf) p0).
      { intros p0 Hp0. split; [|done].
        by rewrite (kept_close_current pf i p Hi). }
      apply lookup_app_Some in Hx as [Hx|[Hlen Hx]].
      * pose proof (lookup_lt_Some _ _ _ Hx) as Hlt.
        destruct (decide _) as [Heq|_]; [lia|].
        apply list_elem_of_lookup_2 in Hx.
        apply (expanded_upto_mono _ pf); [done|by apply kept_closed|].
        by apply Hfr.
      * destruct (decide _) as [_|Hne]; [|].
        -- intros j d Hj. lia.
        -- apply list_lookup_singleton_Some in Hx as [Hz _]. lia.
    + by intros [= <-].
  - destruct (m_Directions !! k) as [d|] eqn:Hd.
    + destruct Hpc as (cur & Hcur & Hlast). rewrite Hcur.
      destruct (expand_dir _ _ _ _ _ _ _) as [pf'|q] eqn:Hex;
        intros [= <-]; [|done].
      unfold frontier_inv; simpl.
      pose proof (expand_dir_positions k d cur pf pf' Hinv Hex) as Hmono.
      pose proof (expand_dir_frame _ _ _ _ _ _ _ _ Hex) as (Hc & _).
      rewrite Hc. intros i x Hx. specialize (Hfr i x Hx).
      assert (Hxk : x ∈ kept pf).
      { apply kept_closed. by eapply list_elem_of_lookup_2. }
      destruct (decide _) as [Heq|Hne].
      * assert (x = cur) as ->.
        { rewrite last_lookup in Hlast.
          replace (pred (length (m_ClosedList pf))) with i in Hlast by lia.
          congruence. }
        intros j d0 Hj Hd0. destruct (decide (j = k)) as [->|Hjk].
        -- assert (d0 = d) as -> by congruence.
           destruct (Hmono cur Hxk) as [_ ->]. intros Hv.
           by eapply expand_dir_covers.
        -- apply (expanded_upto_mono k pf pf' cur Hmono Hxk Hfr j d0);
             [lia|done].
      * by apply (expanded_upto_mono _ pf).
    + intros [= <-]. unfold frontier_inv; simpl.
      intros x Hx. apply list_elem_of_lookup_1 in Hx as [i Hi].
      specialize (Hfr i x Hi). destruct (decide _); [|done].
      by eapply expanded_upto_all.
Qed.

Lemma inv_search_step (c c' : config) :
  config_inv' c -> inv_search' (snd c) -> step' c c' ->
  inv_search' (snd c').
Proof.
  destruct c as [l pf]. intros [Hinv Hpc] Hs.
  unfold step, micro_step; simpl. simpl in Hinv, Hs.
  destruct l as [|k|e|q]; [| |done|done];
    unfold inv_pc, current_closed in Hpc; simpl in Hpc.
  - destruct (select_lowest pf) as [[i p]|] eqn:Hsel.
    + apply select_lowest_spec in Hsel as (Hi & _).
      destruct (at_end _ _ _) eqn:Hend; intros [= <-]; simpl.
      * by destruct Hs.
      * apply inv_search_close_current; [done|done|].
        intros Heq. apply (same_position _ _ end') in Heq.
        unfold at_end in Hend. simpl in Heq. congruence.
    + by intros [= <-].
  - destruct (m_Directions !! k) as [d|] eqn:Hd; [|by intros [= <-]].
    destruct Hpc as (cur & Hcur & Hlast). rewrite Hcur.
    destruct (expand_dir _ _ _ _ _ _ _) as [pf'|q] eqn:Hex;
      intros [= <-]; [|done].
    eapply inv_search_expand_dir; [done|done| |done|done].
    by eapply last_Some_elem_of.
Qed.

Lemma reachable_search (c : config) :
  reachable' c -> inv_search' (snd c) /\ frontier_inv m_Grid c.
Proof.
  revert c. apply rtc_ind_r.
  - split; [apply inv_search_seeded|]. intros x Hx. by apply elem_of_nil in Hx.
  - intros c c' Hreach Hstep [IHs IHf].
    pose proof (reachable_inv _ _ _ _ _ _ Hreach) as Hc.
    split; [by eapply inv_search_step|by eapply frontier_inv_step].
Qed.

(** At the loop's exit the closed nodes are closed under valid moves. *)
Lemma exhausted_covers (pf : PathFinder) (b : Position) :
  inv_search' pf -> m_OpenList pf = [] ->
  (forall x, x ∈ m_ClosedList pf -> expanded m_Grid pf x) ->
  connected m_Grid start' b -> b ∈ pos_of (nodes pf) <$> m_ClosedList pf.
Proof.
  intros Hs Hopen Hexp Hcon.
  assert (Hk : kept pf = m_ClosedList pf) by (unfold kept; by rewrite Hopen).
  induction Hcon as [|b d Hcon IH Hd Hv].
  - rewrite <- Hk. by destruct Hs.
  - apply list_elem_of_fmap in IH as (x & -> & Hx).
    apply list_elem_of_lookup_1 in Hd as [j Hj].
    rewrite <- Hk. apply (Hexp x Hx j d); [|done|done].
    apply lookup_lt_Some in Hj. done.
Qed.

Lemma search_loop_decides (fuel : nat) (e : loop_exit) (pf : PathFinder) :
  search_loop m_Grid p_EndX p_EndY fuel (seeded p_StartX p_StartY PathFinder_new)
  = Some (Ok (e, pf)) ->
  (e = GoalReached <-> connected m_Grid start' end').
Proof.
  intros Hloop. apply search_loop_steps in Hloop.
  pose proof (reachable_inv _ _ _ _ _ _ Hloop) as [Hinv Hpc].
  pose proof (reachable_search _ Hloop) as [Hs Hfr].
  unfold inv_pc in Hpc. unfold frontier_inv in Hfr. simpl in *.
  destruct e.
  - split; [intros _|done].
    destruct Hpc as (cur & Hcur & Hopen & Hend).
    apply (same_position _ _ end') in Hend. rewrite <- Hend.
    apply (is_connected _ _ _ _ _ _ Hs). by apply kept_open.
  - split; [done|]. intros Hcon. exfalso.
    destruct Hpc as (Hopen & _).
    pose proof (exhausted_covers pf end' Hs Hopen Hfr Hcon) as Hin.
    apply list_elem_of_fmap in Hin as (c & Hc & Hin).
    by apply (is_not_end _ _ _ _ _ _ Hs c Hin).
Qed.

(** ** G costs *)

Lemma gcost_bounded_seeded :
  gcost_bounded (seeded p_StartX p_StartY PathFinder_new).
Proof.
  split; simpl; [done|].
  intros o Ho. apply list_elem_of_singleton in Ho as ->. done.
Qed.

Lemma gcost_bounded_step (c c' : config) :
  in_bounds m_Grid start' ->
  14 * Z.of_nat (cells m_Grid) < 4294967296 ->
  config_inv' c -> gcost_bounded (snd c) -> step' c c' ->
  gcost_bounded (snd c').
Proof.
  intros Hstart Hsmall. destruct c as [l pf]. intros [Hinv Hpc] [Hbc Hbo].
  unfold step, micro_step; simpl. simpl in Hinv, Hbc, Hbo.
  destruct l as [|k|e|q]; [| |done|done];
    unfold inv_pc, current_closed in Hpc; simpl in Hpc.
  - destruct (select_lowest pf) as [[i p]|] eqn:Hsel; [|by intros [= <-]].
    apply select_lowest_spec in Hsel as (Hi & _).
    destruct (at_end _ _ _); intros [= <-]; [done|].
    split; simpl.
    + intros i0 c Hc. apply lookup_app_Some in Hc as [Hc|[Hlen Hc]].
      * by apply Hbc.
      * apply list_lookup_singleton_Some in Hc as [Hz <-].
        apply list_elem_of_lookup_2, Hbo in Hi. lia.
    + intros o Ho%list_elem_of_delete_inv. rewrite length_app. simpl.
      apply Hbo in Ho. lia.
  - destruct (m_Directions !! k) as [d|] eqn:Hd; [|by intros [= <-]].
    destruct Hpc as (cur & Hcur & Hlast). rewrite Hcur.
    destruct (expand_dir _ _ _ _ _ _ _) as [pf'|q] eqn:Hex;
      intros [= <-]; [|done]. simpl.
    pose proof (last_Some_elem_of _ _ Hlast) as Hin.
    assert (Hcg : 0 <= GetGCost (deref (nodes pf) cur)
                  /\ GetGCost (deref (nodes pf) cur) + step_cost k
                     <= 14 * Z.of_nat (length (m_ClosedList pf))
                  /\ 14 * Z.of_nat (length (m_ClosedList pf)) < 4294967296).
    { pose proof (inv_gcost _ _ _ _ Hinv cur (kept_closed _ _ Hin)) as [Hg0 _].
      rewrite last_lookup in Hlast. apply Hbc in Hlast.
      pose proof (kept_bound _ _ _ pf Hinv Hstart) as Hkb.
      unfold kept in Hkb. rewrite length_app in Hkb.
      apply list_elem_of_lookup_1 in Hin as [i0 Hi0].
      apply lookup_lt_Some in Hi0.
      unfold step_cost. destruct (k <? 4)%nat; lia. }
    destruct Hcg as (Hg0 & Hg1 & Hg2).
    assert (Hw : wrap32 (GetGCost (deref (nodes pf) cur) + step_cost k)
                 = GetGCost (deref (nodes pf) cur) + step_cost k).
    { apply wrap32_id. unfold uint32, step_cost in *.
      destruct (k <? 4)%nat; lia. }
    apply expand_dir_Ok in Hex. rewrite Hw in Hex.
    destruct Hex as [->|[(q & Ho & _ & Hup & ->)|(_ & _ & _ & ->)]].
    + done.
    + exfalso. unfold step_cost in Hup. destruct (k <? 4)%nat; lia.
    + assert (Hold : forall p, p ∈ kept pf ->
                deref (nodes pf ++ [SetHCost
                  (CalculateHeuristic p_EndX p_EndY (deref (nodes pf) cur))
                  (SetGCost (GetGCost (deref (nodes pf) cur) + step_cost k)
                     (Node_new
                        (X (neighbour (node_pos (deref (nodes pf) cur)) d))
                        (Y (neighbour (node_pos (deref (nodes pf) cur)) d))
                        (Some cur)))]) p = deref (nodes pf) p).
      { intros p Hp. apply deref_app_l. by apply (inv_valid _ _ _ _ Hinv). }
      split; simpl.
      * intros i0 c Hc. rewrite Hold; [by apply Hbc|].
        apply kept_closed. by eapply list_elem_of_lookup_2.
      * intros o [Ho|Ho]%elem_of_app.
        -- rewrite Hold by by apply kept_open. by apply Hbo.
        -- apply list_elem_of_singleton in Ho as ->.
           rewrite deref_app_new. simpl. done.
Qed.

Lemma reachable_gcost_bounded (c : config) :
  in_bounds m_Grid start' ->
  14 * Z.of_nat (cells m_Grid) < 4294967296 ->
  reachable' c -> gcost_bounded (snd c).
Proof.
  intros Hstart Hsmall. revert c. apply rtc_ind_r.
  - apply gcost_bounded_seeded.
  - intros c c' Hreach Hstep IH.
    eapply gcost_bounded_step; [done|done| |done|done].
    by apply reachable_inv.
Qed.

(** With G costs that small the sum of line 98 does not wrap. *)
Lemma gcost_exact (c : config) (p q : ptr) :
  in_bounds m_Grid start' ->
  14 * Z.of_nat (cells m_Grid) < 4294967296 ->
  reachable' c -> p ∈ kept (snd c) ->
  GetParentNode (deref (nodes (snd c)) p) = Some q ->
  exists k d, m_Directions !! k = Some d /\
    pos_of (nodes (snd c)) p = neighbour (pos_of (nodes (snd c)) q) d /\
    GetGCost (deref (nodes (snd c)) p)
    = GetGCost (deref (nodes (snd c)) q) + step_cost k.
Proof.
  intros Hstart Hsmall Hreach Hp Hpar.
  pose proof (reachable_inv _ _ _ _ _ _ Hreach) as [Hinv _].
  pose proof (reachable_search _ Hreach) as [Hs _].
  pose proof (reachable_gcost_bounded _ Hstart Hsmall Hreach) as [Hbc _].
  pose proof (is_glink _ _ _ _ _ _ Hs p Hp) as Hgl. rewrite Hpar in Hgl.
  destruct Hgl as (k & d & Hk & Hpos & Hg).
  exists k, d. split; [done|]. split; [done|]. rewrite Hg.
  apply wrap32_id.
  pose proof (parent_closed _ _ _ _ _ _ Hinv Hp Hpar) as Hq.
  pose proof (inv_gcost _ _ _ _ Hinv q (kept_closed _ _ Hq)) as [Hg0 _].
  apply list_elem_of_lookup_1 in Hq as [j Hj].
  pose proof (Hbc j q Hj) as Hb. apply lookup_lt_Some in Hj.
  pose proof (kept_bound _ _ _ _ Hinv Hstart) as Hkb.
  unfold kept in Hkb. rewrite length_app in Hkb.
  unfold uint32, step_cost. destruct (k <? 4)%nat; lia.
Qed.

(** On a grid that small the update of lines 105-109 never runs: a
    transition leaves the arena as it is or appends one node. *)
Lemma nodes_append_only (c c' : config) :
  in_bounds m_Grid start' ->
  14 * Z.of_nat (cells m_Grid) < 4294967296 ->
  reachable' c -> step' c c' ->
  nodes (snd c') = nodes (snd c)
  \/ exists n, nodes (snd c') = nodes (snd c) ++ [n].
Proof.
  intros Hstart Hsmall Hreach.
  pose proof (reachable_inv _ _ _ _ _ _ Hreach) as [Hinv Hpc].
  pose proof (reachable_gcost_bounded _ Hstart Hsmall Hreach) as [Hbc _].
  destruct c as [l pf]. unfold step, micro_step; simpl. simpl in Hinv, Hbc.
  destruct l as [|k|e|q]; [| |done|done];
    unfold inv_pc, current_closed in Hpc; simpl in Hpc.
  - destruct (select_lowest pf) as [[i p]|]; [|by intros [= <-]; left].
    destruct (at_end _ _ _); intros [= <-]; by left.
  - destruct (m_Directions !! k) as [d|]; [|by intros [= <-]; left].
    destruct Hpc as (cur & Hcur & Hlast). rewrite Hcur.
    destruct (expand_dir _ _ _ _ _ _ _) as [pf'|q] eqn:Hex;
      intros [= <-]; [|by left]. simpl.
    pose proof (last_Some_elem_of _ _ Hlast) as Hin.
    eapply update_only_on_overflow in Hex as [->|[n ->]];
      [by left|right; by exists n| |].
    + apply (inv_gcost _ _ _ _ Hinv). by apply kept_closed.
    + rewrite last_lookup in Hlast. apply Hbc in Hlast.
      pose proof (kept_bound _ _ _ pf Hinv Hstart) as Hkb.
      unfold kept in Hkb. rewrite length_app in Hkb.
      apply list_elem_of_lookup_1 in Hin as [i0 Hi0].
      apply lookup_lt_Some in Hi0.
      unfold step_cost. destruct (k <? 4)%nat; lia.
Qed.

(** ** The nodes of the closing walk *)

Lemma nodup_fmap_inj_on {A B : Type} (f : A -> B) (l : list A) (x y : A) :
  NoDup (f <$> l) -> x ∈ l -> y ∈ l -> f x = f y -> x = y.
Proof.
  induction l as [|a l IH]; [by intros _ Hx; apply elem_of_nil in Hx|].
  rewrite fmap_cons, NoDup_cons. intros [Ha Hnd].
  intros [->|Hx]%elem_of_cons [->|Hy]%elem_of_cons Heq; [done| | |by apply IH].
  - exfalso. apply Ha. rewrite Heq. by apply list_elem_of_fmap_2.
  - exfalso. apply Ha. rewrite <- Heq. by apply list_elem_of_fmap_2.
Qed.

Lemma nodup_fmap_sub {A B : Type} (f : A -> B) (l tr : list A) :
  NoDup (f <$> l) -> NoDup tr -> (forall x, x ∈ tr -> x ∈ l) ->
  NoDup (f <$> tr).
Proof.
  intros Hl Htr Hsub. apply NoDup_fmap_2_strong; [|done].
  intros x y Hx Hy. apply (nodup_fmap_inj_on f l); auto.
Qed.

(** The walk from the closed node of index [i] passes closed nodes of
    index at most [i], none twice. *)
Lemma walk_closed_below (pf : PathFinder) (f i : nat) (c : ptr)
    (tr : list ptr) :
  inv' pf -> m_ClosedList pf !! i = Some c ->
  walk_parents f (nodes pf) (Some c) = Some tr ->
  NoDup tr /\
  forall x, x ∈ tr -> exists j, (j <= i)%nat /\ m_ClosedList pf !! j = Some x.
Proof.
  intros Hinv. revert i c tr.
  induction f as [|f IH]; intros i c tr Hi; [done|]. simpl.
  destruct (walk_parents f (nodes pf) _) as [tr'|] eqn:Hw; [|done].
  simpl. intros [= <-].
  destruct (GetParentNode (deref (nodes pf) c)) as [q|] eqn:Hpar.
  - destruct (inv_closed_parent _ _ _ _ Hinv i c q Hi Hpar) as (j & Hj & Hq).
    destruct (IH j q tr' Hq Hw) as [Hnd Hbelow]. split.
    + apply NoDup_cons. split; [|done]. intros Hc.
      destruct (Hbelow c Hc) as (j' & Hj' & Hcj').
      assert (Hndc : NoDup (m_ClosedList pf)).
      { pose proof (inv_nodup _ _ _ _ Hinv) as Hndk.
        apply NoDup_fmap_1 in Hndk. unfold kept in Hndk.
        by apply NoDup_app in Hndk as (_ & _ & ?). }
      pose proof (NoDup_lookup _ _ _ _ Hndc Hi Hcj'). lia.
    + intros x [->|Hx]%elem_of_cons; [by exists i|].
      destruct (Hbelow x Hx) as (j' & Hj' & Hxj'). exists j'. split; [lia|done].
  - destruct f; simpl in Hw; injection Hw as <-.
    + split; [apply NoDup_singleton|].
      intros x ->%list_elem_of_singleton. by exists i.
    + split; [apply NoDup_singleton|].
      intros x ->%list_elem_of_singleton. by exists i.
Qed.

(** The walk from a kept node passes kept nodes, none twice. *)
Lemma walk_kept (pf : PathFinder) (f : nat) (p : ptr) (tr : list ptr) :
  inv' pf -> p ∈ kept pf ->
  walk_parents f (nodes pf) (Some p) = Some tr ->
  NoDup tr /\ forall x, x ∈ tr -> x ∈ kept pf.
Proof.
  intros Hinv Hp Hw. apply elem_of_app in Hp as [Hp|Hp].
  - destruct f as [|f]; [done|]. simpl in Hw.
    destruct (walk_parents f (nodes pf) _) as [tr'|] eqn:Hw'; [|done].
    injection Hw as <-.
    destruct (GetParentNode (deref (nodes pf) p)) as [q|] eqn:Hpar.
    + pose proof (inv_open_parent _ _ _ _ Hinv p q Hp Hpar) as Hq.
      apply list_elem_of_lookup_1 in Hq as [j Hj].
      destruct (walk_closed_below pf f j q tr' Hinv Hj Hw') as [Hnd Hbelow].
      assert (Hcl : forall x, x ∈ tr' -> x ∈ m_ClosedList pf).
      { intros x Hx. destruct (Hbelow x Hx) as (j' & _ & Hx').
        by eapply list_elem_of_lookup_2. }
      split.
      * apply NoDup_cons. split; [|done]. intros Hin%Hcl.
        eapply nodup_fmap_disjoint; [|exact Hp|exact Hin].
        exact (inv_nodup _ _ _ _ Hinv).
      * intros x [->|Hx]%elem_of_cons; [by apply kept_open|].
        by apply kept_closed, Hcl.
    + destruct f; simpl in Hw'; injection Hw' as <-;
        (split; [apply NoDup_singleton|]);
        intros x ->%list_elem_of_singleton; by apply kept_open.
  - apply list_elem_of_lookup_1 in Hp as [i Hi].
    destruct (walk_closed_below pf f i p tr Hinv Hi Hw) as [Hnd Hbelow].
    split; [done|]. intros x Hx. destruct (Hbelow x Hx) as (j & _ & Hj).
    apply kept_closed. by eapply list_elem_of_lookup_2.
Qed.

(** What [CalculatePath] returns in terms of the state at the loop's
    exit. *)
Lemma CalculatePath_Ok (fuel : nat) (r : run) :
  CalculatePath m_Grid p_StartX p_StartY p_EndX p_EndY fuel PathFinder_new
  = Some (Ok r) ->
  exists pf cur tr,
    search_loop m_Grid p_EndX p_EndY fuel
      (seeded p_StartX p_StartY PathFinder_new) = Some (Ok (how r, pf)) /\
    reachable' (Exited (how r), pf) /\
    m_Current pf = Some cur /\ cur ∈ kept pf /\
    walk_parents (length (nodes pf)) (nodes pf) (Some cur) = Some tr /\
    visited r = pos_of (nodes pf) <$> tr /\
    final r = mkPathFinder [] (m_OpenList pf) (m_ClosedList pf) None.
Proof.
  unfold CalculatePath.
  destruct (search_loop _ _ _ _ _) as [[[e pf]|q]|] eqn:Hloop; [|done|done].
  pose proof (search_loop_steps _ _ _ _ _ _ _ Hloop) as Hreach.
  pose proof (reachable_inv _ _ _ _ _ _ Hreach) as [Hinv Hpc].
  unfold inv_pc, current_closed in Hpc; simpl in Hpc, Hinv.
  assert (Hcur : exists cur, m_Current pf = Some cur /\ cur ∈ kept pf).
  { destruct e.
    - destruct Hpc as (cur & Hcur & Hopen & _). exists cur.
      split; [done|by apply kept_open].
    - destruct Hpc as (_ & cur & Hcur & Hlast). exists cur.
      split; [done|]. by eapply kept_closed, last_Some_elem_of. }
  destruct Hcur as (cur & Hcur & Hk). rewrite Hcur.
  destruct (walk_parents _ _ _) as [tr|] eqn:Hw; [|done]. simpl.
  intros [= <-]. exists pf, cur, tr. done.
Qed.

Lemma path_cost_cons (a b : Position) (r : list Position) :
  path_cost (a :: b :: r) = link_cost a b + path_cost (b :: r).
Proof. done. Qed.

Lemma link_cost_neighbour (b d : Position) (k : nat) :
  int16 (X b) -> int16 (Y b) -> m_Directions !! k = Some d ->
  link_cost (neighbour b d) b = step_cost k.
Proof.
  unfold int16, link_cost, neighbour, wrap16. intros Hx Hy.
  do 8 (destruct k as [|k];
        [intros [= <-]; simpl; unfold step_cost; simpl;
         repeat match goal with
                | |- context [?a =? ?b] => destruct (Z.eqb_spec a b)
                end; simpl; try done;
         exfalso; Z.div_mod_to_equations; lia|]).
  done.
Qed.

(** The G cost of a kept node is the cost of the walk from it. *)
Lemma walk_cost (c : config) (f : nat) (p : ptr) (tr : list ptr) :
  in_bounds m_Grid start' ->
  14 * Z.of_nat (cells m_Grid) < 4294967296 ->
  int16 p_StartX -> int16 p_StartY ->
  reachable' c -> p ∈ kept (snd c) ->
  walk_parents f (nodes (snd c)) (Some p) = Some tr ->
  GetGCost (deref (nodes (snd c)) p)
  = path_cost (pos_of (nodes (snd c)) <$> tr).
Proof.
  intros Hstart Hsmall Hsx Hsy Hreach.
  pose proof (reachable_inv _ _ _ _ _ _ Hreach) as [Hinv _].
  pose proof (reachable_search _ Hreach) as [Hs _].
  pose proof (reachable_int16 _ _ _ _ _ _ Hsx Hsy Hreach) as Hint.
  revert p tr. induction f as [|f IH]; intros p tr Hp; [done|]. simpl.
  destruct (walk_parents f _ _) as [tr'|] eqn:Hw; [|done].
  simpl. intros [= <-].
  destruct (GetParentNode (deref (nodes (snd c)) p)) as [q|] eqn:Hpar.
  - destruct (gcost_exact c p q Hstart Hsmall Hreach Hp Hpar)
      as (k & d & Hk & Hpos & Hg).
    assert (Hq : q ∈ kept (snd c)).
    { apply kept_closed. by eapply parent_closed. }
    pose proof (IH q tr' Hq Hw) as IHq.
    destruct f as [|f']; [done|]. simpl in Hw.
    destruct (walk_parents f' _ _) as [tr''|]; [|done].
    injection Hw as <-. rewrite Hg, !fmap_cons, path_cost_cons.
    rewrite fmap_cons in IHq. rewrite <- IHq.
    rewrite Hpos, (link_cost_neighbour _ d k); [lia| | |done];
      by apply (Hint q Hq).
  - destruct f; simpl in Hw; injection Hw as <-; simpl;
      pose proof (is_glink _ _ _ _ _ _ Hs p Hp) as Hgl;
      by rewrite Hpar in Hgl.
Qed.

End SearchFacts.

(** ** Lookup of a node by cell *)

(** X1. [DoesNodeExist] returns the first node of the vector that lies on
    the given cell, and null exactly when no node of the vector lies
    there. *)
Theorem DoesNodeExist_first_match (h : list Node) (l : list ptr)
    (fp : Position) :
  match DoesNodeExist h l fp with
  | Some q =>
      exists i, l !! i = Some q /\ pos_of h q = fp /\
        forall j x, (j < i)%nat -> l !! j = Some x -> pos_of h x <> fp
  | None => forall x, x ∈ l -> pos_of h x <> fp
  end.
Proof.
  induction l as [|p l IH]; simpl.
  - intros x Hx. by apply elem_of_nil in Hx.
  - destruct (_ && _) eqn:E.
    + apply same_position in E. exists 0%nat. split; [done|]. split; [done|].
      intros j x Hj. lia.
    + assert (Hp : pos_of h p <> fp).
      { intros Heq. apply same_position in Heq. congruence. }
      destruct (DoesNodeExist h l fp) as [q|].
      * destruct IH as (i & Hi & Hq & Hfirst). exists (S i).
        split; [done|]. split; [done|].
        intros [|j] x Hj; simpl; [by intros [= <-]|].
        apply Hfirst. lia.
      * intros x [->|Hx]%elem_of_cons; [done|by apply IH].
Qed.

(** ** What the search decides *)

(** X2. When the search loop ends without a grid access out of range, it
    ends by reaching the end cell exactly when the end cell is connected
    to the start cell by moves in the eight directions over cells that
    pass [CheckValidTile]; it ends on an empty open list exactly when
    there is no such connection. *)
Theorem search_decides_connection (g : GridArray) (sx sy ex ey : Z)
    (fuel : nat) (e : loop_exit) (pf : PathFinder) :
  search_loop g ex ey fuel (seeded sx sy PathFinder_new) = Some (Ok (e, pf)) ->
  (e = GoalReached <-> connected g (mkPosition sx sy) (mkPosition ex ey)).
Proof. apply search_loop_decides. Qed.

Lemma search_decides_connection_witness :
  search_loop room_cell 0 0 10 (seeded 1 1 PathFinder_new)
  = Some (Ok (OpenExhausted,
              mkPathFinder [Node_new 1 1 None] [] [0%nat] (Some 0%nat))) /\
  ~ connected room_cell (mkPosition 1 1) (mkPosition 0 0).
Proof.
  assert (H : search_loop room_cell 0 0 10 (seeded 1 1 PathFinder_new)
    = Some (Ok (OpenExhausted,
                mkPathFinder [Node_new 1 1 None] [] [0%nat] (Some 0%nat))))
    by reflexivity.
  split; [exact H|]. intros Hcon.
  by apply (search_decides_connection room_cell 1 1 0 0 10 _ _ H) in Hcon.
Defined.

(** ** The cells of the closing walk *)

(** X3. The cells the closing loop passes over are pairwise distinct: the
    walk up the parent links never comes back to a cell. *)
Theorem visited_cells_distinct (g : GridArray) (sx sy ex ey : Z)
    (fuel : nat) (r : run) :
  CalculatePath g sx sy ex ey fuel PathFinder_new = Some (Ok r) ->
  NoDup (visited r).
Proof.
  intros Hcall.
  apply CalculatePath_Ok in Hcall
    as (pf & cur & tr & _ & Hreach & _ & Hk & Hw & -> & _).
  pose proof (reachable_inv _ _ _ _ _ _ Hreach) as [Hinv _]. simpl in Hinv.
  destruct (walk_kept g sx sy pf _ cur tr Hinv Hk Hw) as [Hnd Hsub].
  eapply nodup_fmap_sub; [|done|done]. exact (inv_nodup _ _ _ _ Hinv).
Qed.

Lemma visited_cells_distinct_witness :
  CalculatePath room_bend 3 3 2 1 26 PathFinder_new
  = Some (Ok (mkRun GoalReached
                [mkPosition 2 1; mkPosition 1 2; mkPosition 2 3;
                 mkPosition 3 3]
                (mkPathFinder [] [4%nat] [0%nat; 1%nat; 3%nat; 2%nat] None)))
  /\ NoDup [mkPosition 2 1; mkPosition 1 2; mkPosition 2 3; mkPosition 3 3].
Proof.
  assert (H : CalculatePath room_bend 3 3 2 1 26 PathFinder_new
    = Some (Ok (mkRun GoalReached
                  [mkPosition 2 1; mkPosition 1 2; mkPosition 2 3;
                   mkPosition 3 3]
                  (mkPathFinder [] [4%nat] [0%nat; 1%nat; 3%nat; 2%nat] None))))
    by reflexivity.
  split; [exact H|].
  exact (visited_cells_distinct room_bend 3 3 2 1 26 _ H).
Defined.

(** X4. Every cell the closing loop passes over is connected to the
    start cell over valid cells; apart from the start cell itself, each
    is a cell of the grid whose marker is not ['X']. *)
Theorem visited_cells_walkable (g : GridArray) (sx sy ex ey : Z)
    (fuel : nat) (r : run) (c : Position) :
  CalculatePath g sx sy ex ey fuel PathFinder_new = Some (Ok r) ->
  c ∈ visited r ->
  connected g (mkPosition sx sy) c /\
  (c = mkPosition sx sy \/
   exists m, grid_at g c = Some m /\ m <> "X"%char).
Proof.
  intros Hcall Hc.
  apply CalculatePath_Ok in Hcall
    as (pf & cur & tr & _ & Hreach & _ & Hk & Hw & Hvis & _).
  rewrite Hvis in Hc.
  pose proof (reachable_inv _ _ _ _ _ _ Hreach) as [Hinv _].
  pose proof (reachable_search _ _ _ _ _ _ Hreach) as [Hs _].
  simpl in Hinv, Hs.
  destruct (walk_kept g sx sy pf _ cur tr Hinv Hk Hw) as [_ Hsub].
  apply list_elem_of_fmap in Hc as (x & -> & Hx).
  pose proof (is_connected _ _ _ _ _ _ Hs x (Hsub x Hx)) as Hcon.
  split; [done|].
  destruct (connected_valid _ _ _ Hcon) as [Heq|Hv]; [by left|right].
  unfold CheckValidTile in Hv.
  destruct (grid_at g (pos_of (nodes pf) x)) as [m|]; [|done].
  exists m. split; [done|]. simpl in Hv.
  destruct (Ascii.eqb_spec m "X"); [done|done].
Qed.

Lemma visited_cells_walkable_witness :
  CalculatePath room_bend 3 3 2 1 26 PathFinder_new
  = Some (Ok (mkRun GoalReached
                [mkPosition 2 1; mkPosition 1 2; mkPosition 2 3;
                 mkPosition 3 3]
                (mkPathFinder [] [4%nat] [0%nat; 1%nat; 3%nat; 2%nat] None)))
  /\ connected room_bend (mkPosition 3 3) (mkPosition 1 2).
Proof.
  assert (H : CalculatePath room_bend 3 3 2 1 26 PathFinder_new
    = Some (Ok (mkRun GoalReached
                  [mkPosition 2 1; mkPosition 1 2; mkPosition 2 3;
                   mkPosition 3 3]
                  (mkPathFinder [] [4%nat] [0%nat; 1%nat; 3%nat; 2%nat] None))))
    by reflexivity.
  split; [exact H|].
  apply (visited_cells_walkable room_bend 3 3 2 1 26 _ (mkPosition 1 2) H).
  simpl. right. left.
Defined.

(** ** Path cost *)

(** X5. On a grid of fewer than 2^32 / 14 cells, started inside the
    grid, the G cost of every kept node is the cost of the walk up the
    parent links from it: 10 for every step that keeps a coordinate, 14
    for every step that changes both. *)
Theorem gcost_is_walk_cost (g : GridArray) (sx sy ex ey : Z) (c : config)
    (f : nat) (p : ptr) (tr : list ptr) :
  in_bounds g (mkPosition sx sy) ->
  14 * Z.of_nat (cells g) < 4294967296 ->
  int16 sx -> int16 sy ->
  reachable g sx sy ex ey c ->
  p ∈ m_OpenList (snd c) ++ m_ClosedList (snd c) ->
  walk_parents f (nodes (snd c)) (Some p) = Some tr ->
  GetGCost (deref (nodes (snd c)) p)
  = path_cost (pos_of (nodes (snd c)) <$> tr).
Proof. apply walk_cost. Qed.

Lemma gcost_is_walk_cost_witness :
  in_bounds room_bend (mkPosition 3 3) /\
  14 * Z.of_nat (cells room_bend) < 4294967296 /\
  int16 3 /\
  reachable room_bend 3 3 2 1 room_bend_exit /\
  4%nat ∈ m_OpenList (snd room_bend_exit) ++ m_ClosedList (snd room_bend_exit)
  /\
  walk_parents 5 (nodes (snd room_bend_exit)) (Some 4%nat)
  = Some [4%nat; 3%nat; 1%nat; 0%nat] /\
  GetGCost (deref (nodes (snd room_bend_exit)) 4%nat) = 14 + 14 + 10.
Proof.
  assert (H1 : in_bounds room_bend (mkPosition 3 3)) by (by eexists).
  assert (H2 : 14 * Z.of_nat (cells room_bend) < 4294967296) by reflexivity.
  assert (H3 : int16 3) by (unfold int16; lia).
  assert (H4 : reachable room_bend 3 3 2 1 room_bend_exit).
  { apply (micro_steps_rtc room_bend 2 1 41). reflexivity. }
  assert (H5 : 4%nat ∈ m_OpenList (snd room_bend_exit)
                       ++ m_ClosedList (snd room_bend_exit)) by (by left).
  assert (H6 : walk_parents 5 (nodes (snd room_bend_exit)) (Some 4%nat)
               = Some [4%nat; 3%nat; 1%nat; 0%nat]) by reflexivity.
  repeat (split; [assumption|]).
  exact (gcost_is_walk_cost room_bend 3 3 2 1 room_bend_exit 5 4%nat _
           H1 H2 H3 H3 H4 H5 H6).
Defined.

(** ** The update branch *)

(** X6. On a grid of fewer than 2^32 / 14 cells, started inside the
    grid, no transition of the search changes a node that exists: the
    arena stays as it is or grows by one node, so the update of an open
    node (lines 105-109) never runs. *)
Theorem existing_nodes_never_change (g : GridArray) (sx sy ex ey : Z)
    (c c' : config) :
  in_bounds g (mkPosition sx sy) ->
  14 * Z.of_nat (cells g) < 4294967296 ->
  reachable g sx sy ex ey c -> step g ex ey c c' ->
  nodes (snd c') = nodes (snd c)
  \/ exists n, nodes (snd c') = nodes (snd c) ++ [n].
Proof. apply nodes_append_only. Qed.

Lemma existing_nodes_never_change_witness :
  in_bounds room_bend (mkPosition 3 3) /\
  14 * Z.of_nat (cells room_bend) < 4294967296 /\
  reachable room_bend 3 3 2 1 room_bend_dir2 /\
  step room_bend 2 1 room_bend_dir2 (after room_bend 3 3 2 1 34) /\
  (nodes (snd (after room_bend 3 3 2 1 34)) = nodes (snd room_bend_dir2)
   \/ exists n, nodes (snd (after room_bend 3 3 2 1 34))
                = nodes (snd room_bend_dir2) ++ [n]).
Proof.
  assert (H1 : in_bounds room_bend (mkPosition 3 3)) by (by eexists).
  assert (H2 : 14 * Z.of_nat (cells room_bend) < 4294967296) by reflexivity.
  assert (H3 : reachable room_bend 3 3 2 1 room_bend_dir2).
  { apply (micro_steps_rtc room_bend 2 1 33). reflexivity. }
  assert (H4 : step room_bend 2 1 room_bend_dir2 (after room_bend 3 3 2 1 34))
    by reflexivity.
  repeat (split; [assumption|]).
  exact (existing_nodes_never_change room_bend 3 3 2 1 _ _ H1 H2 H3 H4).
Defined.

(** ** Allocation and [CleanUp] *)

Lemma kept_all_step (g : GridArray) (sx sy ex ey : Z) (c c' : config) :
  config_inv g sx sy ex ey c ->
  length (kept (snd c)) = length (nodes (snd c)) ->
  step g ex ey c c' ->
  length (kept (snd c')) = length (nodes (snd c')).
Proof.
  destruct c as [l pf]. intros [Hinv Hpc] Hlen.
  unfold step, micro_step; simpl. simpl in Hinv, Hlen.
  destruct l as [|k|e|q]; [| |done|done].
  - destruct (select_lowest pf) as [[i p]|] eqn:Hsel; [|by intros [= <-]].
    apply select_lowest_spec in Hsel as (Hi & _).
    destruct (at_end _ _ _); intros [= <-]; [done|].
    by rewrite (kept_close_current pf i p Hi).
  - destruct (m_Directions !! k) as [d|]; [|by intros [= <-]].
    destruct (m_Current pf) as [cur|]; [|done].
    destruct (expand_dir _ _ _ _ _ _ _) as [pf'|q] eqn:Hex;
      intros [= <-]; [|done]. simpl.
    apply expand_dir_Ok in Hex.
    destruct Hex as [->|[(q & _ & _ & _ & ->)|(_ & _ & _ & ->)]].
    + done.
    + unfold update_node, kept in *; simpl. by rewrite length_insert.
    + unfold push_open_new, kept in *; simpl.
      rewrite !length_app in *. simpl. lia.
Qed.

(** X7. In every configuration of the search the open and the closed
    vector together hold each node allocated so far exactly once; so the
    two loops of [CleanUp] delete every node of the call, and none
    twice. *)
Theorem every_node_kept_once (g : GridArray) (sx sy ex ey : Z) (c : config) :
  reachable g sx sy ex ey c ->
  m_OpenList (snd c) ++ m_ClosedList (snd c)
  ≡ₚ seq 0 (length (nodes (snd c))).
Proof.
  intros Hreach.
  pose proof (reachable_inv _ _ _ _ _ _ Hreach) as [Hinv _].
  assert (Hlen : length (kept (snd c)) = length (nodes (snd c))).
  { revert c Hreach Hinv. apply (rtc_ind_r
      (fun c => inv g sx sy (snd c) ->
                length (kept (snd c)) = length (nodes (snd c)))).
    - done.
    - intros c c' Hreach Hstep IH _.
      pose proof (reachable_inv _ _ _ _ _ _ Hreach) as Hc.
      eapply kept_all_step; [exact Hc| |exact Hstep]. apply IH, Hc. }
  apply submseteq_length_Permutation.
  - apply NoDup_submseteq.
    + eapply NoDup_fmap_1. exact (inv_nodup _ _ _ _ Hinv).
    + intros p Hp. apply elem_of_seq.
      pose proof (inv_valid _ _ _ _ Hinv p Hp). lia.
  - rewrite length_seq. unfold kept in Hlen. lia.
Qed.

Lemma every_node_kept_once_witness :
  reachable room_bend 3 3 2 1 room_bend_exit /\
  m_OpenList (snd room_bend_exit) ++ m_ClosedList (snd room_bend_exit)
  ≡ₚ seq 0 (length (nodes (snd room_bend_exit))).
Proof.
  assert (H : reachable room_bend 3 3 2 1 room_bend_exit).
  { apply (micro_steps_rtc room_bend 2 1 41). reflexivity. }
  split; [exact H|]. exact (every_node_kept_once _ _ _ _ _ _ H).
Defined.

(** ** The heuristic *)

(** X8. For [int16] coordinates the cast of [CalculateHeuristic] changes
    nothing: the result is ten times the Manhattan distance to the end
    cell, at most 1310700, and it is 0 exactly on the end cell. *)
Theorem CalculateHeuristic_range (ex ey : Z) (n : Node) :
  int16 (GetPositionX n) -> int16 (GetPositionY n) ->
  int16 ex -> int16 ey ->
  CalculateHeuristic ex ey n
  = 10 * (Z.abs (GetPositionX n - ex) + Z.abs (GetPositionY n - ey)) /\
  0 <= CalculateHeuristic ex ey n <= 1310700 /\
  (CalculateHeuristic ex ey n = 0 <-> at_end ex ey n = true).
Proof.
  intros Hx Hy Hex Hey.
  rewrite (CalculateHeuristic_manhattan ex ey n Hx Hy Hex Hey).
  unfold int16, at_end in *. rewrite andb_true_iff, !Z.eqb_eq.
  repeat split; lia.
Qed.

Lemma CalculateHeuristic_range_witness :
  int16 1 /\ int16 2 /\
  CalculateHeuristic 2 2 (Node_new 1 2 None) = 10 /\
  at_end 2 2 (Node_new 1 2 None) = false.
Proof.
  assert (H1 : int16 1) by (unfold int16; lia).
  assert (H2 : int16 2) by (unfold int16; lia).
  split; [exact H1|]. split; [exact H2|].
  split; [|reflexivity].
  exact (proj1 (CalculateHeuristic_range 2 2 (Node_new 1 2 None) H1 H2 H2 H2)).
Defined.

(** * Shared helpers *)

(** ** Bits and characters *)

Lemma land_shifted_low (a b n : Z) :
  0 <= n -> 0 <= b < 2 ^ n -> Z.land (a * 2 ^ n) b = 0.
Proof.
  intros Hn Hb. apply Z.bits_inj'. intros i Hi.
  rewrite Z.land_spec, Z.bits_0.
  destruct (Z.lt_ge_cases i n) as [Hlt|Hge].
  - by rewrite Z.mul_pow2_bits_low.
  - destruct (Z.eq_dec b 0) as [->|Hb0].
    + by rewrite Z.bits_0, andb_false_r.
    + rewrite (Z.bits_above_log2 b i), andb_false_r; [done|lia|].
      apply Z.log2_lt_pow2; [lia|].
      pose proof (Z.pow_le_mono_r 2 n i). lia.
Qed.

Lemma lor_shifted_low (a b n : Z) :
  0 <= n -> 0 <= b < 2 ^ n -> Z.lor (a * 2 ^ n) b = a * 2 ^ n + b.
Proof.
  intros Hn Hb. pose proof (Z.add_lor_land (a * 2 ^ n) b) as Hadd.
  rewrite land_shifted_low in Hadd by done. lia.
Qed.

Lemma land_low (a n : Z) : 0 <= n -> Z.land a (2 ^ n - 1) = a mod 2 ^ n.
Proof.
  intros Hn. rewrite <- Z.land_ones by done. f_equal.
  rewrite Z.ones_equiv. lia.
Qed.

Lemma Z_of_char_of_Z (z : Z) :
  0 <= z < 128 -> Shared.Z_of_char (Shared.char_of_Z z) = z.
Proof.
  intros Hz. unfold Shared.Z_of_char, Shared.char_of_Z.
  rewrite Z.mod_small by lia. rewrite N_ascii_embedding by lia.
  rewrite Z2N.id by lia. destruct (Z.ltb_spec z 128); [done|lia].
Qed.

Lemma checked_int_Some (z : Z) :
  Shared.int32 z -> Shared.checked_int z = Some z.
Proof.
  unfold Shared.int32, Shared.checked_int. intros Hz.
  destruct (Z.leb_spec (-2147483648) z); [|lia].
  destruct (Z.leb_spec z 2147483647); [done|lia].
Qed.

(** ** Byte order *)

Lemma ConvertEndian_swap (v : Z) :
  0 <= v < 65536 -> Shared.ConvertEndian v = (v mod 256) * 256 + v / 256.
Proof.
  intros Hv. unfold Shared.ConvertEndian.
  rewrite Z.shiftr_land. change (Z.shiftr 65280 8) with (2 ^ 8 - 1).
  change 255 with (2 ^ 8 - 1). rewrite !land_low by lia.
  rewrite Z.shiftl_mul_pow2, Z.shiftr_div_pow2 by lia.
  change (2 ^ 8) with 256.
  assert (Hhi : 0 <= v / 256 < 256).
  { split; [apply Z.div_pos; lia|apply Z.div_lt_upper_bound; lia]. }
  rewrite (Z.mod_small (v / 256)) by done.
  change 256 with (2 ^ 8) at 2. rewrite lor_shifted_low by (simpl; lia).
  change (2 ^ 8) with 256.
  pose proof (Z.mod_pos_bound v 256). rewrite Z.mod_small; lia.
Qed.

(** X9. On a 16-bit value [ConvertEndian] exchanges the low and the high
    byte; the result is again a 16-bit value, and converting twice gives
    the value back. *)
Theorem ConvertEndian_involutive (v : Z) :
  0 <= v < 65536 ->
  Shared.ConvertEndian v = (v mod 256) * 256 + v / 256 /\
  0 <= Shared.ConvertEndian v < 65536 /\
  Shared.ConvertEndian (Shared.ConvertEndian v) = v.
Proof.
  intros Hv. rewrite (ConvertEndian_swap v Hv).
  pose proof (Z.mod_pos_bound v 256).
  assert (Hhi : 0 <= v / 256 < 256).
  { split; [apply Z.div_pos; lia|apply Z.div_lt_upper_bound; lia]. }
  split; [done|]. split; [lia|].
  rewrite ConvertEndian_swap by lia.
  replace ((v mod 256 * 256 + v / 256) mod 256) with (v / 256).
  2: { rewrite Z.add_comm, Z.mod_add by lia. by rewrite Z.mod_small. }
  replace ((v mod 256 * 256 + v / 256) / 256) with (v mod 256).
  2: { rewrite Z.add_comm, Z.div_add by lia.
       rewrite (Z.div_small (v / 256)) by done. lia. }
  pose proof (Z.div_mod v 256). lia.
Qed.

Lemma ConvertEndian_involutive_witness :
  0 <= 4660 < 65536 /\
  Shared.ConvertEndian 4660 = 13330 /\
  Shared.ConvertEndian (Shared.ConvertEndian 4660) = 4660.
Proof.
  assert (H : 0 <= 4660 < 65536) by lia.
  split; [exact H|].
  destruct (ConvertEndian_involutive 4660 H) as (Hs & _ & Hi).
  split; [exact Hs|exact Hi].
Defined.

(** ** Base-64 *)

(** X10. Decoding the two characters that [EncodeBase64] produces gives
    the value back modulo 4096: the value itself when it is below 4096,
    its twelve low bits otherwise. Both characters lie in the range
    ['@'..DEL]. *)
Theorem DecodeBase64_EncodeBase64 (v : Z) :
  0 <= v < 4294967296 ->
  Shared.DecodeBase64 (Shared.EncodeBase64 v) = Some (v mod 4096) /\
  Forall (fun c => 64 <= Shared.Z_of_char c <= 127) (Shared.EncodeBase64 v).
Proof.
  intros Hv. unfold Shared.EncodeBase64, Shared.DecodeBase64. simpl.
  change 63 with (2 ^ 6 - 1). rewrite !land_low by lia.
  rewrite Z.shiftr_div_pow2, Z.shiftr_0_r by lia. change (2 ^ 6) with 64.
  pose proof (Z.mod_pos_bound v 64) as H0.
  pose proof (Z.mod_pos_bound (v / 64) 64) as H1.
  rewrite !(Z.mod_small (64 + _) 256) by lia.
  split.
  - unfold reverse; simpl.
    rewrite (Z_of_char_of_Z (64 + v mod 64)) by lia.
    rewrite (Z_of_char_of_Z (64 + v / 64 mod 64)) by lia.
    replace (64 + v mod 64 - 64) with (v mod 64) by lia.
    replace (64 + v / 64 mod 64 - 64) with (v / 64 mod 64) by lia.
    rewrite (Z_of_char_of_Z (v mod 64)) by lia.
    rewrite (Z_of_char_of_Z (v / 64 mod 64)) by lia.
    assert (Hr : v mod 4096 = v mod 64 + v / 64 mod 64 * 64).
    { change 4096 with (64 * 64). rewrite Z.rem_mul_r by lia. lia. }
    rewrite Hr. change (64 ^ Z.of_nat 1) with 64.
    rewrite (checked_int_Some (0 + v mod 64)) by (unfold Shared.int32; lia).
    simpl.
    rewrite (checked_int_Some (v / 64 mod 64 * 64))
      by (unfold Shared.int32; lia).
    simpl. rewrite checked_int_Some by (unfold Shared.int32; lia).
    done.
  - repeat constructor; rewrite Z_of_char_of_Z; lia.
Qed.

Lemma DecodeBase64_EncodeBase64_witness :
  0 <= 100 < 4294967296 /\
  Shared.EncodeBase64 100 = ["A"; "d"]%char /\
  Shared.DecodeBase64 (Shared.EncodeBase64 100) = Some 100.
Proof.
  assert (H : 0 <= 100 < 4294967296) by lia.
  split; [exact H|]. split; [reflexivity|].
  exact (proj1 (DecodeBase64_EncodeBase64 100 H)).
Defined.

(** ** Wire encoding *)

Lemma wired_digits_Some (n k : nat) (w : Z) :
  0 <= w < 64 ^ Z.of_nat k -> (k <= n)%nat ->
  exists ds, Shared.wired_digits n w = Some ds /\ (length ds <= k)%nat.
Proof.
  revert n w. induction k as [|k IH]; intros n w Hw Hkn.
  - simpl in Hw. assert (w = 0) as -> by lia. exists [].
    split; [by destruct n|done].
  - destruct n as [|n]; [lia|].
    cbn [Shared.wired_digits]. destruct (Z.eqb_spec w 0) as [->|Hw0].
    + exists []. split; [done|simpl; lia].
    + destruct (IH n (Z.shiftr w 6)) as (ds & Hds & Hlen); [|lia|].
      { rewrite Z.shiftr_div_pow2 by lia. change (2 ^ 6) with 64.
        rewrite Nat2Z.inj_succ, Z.pow_succ_r in Hw by lia.
        split; [apply Z.div_pos; lia|apply Z.div_lt_upper_bound; lia]. }
      rewrite Hds. simpl. eexists. split; [done|]. simpl. lia.
Qed.

Lemma wired_digits_long (n j : nat) (w : Z) (ds : list Z) :
  Shared.wired_digits n w = Some ds -> 64 ^ Z.of_nat j <= w ->
  (j < length ds)%nat.
Proof.
  revert n w ds. induction j as [|j IH]; intros n w ds Hds Hw.
  - simpl in Hw. destruct n as [|n]; cbn [Shared.wired_digits] in Hds;
      destruct (Z.eqb_spec w 0) as [->|_]; try lia; [done|].
    destruct (Shared.wired_digits n (Z.shiftr w 6)); [|done].
    injection Hds as <-. simpl. lia.
  - rewrite Nat2Z.inj_succ, Z.pow_succ_r in Hw by lia.
    assert (Hp : 0 < 64 ^ Z.of_nat j) by (apply Z.pow_pos_nonneg; lia).
    destruct n as [|n]; cbn [Shared.wired_digits] in Hds;
      destruct (Z.eqb_spec w 0) as [->|_]; try lia; [done|].
    destruct (Shared.wired_digits n (Z.shiftr w 6)) as [rest|] eqn:Hrest;
      [|done].
    injection Hds as <-. simpl.
    apply IH in Hrest; [lia|].
    rewrite Z.shiftr_div_pow2 by lia. change (2 ^ 6) with 64.
    apply Z.div_le_lower_bound; lia.
Qed.

Lemma wired_digits_range (n : nat) (w : Z) (ds : list Z) :
  Shared.wired_digits n w = Some ds -> Forall (fun d => 64 <= d < 128) ds.
Proof.
  revert w ds. induction n as [|n IH]; intros w ds;
    cbn [Shared.wired_digits]; destruct (Z.eqb_spec w 0) as [->|_];
    try (by intros [= <-]); try done.
  destruct (Shared.wired_digits n (Z.shiftr w 6)) as [rest|] eqn:Hrest;
    [|done].
  intros [= <-]. constructor; [|by eapply IH].
  change 63 with (2 ^ 6 - 1). rewrite land_low by lia.
  pose proof (Z.mod_pos_bound w (2 ^ 6) ltac:(lia)). lia.
Qed.

Lemma char_of_Z_not_null (z : Z) :
  64 <= z < 128 -> Shared.char_of_Z z <> Shared.null.
Proof.
  intros Hz Hnull. apply (f_equal Shared.Z_of_char) in Hnull.
  rewrite Z_of_char_of_Z in Hnull by lia. vm_compute in Hnull. lia.
Qed.

Lemma c_string_app (pre rest : list ascii) :
  Forall (fun c => c <> Shared.null) pre ->
  Shared.c_string (pre ++ rest) = app pre <$> Shared.c_string rest.
Proof.
  induction 1 as [|c pre Hc _ IH]; simpl.
  - by destruct (Shared.c_string rest).
  - destruct (Ascii.eqb_spec c Shared.null) as [|_]; [done|].
    rewrite IH. by destruct (Shared.c_string rest).
Qed.

Lemma c_string_Some (buf : list ascii) :
  Shared.null ∈ buf -> is_Some (Shared.c_string buf).
Proof.
  induction buf as [|c buf IH]; intros Hin.
  - by apply elem_of_nil in Hin.
  - simpl. destruct (Ascii.eqb_spec c Shared.null) as [|Hc]; [by eexists|].
    apply elem_of_cons in Hin as [Heq|Hin]; [congruence|].
    destruct (IH Hin) as [p ->]. by eexists.
Qed.

Lemma wired_head (low bytes neg : Z) :
  0 <= low <= 3 -> 1 <= bytes <= 6 -> neg = 0 \/ neg = 4 ->
  let code := Z.lor (Z.lor (64 + low) (Z.shiftl bytes 3)) neg in
  64 <= code < 128 /\ Z.land code 4 = neg /\
  Z.land (Z.shiftr code 3) 7 = bytes /\ Z.land code 3 = low.
Proof.
  intros Hlow Hbytes Hneg.
  assert (Hl : low = 0 \/ low = 1 \/ low = 2 \/ low = 3) by lia.
  assert (Hb : bytes = 1 \/ bytes = 2 \/ bytes = 3 \/ bytes = 4
               \/ bytes = 5 \/ bytes = 6) by lia.
  destruct Hl as [-> | [-> | [-> | ->]]];
    destruct Hb as [-> | [-> | [-> | [-> | [-> | ->]]]]];
    destruct Hneg as [-> | ->]; vm_compute; repeat split; discriminate.
Qed.

Lemma string_at_middle (pre suf : list ascii) (c : ascii) :
  Shared.string_at (pre ++ c :: suf) (Z.of_nat (length pre))
  = Some (Shared.Z_of_char c).
Proof.
  unfold Shared.string_at.
  destruct (Z.ltb_spec (Z.of_nat (length pre)) 0); [lia|].
  rewrite Nat2Z.id, lookup_app_r by lia. by rewrite Nat.sub_diag.
Qed.

Lemma string_at_head (c : ascii) (s : list ascii) :
  Shared.string_at (c :: s) 0 = Some (Shared.Z_of_char c).
Proof. done. Qed.

Lemma wired_digits_decode (k : nat) (w s b acc : Z) (pre suf : list ascii)
    (ds : list Z) :
  Shared.wired_digits k w = Some ds ->
  0 <= w -> 0 <= s -> s = 6 * b - 4 -> 0 <= acc < 2 ^ s ->
  acc + w * 2 ^ s < 2147483648 ->
  Shared.DecodeWired_from (length ds) b (Z.of_nat (length pre)) s acc
    (pre ++ (Shared.char_of_Z <$> ds) ++ suf)
  = Some (acc + w * 2 ^ s).
Proof.
  revert w s b acc pre ds.
  induction k as [|k IH]; intros w s b acc pre ds; cbn [Shared.wired_digits];
    destruct (Z.eqb_spec w 0) as [->|Hw0]; try done.
  - intros [= <-] _ _ _ _ _. simpl. f_equal. lia.
  - intros [= <-] _ _ _ _ _. simpl. f_equal. lia.
  - destruct (Shared.wired_digits k (Z.shiftr w 6)) as [rest|] eqn:Hrest;
      [|done]. simpl. intros [= <-] Hw Hs Hsb Hacc Htot.
    rewrite Z.shiftr_div_pow2 in Hrest by lia. change (2 ^ 6) with 64 in Hrest.
    change 63 with (2 ^ 6 - 1). rewrite land_low by lia.
    change (2 ^ 6) with 64.
    pose proof (Z.mod_pos_bound w 64 ltac:(lia)) as Hd.
    pose proof (Z.div_mod w 64 ltac:(lia)) as Hdm.
    assert (Hp : 0 < 2 ^ s) by (apply Z.pow_pos_nonneg; lia).
    assert (Hs31 : s < 31).
    { apply (Z.pow_lt_mono_r_iff 2); [lia|lia|]. change (2 ^ 31) with 2147483648.
      nia. }
    cbn [fmap list_fmap length Shared.DecodeWired_from app].
    rewrite string_at_middle. cbn [mbind option_bind].
    rewrite Z_of_char_of_Z by lia.
    change 63 with (2 ^ 6 - 1). rewrite land_low by lia.
    change (2 ^ 6) with 64.
    replace ((64 + w mod 64) mod 64) with (w mod 64).
    2: { replace (64 + w mod 64) with (w mod 64 + 1 * 64) by lia.
         rewrite Z.mod_add by lia. symmetry. apply Z.mod_small. lia. }
    assert (Hq : 0 <= w / 64) by (apply Z.div_pos; lia).
    assert (Hpart : w mod 64 * 2 ^ s <= w * 2 ^ s)
      by (apply Z.mul_le_mono_nonneg_r; lia).
    unfold Shared.shl_int.
    destruct (Z.ltb_spec s 32); [|lia].
    destruct (Z.ltb_spec (w mod 64 * 2 ^ s) 4294967296); [|lia].
    cbn [andb mbind option_bind].
    rewrite (Z.mod_small (w mod 64 * 2 ^ s + 2147483648)) by nia.
    replace (w mod 64 * 2 ^ s + 2147483648 - 2147483648)
      with (w mod 64 * 2 ^ s) by lia.
    rewrite Z.lor_comm, lor_shifted_low by lia.
    assert (Hpow : 2 ^ (2 + 6 * b) = 64 * 2 ^ s).
    { replace (2 + 6 * b) with (s + 6) by lia.
      rewrite Z.pow_add_r by lia. change (2 ^ 6) with 64. lia. }
    replace (Z.of_nat (length pre) + 1)
      with (Z.of_nat (length (pre ++ [Shared.char_of_Z (64 + w mod 64)]))).
    2: { rewrite length_app. simpl. lia. }
    replace (pre ++ Shared.char_of_Z (64 + w mod 64)
                 :: (Shared.char_of_Z <$> rest) ++ suf)
      with ((pre ++ [Shared.char_of_Z (64 + w mod 64)])
              ++ (Shared.char_of_Z <$> rest) ++ suf)
      by (by rewrite <- app_assoc).
    rewrite (IH (w / 64) (2 + 6 * b) (b + 1) _ _ rest Hrest).
    + f_equal. rewrite Hpow. nia.
    + apply Z.div_pos; lia.
    + lia.
    + lia.
    + rewrite Hpow. nia.
    + rewrite Hpow. nia.
Qed.

Lemma wired_chars_decode (v : Z) :
  -2147483648 < v < 2147483648 ->
  exists c0 ds,
    Shared.wired_digits 5 (Z.shiftr (Z.abs v) 2) = Some ds /\
    Shared.wired_chars v
    = Some (c0 :: (Shared.char_of_Z <$> ds), 1 + Z.of_nat (length ds)) /\
    Forall (fun c => c <> Shared.null) (c0 :: (Shared.char_of_Z <$> ds)) /\
    Shared.DecodeWired (c0 :: (Shared.char_of_Z <$> ds)) = Some v.
Proof.
  intros Hv. unfold Shared.wired_chars.
  destruct (Z.eqb_spec v (-9223372036854775808)) as [->|_]; [lia|].
  set (m := Z.abs v). assert (Hm : 0 <= m < 2147483648) by lia.
  assert (Hw : 0 <= Z.shiftr m 2 < 64 ^ Z.of_nat 5).
  { rewrite Z.shiftr_div_pow2 by lia. change (2 ^ 2) with 4.
    split; [apply Z.div_pos; lia|].
    apply Z.div_lt_upper_bound; [lia|]. change (64 ^ Z.of_nat 5) with 1073741824.
    lia. }
  destruct (wired_digits_Some 5 5 _ Hw ltac:(lia)) as (ds & Hds & Hlen).
  rewrite Hds. cbn [mbind option_bind].
  change 3 with (2 ^ 2 - 1) at 1. rewrite land_low by lia. change (2 ^ 2) with 4.
  pose proof (Z.mod_pos_bound m 4 ltac:(lia)) as Hlow.
  rewrite Z_of_char_of_Z by lia.
  set (neg := if 0 <=? v then 0 else 4).
  assert (Hneg : neg = 0 \/ neg = 4) by (unfold neg; destruct (0 <=? v); auto).
  pose proof (wired_head (m mod 4) (1 + Z.of_nat (length ds)) neg
                ltac:(lia) ltac:(lia) Hneg) as Hhead.
  cbv zeta in Hhead.
  set (code := Z.lor (Z.lor (64 + m mod 4) (Z.shiftl (1 + Z.of_nat (length ds)) 3))
                 neg) in *.
  destruct Hhead as (Hrange & Hc4 & Hc3 & Hc0).
  exists (Shared.char_of_Z code), ds. split; [done|]. split; [done|]. split.
  { constructor; [by apply char_of_Z_not_null|].
    apply Forall_fmap. eapply Forall_impl; [by eapply wired_digits_range|].
    intros d Hd. by apply char_of_Z_not_null. }
  unfold Shared.DecodeWired.
  rewrite string_at_head.
  cbn [mbind option_bind]. rewrite Z_of_char_of_Z by lia.
  rewrite Hc3, Hc0, Hc4.
  replace (Z.to_nat (1 + Z.of_nat (length ds) - 1)) with (length ds) by lia.
  pose proof (wired_digits_decode 5 (Z.shiftr m 2) 2 1 (m mod 4)
                [Shared.char_of_Z code] [] ds Hds) as Hdec.
  rewrite app_nil_r in Hdec. simpl length in Hdec. cbn [app] in Hdec.
  rewrite Z.shiftr_div_pow2 in Hdec by lia. change (2 ^ 2) with 4 in Hdec.
  pose proof (Z.div_mod m 4 ltac:(lia)) as Hdm.
  change (Z.of_nat 1) with 1 in Hdec.
  rewrite Hdec; [|apply Z.div_pos; lia|lia|lia|lia|lia].
  cbn [mbind option_bind].
  replace (m mod 4 + m / 4 * 4) with m by lia.
  unfold neg. destruct (Z.leb_spec 0 v).
  - simpl. f_equal. lia.
  - simpl. rewrite checked_int_Some by (unfold Shared.int32; lia).
    f_equal. lia.
Qed.

(** X11. When the magnitude of the value is below 2^(6k-4) for some [k]
    from 1 to 5, so that at most [k] characters are written, and the
    array happens to hold a null in [wf[k]], [EncodeWired] returns the
    characters written, at most [k] of them, and [DecodeWired] gives the
    value back from them. *)
Theorem DecodeWired_EncodeWired (wf_init : nat -> ascii) (k : nat) (v : Z) :
  (1 <= k <= 5)%nat ->
  wf_init k = Shared.null ->
  Z.abs v < 2 ^ (6 * Z.of_nat k - 4) ->
  exists s,
    Shared.EncodeWired wf_init v = Some s /\
    (1 <= length s <= k)%nat /\
    Shared.DecodeWired s = Some v.
Proof.
  intros Hk Hnull Hv.
  assert (Hpow : 2 ^ (6 * Z.of_nat k - 4) <= 2 ^ 26)
    by (apply Z.pow_le_mono_r; lia).
  change (2 ^ 26) with 67108864 in Hpow.
  destruct (wired_chars_decode v ltac:(lia)) as (c0 & ds & Hds & Hw & Hnn & Hdec).
  assert (Hlen : (length ds <= k - 1)%nat).
  { destruct (wired_digits_Some 5 (k - 1) (Z.shiftr (Z.abs v) 2))
      as (ds' & Hds' & Hlen'); [|lia|congruence].
    rewrite Z.shiftr_div_pow2 by lia. change (2 ^ 2) with 4.
    split; [apply Z.div_pos; lia|].
    apply Z.div_lt_upper_bound; [lia|].
    replace (64 ^ Z.of_nat (k - 1)) with (2 ^ (6 * Z.of_nat k - 6)).
    2:{ change 64 with (2 ^ 6). rewrite <- Z.pow_mul_r by lia. f_equal. lia. }
    replace (6 * Z.of_nat k - 4) with (2 + (6 * Z.of_nat k - 6)) in Hv by lia.
    rewrite Z.pow_add_r in Hv by lia. lia. }
  set (s := c0 :: (Shared.char_of_Z <$> ds)) in *.
  assert (Hs : length s = S (length ds)) by (unfold s; simpl; by rewrite length_fmap).
  exists s. split; [|split; [lia|done]].
  unfold Shared.EncodeWired. rewrite Hw. cbn [mbind option_bind].
  rewrite c_string_app by done.
  destruct (c_string_Some
              (wf_init <$> seq (length s) (6 - length s))) as [p Hp].
  { apply list_elem_of_fmap. exists k. split; [done|].
    apply elem_of_seq. lia. }
  rewrite Hp. cbn [fmap option_fmap option_map mbind option_bind]. f_equal.
  unfold Shared.resize.
  replace (Z.to_nat (1 + Z.of_nat (length ds))) with (length s) by lia.
  rewrite take_app_length, length_app.
  replace (length s - (length s + length p))%nat with 0%nat by lia.
  apply app_nil_r.
Qed.

Lemma DecodeWired_EncodeWired_witness :
  let wf_init := fun i : nat => if (i =? 4)%nat then Shared.null else "x"%char in
  (1 <= 4 <= 5)%nat /\
  wf_init 4%nat = Shared.null /\
  Z.abs (-123456) < 2 ^ (6 * Z.of_nat 4 - 4) /\
  exists s,
    Shared.EncodeWired wf_init (-123456) = Some s /\
    (1 <= length s <= 4)%nat /\
    Shared.DecodeWired s = Some (-123456).
Proof.
  intros wf_init.
  assert (H1 : (1 <= 4 <= 5)%nat) by lia.
  assert (H2 : wf_init 4%nat = Shared.null) by reflexivity.
  assert (H3 : Z.abs (-123456) < 2 ^ (6 * Z.of_nat 4 - 4)) by reflexivity.
  split; [exact H1|]. split; [exact H2|]. split; [exact H3|].
  exact (DecodeWired_EncodeWired wf_init 4 (-123456) H1 H2 H3).
Defined.

(** X16. A value of magnitude from 2^26 up fills all six elements of
    [wf] with characters that are not null: whatever the array held on
    entry, the construction of the string from it reads past [wf[5]]. *)
Theorem EncodeWired_reads_past_wf (wf_init : nat -> ascii) (v : Z) :
  67108864 <= Z.abs v < 2147483648 ->
  exists written,
    Shared.wired_chars v = Some (written, 6) /\
    length written = 6%nat /\
    Forall (fun c => c <> Shared.null) written /\
    Shared.EncodeWired wf_init v = None.
Proof.
  intros Hv.
  destruct (wired_chars_decode v ltac:(lia)) as (c0 & ds & Hds & Hw & Hnn & _).
  assert (Hlen : length ds = 5%nat).
  { assert (Hw4 : 64 ^ Z.of_nat 4 <= Z.shiftr (Z.abs v) 2).
    { rewrite Z.shiftr_div_pow2 by lia. change (2 ^ 2) with 4.
      change (64 ^ Z.of_nat 4) with 16777216.
      apply Z.div_le_lower_bound; lia. }
    pose proof (wired_digits_long _ _ _ _ Hds Hw4).
    destruct (wired_digits_Some 5 5 (Z.shiftr (Z.abs v) 2))
      as (ds' & Hds' & Hlen'); [|lia|].
    { rewrite Z.shiftr_div_pow2 by lia. change (2 ^ 2) with 4.
      split; [apply Z.div_pos; lia|].
      apply Z.div_lt_upper_bound; [lia|].
      change (64 ^ Z.of_nat 5) with 1073741824. lia. }
    assert (ds' = ds) as -> by congruence. lia. }
  exists (c0 :: (Shared.char_of_Z <$> ds)).
  rewrite Hlen in Hw. split; [exact Hw|].
  assert (Hs : length (c0 :: (Shared.char_of_Z <$> ds)) = 6%nat)
    by (simpl; by rewrite length_fmap, Hlen).
  split; [exact Hs|]. split; [exact Hnn|].
  unfold Shared.EncodeWired. rewrite Hw. cbn [mbind option_bind].
  rewrite Hs. cbn [seq fmap list_fmap]. rewrite c_string_app by done.
  done.
Qed.

Lemma EncodeWired_reads_past_wf_witness :
  67108864 <= Z.abs (-123456789) < 2147483648 /\
  exists written,
    Shared.wired_chars (-123456789) = Some (written, 6) /\
    length written = 6%nat /\
    Forall (fun c => c <> Shared.null) written /\
    Shared.EncodeWired (fun _ => Shared.null) (-123456789) = None.
Proof.
  assert (H : 67108864 <= Z.abs (-123456789) < 2147483648) by (simpl; lia).
  split; [exact H|].
  exact (EncodeWired_reads_past_wf (fun _ => Shared.null) (-123456789) H).
Defined.

(** ** [SplitString] *)

Lemma starts_with_app (t r : list ascii) :
  Shared.starts_with t (t ++ r) = true.
Proof.
  induction t as [|a t IH]; [done|]. simpl. by rewrite Ascii.eqb_refl.
Qed.

Lemma find_from_unfold (t s : list ascii) (i : nat) :
  Shared.find_from t s i
  = if Shared.starts_with t s then Some i
    else match s with
         | [] => None
         | _ :: s' => Shared.find_from t s' (S i)
         end.
Proof. by destruct s. Qed.

Lemma find_from_first (t : list ascii) (n : nat) (s : list ascii) (i : nat) :
  (forall j, (j < n)%nat -> Shared.starts_with t (drop j s) = false) ->
  Shared.starts_with t (drop n s) = true -> (n <= length s)%nat ->
  Shared.find_from t s i = Some (i + n)%nat.
Proof.
  revert s i. induction n as [|n IH]; intros s i Hbefore Hn Hlen.
  - rewrite find_from_unfold. rewrite drop_0 in Hn. rewrite Hn.
    f_equal. lia.
  - rewrite find_from_unfold.
    rewrite (Hbefore 0%nat ltac:(lia) : Shared.starts_with t s = false).
    destruct s as [|a s]; [simpl in Hlen; lia|].
    rewrite (IH s (S i)).
    + f_equal. lia.
    + intros j Hj. apply (Hbefore (S j)). lia.
    + done.
    + simpl in Hlen. lia.
Qed.

Lemma find_from_none (t s : list ascii) (i : nat) :
  (forall j, (j <= length s)%nat -> Shared.starts_with t (drop j s) = false) ->
  Shared.find_from t s i = None.
Proof.
  revert i. induction s as [|a s IH]; intros i Hno; rewrite find_from_unfold.
  - by rewrite (Hno 0%nat ltac:(simpl; lia) : Shared.starts_with t [] = false).
  - rewrite (Hno 0%nat ltac:(simpl; lia)
              : Shared.starts_with t (a :: s) = false).
    apply IH. intros j Hj. apply (Hno (S j)). simpl. lia.
Qed.

Lemma until_CR_app (val rest : list ascii) :
  Shared.CR ∉ val -> rest = [] \/ head rest = Some Shared.CR ->
  Shared.until_CR (val ++ rest) = val.
Proof.
  intros Hval Hrest. induction val as [|c val IH]; simpl.
  - destruct Hrest as [->|Hhd]; [done|].
    destruct rest as [|c rest]; [done|]. by injection Hhd as ->.
  - apply not_elem_of_cons in Hval as [Hc Hval].
    destruct (Ascii.eqb_spec c Shared.CR) as [->|_]; [done|].
    by rewrite IH.
Qed.

Lemma until_CR_no_CR (s : list ascii) : Shared.CR ∉ Shared.until_CR s.
Proof.
  induction s as [|c s IH]; simpl; [apply not_elem_of_nil|].
  destruct (Ascii.eqb_spec c Shared.CR) as [->|Hc]; [apply not_elem_of_nil|].
  apply not_elem_of_cons. split; [congruence|done].
Qed.

Lemma Z_of_char_inj (a b : ascii) :
  Shared.Z_of_char a = Shared.Z_of_char b -> a = b.
Proof.
  unfold Shared.Z_of_char. intros Heq.
  pose proof (N_ascii_bounded a) as Ha. pose proof (N_ascii_bounded b) as Hb.
  rewrite <- (ascii_N_embedding a), <- (ascii_N_embedding b). f_equal.
  destruct (Z.ltb_spec (Z.of_N (N_of_ascii a)) 128);
    destruct (Z.ltb_spec (Z.of_N (N_of_ascii b)) 128); lia.
Qed.

(** X12. When the data holds the key, directly followed by ['='] and a
    value that ends at a carriage return or at the end of the data, and
    the key does not occur earlier in the data, [SplitString] returns
    that value. *)
Theorem SplitString_found (pre tok val rest : list ascii) :
  let data := pre ++ tok ++ "="%char :: val ++ rest in
  (forall j, (j < length pre)%nat ->
     Shared.starts_with tok (drop j data) = false) ->
  Shared.CR ∉ val ->
  rest = [] \/ head rest = Some Shared.CR ->
  Z.of_nat (length data) < 18446744073709551616 ->
  Shared.SplitString data tok = Some val.
Proof.
  intros data Hfirst Hval Hrest Hlen.
  assert (Hfind : Shared.find data tok = Z.of_nat (length pre)).
  { unfold Shared.find.
    rewrite (find_from_first tok (length pre) data 0 Hfirst).
    - done.
    - unfold data. rewrite drop_app_length. apply starts_with_app.
    - unfold data. rewrite length_app. lia. }
  assert (Hdata : length data
                  = (length pre + length tok + 1 + length val + length rest)%nat).
  { unfold data. rewrite !length_app. simpl. rewrite length_app. lia. }
  unfold Shared.SplitString. rewrite Hfind. unfold Shared.size_t.
  rewrite (Z.mod_small (Z.of_nat (length tok) + 1)) by lia.
  rewrite !Z.mod_small by lia.
  replace (Z.of_nat (length pre) + Z.of_nat (length tok))
    with (Z.of_nat (length (pre ++ tok))) by (rewrite length_app; lia).
  replace data with ((pre ++ tok) ++ "="%char :: val ++ rest)
    by (unfold data; by rewrite <- app_assoc).
  rewrite string_at_middle. cbn [mbind option_bind].
  rewrite Z.eqb_refl. f_equal.
  replace (Z.to_nat (Z.of_nat (length pre) + (Z.of_nat (length tok) + 1)))
    with (length (pre ++ tok) + 1)%nat by (rewrite length_app; lia).
  rewrite <- drop_drop, drop_app_length. simpl. rewrite drop_0.
  by apply until_CR_app.
Qed.

Lemma SplitString_found_witness :
  Shared.SplitString
    (["a"; ";"; "k"; "e"; "y"; "="; "b"; "c"; Shared.CR; "d"]%char)
    (["k"; "e"; "y"]%char)
  = Some (["b"; "c"]%char).
Proof.
  apply (SplitString_found (["a"; ";"]%char) (["k"; "e"; "y"]%char)
           (["b"; "c"]%char) ([Shared.CR; "d"]%char)).
  - intros j Hj. simpl in Hj.
    destruct j as [|[|j]]; [reflexivity|reflexivity|lia].
  - vm_compute. intros Hin.
    apply elem_of_cons in Hin as [Hin|Hin]; [discriminate|].
    apply elem_of_cons in Hin as [Hin|Hin]; [discriminate|].
    by apply elem_of_nil in Hin.
  - right. reflexivity.
  - simpl. lia.
Defined.

(** X13. Whatever [SplitString] returns holds no carriage return. *)
Theorem SplitString_no_CR (stringData tokenizer r : list ascii) :
  Shared.SplitString stringData tokenizer = Some r -> Shared.CR ∉ r.
Proof.
  unfold Shared.SplitString. intros Hsplit.
  destruct (Shared.string_at _ _) as [c|]; [|done].
  cbn [mbind option_bind] in Hsplit.
  destruct (c =? _); injection Hsplit as <-.
  - apply until_CR_no_CR.
  - intros Hin. apply elem_of_cons in Hin as [Hin|Hin]; [discriminate|].
    by apply elem_of_nil in Hin.
Qed.

Lemma SplitString_no_CR_witness :
  Shared.SplitString
    (["k"; "="; "v"; Shared.CR; "w"]%char) (["k"]%char) = Some (["v"]%char)
  /\ Shared.CR ∉ (["v"]%char : list ascii).
Proof.
  split; [reflexivity|].
  apply (SplitString_no_CR (["k"; "="; "v"; Shared.CR; "w"]%char)
           (["k"]%char)).
  reflexivity.
Defined.

(** X14. When the key occurs nowhere in the data, [find] gives [npos]
    and the index wraps around: the character tested against ['='] is
    the one at index [tokenizer.length() - 1] of the data, and when it is
    ['='] the result is read from index [tokenizer.length()] on, up to
    the first carriage return; otherwise the result is ["0"]. *)
Theorem SplitString_missing_key (stringData tokenizer : list ascii)
    (c : ascii) :
  (forall j, (j <= length stringData)%nat ->
     Shared.starts_with tokenizer (drop j stringData) = false) ->
  stringData !! (length tokenizer - 1)%nat = Some c ->
  Z.of_nat (length stringData) < Shared.npos ->
  Shared.SplitString stringData tokenizer
  = Some (if Ascii.eqb c "="
          then Shared.until_CR (drop (length tokenizer) stringData)
          else ["0"%char]).
Proof.
  intros Hno Hc Hlen.
  assert (Htok : (1 <= length tokenizer)%nat).
  { specialize (Hno 0%nat ltac:(lia)). destruct tokenizer; [done|simpl; lia]. }
  pose proof (lookup_lt_Some _ _ _ Hc) as Hlt.
  unfold Shared.npos in Hlen.
  unfold Shared.SplitString, Shared.find.
  rewrite (find_from_none tokenizer stringData 0 Hno).
  unfold Shared.size_t, Shared.npos.
  rewrite (Z.mod_small (Z.of_nat (length tokenizer) + 1)) by lia.
  replace ((18446744073709551615 + Z.of_nat (length tokenizer))
           mod 18446744073709551616)
    with (Z.of_nat (length tokenizer - 1)).
  2:{ replace (18446744073709551615 + Z.of_nat (length tokenizer))
        with (Z.of_nat (length tokenizer - 1) + 1 * 18446744073709551616)
        by lia.
      rewrite Z.mod_add by lia. rewrite Z.mod_small; lia. }
  replace ((18446744073709551615 + (Z.of_nat (length tokenizer) + 1))
           mod 18446744073709551616)
    with (Z.of_nat (length tokenizer)).
  2:{ replace (18446744073709551615 + (Z.of_nat (length tokenizer) + 1))
        with (Z.of_nat (length tokenizer) + 1 * 18446744073709551616)
        by lia.
      rewrite Z.mod_add by lia. rewrite Z.mod_small; lia. }
  unfold Shared.string_at.
  destruct (Z.ltb_spec (Z.of_nat (length tokenizer - 1)) 0); [lia|].
  rewrite !Nat2Z.id, Hc. cbn [mbind option_bind].
  destruct (Ascii.eqb_spec c "="%char) as [->|Hne].
  - by rewrite Z.eqb_refl.
  - destruct (Z.eqb_spec (Shared.Z_of_char c) (Shared.Z_of_char "=")) as [Heq|_];
      [|done].
    by apply Z_of_char_inj in Heq.
Qed.

Lemma SplitString_missing_key_witness :
  Shared.SplitString (["a"; "="; "b"; "c"; "d"]%char) (["z"; "z"]%char)
  = Some (["b"; "c"; "d"]%char).
Proof.
  apply (SplitString_missing_key (["a"; "="; "b"; "c"; "d"]%char)
           (["z"; "z"]%char) "="%char).
  - intros j Hj. simpl in Hj.
    destruct j as [|[|[|[|[|[|j]]]]]]; [reflexivity..|lia].
  - reflexivity.
  - unfold Shared.npos. simpl. lia.
Defined.
